(** * HeatBGMapGenerator: the track geometry of [main.py] and the segment
      mutations of [app.py], embedded and verified.

    The Python code computes on IEEE-754 doubles (Python [float] and numpy
    [float64]).  The embedding is written once, over an interface [Arith] of
    the arithmetic the code uses, and instantiated twice:

    - [Exact.arith]: the real numbers [R], the arithmetic the specification
      speaks about ("in exact arithmetic", "within floating-point
      tolerance"); the geometric theorems are stated at this instance;
    - [Float64.arith]: the kernel's binary64 numbers, on which the very same
      definitions run ([vm_compute]) the way the Python code does; the
      concrete runs below are also evaluated there.

    Theorems that do not depend on the arithmetic (the numbering, the
    mutations of [app.py]) are stated for every instance.

    Exceptions and numpy's division warnings are explicit: a computation is
    a value of [M A], the warnings emitted so far and either the exception
    raised or the result. *)

From Stdlib Require Import Reals Lra Lia ZArith List String Bool.
From Stdlib Require PrimFloat FloatOps Uint63Axioms.
From stdpp Require Import base option list gmap strings sorting.
Import ListNotations.

Set Implicit Arguments.
Unset Strict Implicit.

(** ** Exceptions, warnings and the execution monad *)

(** The Python exceptions the modelled code can raise. *)
Inductive exn : Type :=
| ValueError (msg : string)
| IndexError
| ZeroDivisionError
| OverflowError
| ShapelyError (msg : string).

(** numpy does not raise on a division by zero: it emits a [RuntimeWarning]
    ("divide by zero encountered" or "invalid value encountered") and
    returns an infinity or a NaN. *)
Inductive warning : Type :=
| RuntimeWarning_divide.

Definition M (A : Type) : Type := (list warning * (exn + A))%type.

Definition ret {A} (a : A) : M A := ([], inr a).
Definition raise {A} (e : exn) : M A := ([], inl e).
Definition warn (w : warning) : M unit := ([w], inr tt).

Definition bind {A B} (m : M A) (k : A -> M B) : M B :=
  match m with
  | (ws, inl e) => (ws, inl e)
  | (ws, inr a) => let '(ws', r) := k a in (ws ++ ws', r)
  end.

Declare Scope py_scope.
Delimit Scope py_scope with py.
Notation "x <- m ;; k" := (bind m (fun x => k))
  (at level 100, m at next level, right associativity) : py_scope.
Notation "m ;;; k" := (bind m (fun _ => k))
  (at level 100, right associativity) : py_scope.
Open Scope py_scope.

(** [try: m except Exception: handler]. Warnings already emitted stay. *)
Definition try_except {A} (m : M A) (handler : exn -> M A) : M A :=
  match m with
  | (ws, inl e) => let '(ws', r) := handler e in (ws ++ ws', r)
  | (ws, inr a) => (ws, inr a)
  end.

Definition warnings {A} (m : M A) : list warning := fst m.
Definition outcome {A} (m : M A) : exn + A := snd m.

(** [for x in xs: s = body(s, x)]. *)
Fixpoint for_each {A S} (xs : list A) (body : S -> A -> M S) (s : S) : M S :=
  match xs with
  | [] => ret s
  | x :: xs' => s' <- body s x ;; for_each xs' body s'
  end.

(** ** Python lists *)

(** [l[i]]: a negative index counts from the end; out of range raises
    [IndexError]. *)
Definition item {A} (l : list A) (i : Z) : M A :=
  let k := if (i <? 0)%Z then (Z.of_nat (length l) + i)%Z else i in
  if (k <? 0)%Z then raise IndexError
  else match l !! Z.to_nat k with
       | Some x => ret x
       | None => raise IndexError
       end.

(** [range(n)]. *)
Definition range (n : Z) : list Z := seqZ 0 n.

(** ** The arithmetic interface *)

Class Arith (num : Type) : Type := {
  of_Z : Z -> num;                 (* an int used where a float is expected *)
  add : num -> num -> num;
  sub : num -> num -> num;
  mul : num -> num -> num;
  div : num -> num -> num;         (* the quotient; by zero: what the instance gives *)
  opp : num -> num;
  sqrt : num -> num;
  leb : num -> num -> bool;
  ltb : num -> num -> bool;
  is_zero : num -> bool;
  to_int : num -> exn + Z          (* int(x): truncation toward zero *)
}.

(** *** Exact arithmetic: the real numbers

    [div x 0] is the real number [x / 0] of the library, where binary64
    has an infinity or a NaN. The model never uses such a quotient: the
    fraction [t] computed by a division by zero belongs to a boundary that
    is skipped, and [int(a / 0)] raises ([int_quotient]). *)
Module Exact.

Definition Rleb (x y : R) : bool := if Rle_dec x y then true else false.
Definition Rltb (x y : R) : bool := if Rlt_dec x y then true else false.
Definition Reqb (x y : R) : bool := if Req_dec_T x y then true else false.

(** Truncation toward zero. [Int_part] is the floor. *)
Definition Rtrunc (x : R) : Z :=
  if Rle_dec 0 x then Int_part x else (- Int_part (- x))%Z.

#[global] Instance arith : Arith R := {|
  of_Z := IZR;
  add := Rplus;
  sub := Rminus;
  mul := Rmult;
  div := Rdiv;
  opp := Ropp;
  sqrt := R_sqrt.sqrt;
  leb := Rleb;
  ltb := Rltb;
  is_zero := fun x => Reqb x 0%R;
  to_int := fun x => inr (Rtrunc x)
|}.

End Exact.

(** *** IEEE-754 binary64: what Python and numpy compute with *)
Module Float64.

(** [float(z)], exact for the integers below 2^53 in magnitude. *)
Definition float_of_Z (z : Z) : PrimFloat.float :=
  match z with
  | Z0 => PrimFloat.zero
  | Zpos _ => PrimFloat.of_uint63 (Uint63Axioms.of_Z z)
  | Zneg p => PrimFloat.opp (PrimFloat.of_uint63 (Uint63Axioms.of_Z (Zpos p)))
  end.

(** [int(x)] on a float: the integer part, [OverflowError] on an
    infinity, [ValueError] on a NaN. *)
Definition int_of_float (x : PrimFloat.float) : exn + Z :=
  match FloatOps.Prim2SF x with
  | SpecFloat.S754_zero _ => inr 0%Z
  | SpecFloat.S754_infinity _ =>
      inl OverflowError
  | SpecFloat.S754_nan =>
      inl (ValueError "cannot convert float NaN to integer")
  | SpecFloat.S754_finite s m e =>
      let a := match e with
               | Zneg p => Z.shiftr (Zpos m) (Zpos p)
               | _ => Z.shiftl (Zpos m) e
               end in
      inr (if s then (- a)%Z else a)
  end.

#[global] Instance arith : Arith PrimFloat.float := {|
  of_Z := float_of_Z;
  add := PrimFloat.add;
  sub := PrimFloat.sub;
  mul := PrimFloat.mul;
  div := PrimFloat.div;
  opp := PrimFloat.opp;
  sqrt := PrimFloat.sqrt;
  leb := PrimFloat.leb;
  ltb := PrimFloat.ltb;
  is_zero := fun x => PrimFloat.eqb x PrimFloat.zero;
  to_int := int_of_float
|}.

End Float64.

(** ** Data model *)

(** A point: a pair of coordinates (a tuple of two floats, or a numpy
    array of two floats). *)
Definition Point (num : Type) : Type := (num * num)%type.

(** One entry of [segment_divisions]: a dict with the keys
    ['segment_number'], ['center_point'], ['line_start'], ['line_end'] and
    ['distance']; the keys ['is_curve'] and ['speed_limit'] are absent
    ([None]) until [mark_curve] adds them. *)
Record Segment (num : Type) : Type := mkSegment {
  segment_number : Z;
  center_point : Point num;
  line_start : Point num;
  line_end : Point num;
  distance : num;
  is_curve : option bool;
  speed_limit : option Z
}.

Arguments segment_number {num} _.
Arguments center_point {num} _.
Arguments line_start {num} _.
Arguments line_end {num} _.
Arguments distance {num} _.
Arguments is_curve {num} _.
Arguments speed_limit {num} _.

(** The fields of a [HeatTrackGenerator] object. *)
Record HeatTrackGenerator (num : Type) : Type := mkGenerator {
  track_width : num;
  segment_length : num;
  centerline_points : list (Point num);
  left_border_points : list (Point num);
  right_border_points : list (Point num);
  segment_divisions : list (Segment num)
}.

Arguments track_width {num} _.
Arguments segment_length {num} _.
Arguments centerline_points {num} _.
Arguments left_border_points {num} _.
Arguments right_border_points {num} _.
Arguments segment_divisions {num} _.

Section Geometry.
Context {num : Type} {arith : Arith num}.

Local Abbreviation Point := (Point num).
Local Abbreviation Segment := (Segment num).
Local Abbreviation HeatTrackGenerator := (HeatTrackGenerator num).

(** *** numpy arithmetic on two-element arrays *)

Definition vadd (p q : Point) : Point := (add p.1 q.1, add p.2 q.2).
Definition vsub (p q : Point) : Point := (sub p.1 q.1, sub p.2 q.2).
(** [t * v] and [v * t] for a scalar [t]. *)
Definition smul (t : num) (v : Point) : Point := (mul t v.1, mul t v.2).
Definition vmul (v : Point) (t : num) : Point := (mul v.1 t, mul v.2 t).
(** [np.linalg.norm]. *)
Definition norm (v : Point) : num := sqrt (add (mul v.1 v.1) (mul v.2 v.2)).

(** The numpy division [a / b] of scalars: by zero it warns and goes on. *)
Definition divide (a b : num) : M num :=
  (if is_zero b then warn RuntimeWarning_divide else ret tt) ;;;
  ret (div a b).

(** The numpy division [v / b] of an array by a scalar. *)
Definition vdivide (v : Point) (b : num) : M Point :=
  (if is_zero b then warn RuntimeWarning_divide else ret tt) ;;;
  ret (div v.1 b, div v.2 b).

(** [int(x)]. *)
Definition int_ (x : num) : M Z :=
  match to_int x with
  | inl e => raise e
  | inr z => ret z
  end.

(** [int(a / b)] for a numpy float [a]: when [b] is zero numpy warns, the
    quotient is a NaN ([a] zero) or an infinity, and [int] raises; the
    exact instance, which has no such quotient, raises the same error. *)
Definition int_quotient (a b : num) : M Z :=
  if is_zero b then
    warn RuntimeWarning_divide ;;;
    match to_int (div a b) with
    | inl e => raise e
    | inr _ => raise (if is_zero a
                      then ValueError "cannot convert float NaN to integer"
                      else OverflowError)
    end
  else int_ (div a b).

(** [int(a / b)] for the Python int [a = 0]: Python's own division, which
    raises on a zero divisor. *)
Definition int_quotient_py (a b : num) : M Z :=
  if is_zero b then raise ZeroDivisionError else int_ (div a b).

(** [l.pop()], the list that remains. *)
Definition pop {A} (l : list A) : M (list A) :=
  match l with
  | [] => raise IndexError
  | _ => ret (removelast l)
  end.

(** [HeatTrackGenerator(track_width, segment_length)]. *)
Definition init (track_width segment_length : num) : HeatTrackGenerator :=
  mkGenerator track_width segment_length [] [] [] [].

Definition set_borders (self : HeatTrackGenerator)
    (left_points right_points : list Point) : HeatTrackGenerator :=
  mkGenerator (track_width self) (segment_length self)
    (centerline_points self) left_points right_points
    (segment_divisions self).

Definition set_segment_divisions (self : HeatTrackGenerator)
    (segs : list Segment) : HeatTrackGenerator :=
  mkGenerator (track_width self) (segment_length self)
    (centerline_points self) (left_border_points self)
    (right_border_points self) segs.

Definition set_segment_number (s : Segment) (n : Z) : Segment :=
  mkSegment n (center_point s) (line_start s) (line_end s) (distance s)
    (is_curve s) (speed_limit s).

(** *** [divide_track_into_segments] (main.py, lines 166-263) *)

(** Lines 179-184: the cumulative distances along the centerline. *)
Definition cumulative_distances (centerline_points : list Point)
    : M (list num) :=
  for_each (seqZ 1 (Z.of_nat (length centerline_points) - 1))
    (fun distances i =>
       prev <- item centerline_points (i - 1) ;;
       curr <- item centerline_points i ;;
       let dist := norm (vsub curr prev) in
       d <- item distances (-1) ;;
       ret (distances ++ [add d dist]))
    [of_Z 0].

(** Lines 201-228: the body run at the interval [j] that contains the
    target; it appends a boundary unless the direction has zero length. *)
Definition interpolate (self : HeatTrackGenerator) (distances : list num)
    (i : Z) (target_distance : num) (j : Z)
    (segment_divisions : list Segment) : M (list Segment) :=
  dj <- item distances j ;;
  dj1 <- item distances (j + 1) ;;
  t <- divide (sub target_distance dj) (sub dj1 dj) ;;
  p1 <- item (centerline_points self) j ;;
  p2 <- item (centerline_points self) (j + 1) ;;
  let center_point := vadd p1 (smul t (vsub p2 p1)) in
  let direction := vsub p2 p1 in
  let direction_norm := norm direction in
  if ltb (of_Z 0) direction_norm then
    direction <- vdivide direction direction_norm ;;
    let perpendicular := (opp direction.2, direction.1) in
    let half_width := div (track_width self) (of_Z 2) in
    let line_start := vsub center_point (vmul perpendicular half_width) in
    let line_end := vadd center_point (vmul perpendicular half_width) in
    ret (segment_divisions ++
           [mkSegment i center_point line_start line_end target_distance
              None None])
  else ret segment_divisions.

(** Lines 199-229: the scan [for j in range(len(distances) - 1)] for the
    first interval with [distances[j] <= target <= distances[j + 1]];
    the [break] ends the scan there. *)
Fixpoint scan_intervals (self : HeatTrackGenerator) (distances : list num)
    (i : Z) (target_distance : num) (js : list Z)
    (segment_divisions : list Segment) : M (list Segment) :=
  match js with
  | [] => ret segment_divisions
  | j :: js' =>
      dj <- item distances j ;;
      dj1 <- item distances (j + 1) ;;
      if leb dj target_distance && leb target_distance dj1
      then interpolate self distances i target_distance j segment_divisions
      else scan_intervals self distances i target_distance js'
             segment_divisions
  end.

(** Lines 193-229: the placement loop. *)
Definition place_boundaries (self : HeatTrackGenerator)
    (distances : list num) (num_segments : Z) : M (list Segment) :=
  for_each (range (num_segments + 1))
    (fun segment_divisions i =>
       let target_distance := mul (of_Z i) (segment_length self) in
       scan_intervals self distances i target_distance
         (range (Z.of_nat (length distances) - 1)) segment_divisions)
    [].

(** Lines 231-254: the closed-loop check. *)
Definition closed_loop_trim (self : HeatTrackGenerator)
    (segment_divisions : list Segment) : M (list Segment) :=
  if (0 <? length (centerline_points self))%nat then
    first_point <- item (centerline_points self) 0 ;;
    last_point <- item (centerline_points self) (-1) ;;
    let distance_to_start := norm (vsub last_point first_point) in
    if ltb distance_to_start (track_width self)
       && (1 <? length segment_divisions)%nat then
      if (2 <=? length segment_divisions)%nat then
        last_segment <- item segment_divisions (-1) ;;
        first_segment <- item segment_divisions 0 ;;
        let last_center := center_point last_segment in
        let first_center := center_point first_segment in
        let segment_distance := norm (vsub last_center first_center) in
        if ltb segment_distance (segment_length self)
        then pop segment_divisions
        else ret segment_divisions
      else ret segment_divisions
    else ret segment_divisions
  else ret segment_divisions.

(** Lines 256-258: [segment['segment_number'] = i + 1] over
    [enumerate(segment_divisions)]. *)
Definition renumber (segment_divisions : list Segment) : list Segment :=
  imap (fun i segment => set_segment_number segment (Z.of_nat i + 1))
    segment_divisions.

(** Lines 186-187: [total_length] and [num_segments]. With a single
    centerline point [distances] is [[0]], whose entry is the Python int
    0; otherwise [total_length] is a numpy float. *)
Definition count_segments (self : HeatTrackGenerator)
    (distances : list num) : M Z :=
  total_length <- item distances (-1) ;;
  if (length distances =? 1)%nat
  then int_quotient_py total_length (segment_length self)
  else int_quotient total_length (segment_length self).

(** The method. It stores the list it returns in
    [self.segment_divisions]; the result here is the updated object. *)
Definition divide_track_into_segments (self : HeatTrackGenerator)
    : M HeatTrackGenerator :=
  match centerline_points self with
  | [] => raise (ValueError
                   "No centerline points available. Parse SVG first.")
  | _ =>
      distances <- cumulative_distances (centerline_points self) ;;
      num_segments <- count_segments self distances ;;
      segment_divisions <- place_boundaries self distances num_segments ;;
      segment_divisions <- closed_loop_trim self segment_divisions ;;
      ret (set_segment_divisions self (renumber segment_divisions))
  end.

End Geometry.

(** ** The border offsets (main.py, lines 72-164) *)

(** The two sides of [parallel_offset]. *)
Inductive side : Type := side_left | side_right.

(** What shapely's [parallel_offset] returns: a geometry with [coords], or
    a multi-part geometry with [geoms]. *)
Inductive offset_geometry (num : Type) : Type :=
| OffsetLine (coords : list (Point num))
| OffsetMulti (geoms : list (list (Point num))).

Section Borders.
Context {num : Type} {arith : Arith num}.

Local Abbreviation Point := (Point num).
Local Abbreviation HeatTrackGenerator := (HeatTrackGenerator num).

(** *** [_manual_offset_calculation] (lines 122-164) *)

(** Lines 132-159: one turn of the loop, at index [i]. *)
Definition offset_point (centerline_points : list Point)
    (offset_distance : num) (borders : list Point * list Point) (i : Z)
    : M (list Point * list Point) :=
  let '(left_points, right_points) := borders in
  current <- item centerline_points i ;;
  direction <-
    (if (i =? 0)%Z then
       next_point <- item centerline_points (i + 1) ;;
       ret (vsub next_point current)
     else if (i =? Z.of_nat (length centerline_points) - 1)%Z then
       prev_point <- item centerline_points (i - 1) ;;
       ret (vsub current prev_point)
     else
       prev_point <- item centerline_points (i - 1) ;;
       next_point <- item centerline_points (i + 1) ;;
       ret (vsub next_point prev_point)) ;;
  let direction_norm := norm direction in
  if ltb (of_Z 0) direction_norm then
    direction <- vdivide direction direction_norm ;;
    let perpendicular := (opp direction.2, direction.1) in
    let left_point := vadd current (vmul perpendicular offset_distance) in
    let right_point := vsub current (vmul perpendicular offset_distance) in
    ret (left_points ++ [left_point], right_points ++ [right_point])
  else ret (left_points, right_points).

(** The method. The pair it returns is the pair it stores in
    [self.left_border_points] and [self.right_border_points]. *)
Definition _manual_offset_calculation (self : HeatTrackGenerator)
    (offset_distance : num) : M HeatTrackGenerator :=
  borders <-
    for_each (range (Z.of_nat (length (centerline_points self))))
      (offset_point (centerline_points self) offset_distance) ([], []) ;;
  ret (set_borders self borders.1 borders.2).

(** *** [generate_track_borders] (lines 72-120) *)

(** shapely is not part of the repository: its [LineString] constructor
    and [parallel_offset] (with [join_style=2]) are parameters. *)
Variable geometry : Type.
Variable LineString : list Point -> exn + geometry.
Variable parallel_offset : geometry -> num -> side -> exn + offset_geometry num.

Definition lift {A} (r : exn + A) : M A := ([], r).

(** Lines 96-110: [list(offset.coords)], or the parts' coordinates in
    turn. *)
Definition coords_of (g : offset_geometry num) : list Point :=
  match g with
  | OffsetLine coords => coords
  | OffsetMulti geoms => concat geoms
  end.

Definition generate_track_borders (self : HeatTrackGenerator)
    : M HeatTrackGenerator :=
  match centerline_points self with
  | [] => raise (ValueError
                   "No centerline points available. Parse SVG first.")
  | _ =>
      centerline <- lift (LineString (centerline_points self)) ;;
      let offset_distance := div (track_width self) (of_Z 2) in
      try_except
        (left_offset <- lift (parallel_offset centerline offset_distance
                                side_left) ;;
         right_offset <- lift (parallel_offset centerline offset_distance
                                 side_right) ;;
         ret (set_borders self (coords_of left_offset)
                (coords_of right_offset)))
        (fun _ => _manual_offset_calculation self offset_distance)
  end.

End Borders.

(** ** The segment mutations of the web application (app.py) *)

(** What a handler answers: [jsonify({'success': True})], or an error
    message with its HTTP status. *)
Inductive response : Type :=
| success
| error (msg : string) (status : Z).

Section App.
Context {num : Type}.

Local Abbreviation Point := (Point num).
Local Abbreviation Segment := (Segment num).
Local Abbreviation HeatTrackGenerator := (HeatTrackGenerator num).

Definition set_center_point (s : Segment) (p : Point) : Segment :=
  mkSegment (segment_number s) p (line_start s) (line_end s) (distance s)
    (is_curve s) (speed_limit s).

Definition set_curve (s : Segment) (c : option bool) (l : option Z)
    : Segment :=
  mkSegment (segment_number s) (center_point s) (line_start s) (line_end s)
    (distance s) c l.

Definition with_segments (g : HeatTrackGenerator) (segs : list Segment)
    : HeatTrackGenerator :=
  mkGenerator (track_width g) (segment_length g) (centerline_points g)
    (left_border_points g) (right_border_points g) segs.

(** *** [update_segments] (lines 177-206) *)

(** Lines 196-201: find the segment with the given number, move its
    center, and [break]. *)
Fixpoint move_segment (segment_divisions : list Segment) (segment_id : Z)
    (new_position : Point) : list Segment :=
  match segment_divisions with
  | [] => []
  | segment :: rest =>
      if (segment_number segment =? segment_id)%Z
      then set_center_point segment new_position :: rest
      else segment :: move_segment rest segment_id new_position
  end.

(** Lines 191-201: the loop over the updates of the request, each an
    ['id'] and a ['position']. *)
Definition move_segments (segment_divisions : list Segment)
    (segments : list (Z * Point)) : list Segment :=
  fold_left
    (fun segment_divisions segment_update =>
       move_segment segment_divisions segment_update.1 segment_update.2)
    segments segment_divisions.

(** The handler, on the registry [track_generators] of the sessions. The
    segments are dicts shared with the registered generator, so the
    registry sees the change. *)
Definition update_segments
    (track_generators : gmap string HeatTrackGenerator)
    (session_id : string) (segments : list (Z * Point))
    : response * gmap string HeatTrackGenerator :=
  match track_generators !! session_id with
  | None => (error "Session not found" 400, track_generators)
  | Some generator =>
      (success,
       <[session_id :=
           with_segments generator
             (move_segments (segment_divisions generator) segments)]>
         track_generators)
  end.

(** *** [mark_curve] (lines 262-289) *)

(** Lines 279-284: what the loop does to one segment. *)
Definition mark_segment (start_segment end_segment limit : Z)
    (segment : Segment) : Segment :=
  let segment_num := segment_number segment in
  if (start_segment <=? segment_num)%Z && (segment_num <=? end_segment)%Z
  then set_curve segment (Some true) (Some limit)
  else set_curve segment (Some (default false (is_curve segment)))
         (speed_limit segment).

(** The handler; [speed_limit] is [data.get('speed_limit', 3)]. *)
Definition mark_curve
    (track_generators : gmap string HeatTrackGenerator)
    (session_id : string) (start_segment end_segment : Z)
    (speed_limit : option Z)
    : response * gmap string HeatTrackGenerator :=
  let speed_limit := default 3%Z speed_limit in
  match track_generators !! session_id with
  | None => (error "Session not found" 400, track_generators)
  | Some generator =>
      (success,
       <[session_id :=
           with_segments generator
             (map (mark_segment start_segment end_segment speed_limit)
                (segment_divisions generator))]>
         track_generators)
  end.

End App.

(** ** The functions the methods compute

    Each loop of the segmenter and of the fallback is characterised below
    by a function on lists; the proofs show that the method computes it,
    and the properties are derived from the function. *)

Section Functions.
Context {num : Type} {arith : Arith num}.

Local Abbreviation Point := (Point num).
Local Abbreviation Segment := (Segment num).
Local Abbreviation HeatTrackGenerator := (HeatTrackGenerator num).

(** The distances after [prev], whose own distance is [d]. *)
Fixpoint arc_lengths (prev : Point) (d : num) (rest : list Point)
    : list num :=
  match rest with
  | [] => []
  | curr :: rest' =>
      let d' := add d (norm (vsub curr prev)) in
      d' :: arc_lengths curr d' rest'
  end.

(** The table [distances] of a centerline. *)
Definition arc_table (points : list Point) : list num :=
  match points with
  | [] => [of_Z 0]
  | p :: rest => of_Z 0 :: arc_lengths p (of_Z 0) rest
  end.

(** The test of the scan at interval [j]. *)
Definition contains_target (distances : list num) (target : num) (j : nat)
    : bool :=
  match distances !! j, distances !! S j with
  | Some dj, Some dj1 => leb dj target && leb target dj1
  | _, _ => false
  end.

(** The interval the scan stops at, if any. *)
Definition interval_of (distances : list num) (target : num) : option nat :=
  List.find (contains_target distances target)
    (seq 0 (length distances - 1)).

(** The boundary appended for the index [i] at the interval [j], if the
    direction there has a length. *)
Definition boundary_at (self : HeatTrackGenerator) (distances : list num)
    (i : Z) (j : nat) : option Segment :=
  match distances !! j, distances !! S j,
        centerline_points self !! j, centerline_points self !! S j with
  | Some dj, Some dj1, Some p1, Some p2 =>
      let target_distance := mul (of_Z i) (segment_length self) in
      let t := div (sub target_distance dj) (sub dj1 dj) in
      let center_point := vadd p1 (smul t (vsub p2 p1)) in
      let direction_norm := norm (vsub p2 p1) in
      if ltb (of_Z 0) direction_norm then
        let direction := (div (vsub p2 p1).1 direction_norm,
                          div (vsub p2 p1).2 direction_norm) in
        let perpendicular := (opp direction.2, direction.1) in
        let half_width := div (track_width self) (of_Z 2) in
        Some (mkSegment i center_point
                (vsub center_point (vmul perpendicular half_width))
                (vadd center_point (vmul perpendicular half_width))
                target_distance None None)
      else None
  | _, _, _, _ => None
  end.

(** The warnings of the two divisions at the interval [j]. *)
Definition warnings_at (self : HeatTrackGenerator) (distances : list num)
    (j : nat) : list warning :=
  match distances !! j, distances !! S j,
        centerline_points self !! j, centerline_points self !! S j with
  | Some dj, Some dj1, Some p1, Some p2 =>
      (if is_zero (sub dj1 dj) then [RuntimeWarning_divide] else []) ++
      (if ltb (of_Z 0) (norm (vsub p2 p1)) then
         if is_zero (norm (vsub p2 p1)) then [RuntimeWarning_divide] else []
       else [])
  | _, _, _, _ => []
  end.

(** What one turn of the placement loop appends, and the warnings of that
    turn. *)
Definition placed_at (self : HeatTrackGenerator) (distances : list num)
    (i : Z) : option Segment :=
  match interval_of distances (mul (of_Z i) (segment_length self)) with
  | Some j => boundary_at self distances i j
  | None => None
  end.

Definition placement_warnings (self : HeatTrackGenerator)
    (distances : list num) (i : Z) : list warning :=
  match interval_of distances (mul (of_Z i) (segment_length self)) with
  | Some j => warnings_at self distances j
  | None => []
  end.

(** The outcome of the closed-loop check on the placed boundaries. *)
Definition trimmed (self : HeatTrackGenerator) (placed : list Segment)
    : list Segment :=
  match head (centerline_points self), last (centerline_points self),
        head placed, last placed with
  | Some first_point, Some last_point, Some first_segment, Some last_segment =>
      if ltb (norm (vsub last_point first_point)) (track_width self)
         && (1 <? length placed)%nat
         && ltb (norm (vsub (center_point last_segment)
                         (center_point first_segment)))
              (segment_length self)
      then removelast placed
      else placed
  | _, _, _, _ => placed
  end.

(** The direction the fallback estimates at index [i]. *)
Definition tangent (points : list Point) (i : nat) : option Point :=
  match i with
  | O =>
      current ← points !! O; next_point ← points !! 1%nat;
      Some (vsub next_point current)
  | S i' =>
      if (S i' =? length points - 1)%nat then
        current ← points !! i; prev_point ← points !! i';
        Some (vsub current prev_point)
      else
        prev_point ← points !! i'; next_point ← points !! S i;
        Some (vsub next_point prev_point)
  end.

(** The pair of border points the fallback emits at index [i], if any. *)
Definition border_pair (points : list Point) (offset_distance : num)
    (i : nat) : option (Point * Point) :=
  current ← points !! i;
  direction ← tangent points i;
  let direction_norm := norm direction in
  if ltb (of_Z 0) direction_norm then
    let direction := (div direction.1 direction_norm,
                      div direction.2 direction_norm) in
    let perpendicular := (opp direction.2, direction.1) in
    Some (vadd current (vmul perpendicular offset_distance),
          vsub current (vmul perpendicular offset_distance))
  else None.

(** The scalar product and the midpoint of two points. *)
Definition dot (p q : Point) : num := add (mul p.1 q.1) (mul p.2 q.2).

Definition midpoint (p q : Point) : Point :=
  (div (add p.1 q.1) (of_Z 2), div (add p.2 q.2) (of_Z 2)).

(** Whether two points are the same point. *)
Definition same_point (p q : Point) : bool :=
  is_zero (sub p.1 q.1) && is_zero (sub p.2 q.2).

(** Whether the direction estimated at index [i] is the zero vector. *)
Definition zero_tangent (points : list Point) (i : nat) : bool :=
  match tangent points i with
  | Some direction => is_zero direction.1 && is_zero direction.2
  | None => false
  end.

(** The indices at which the fallback emits border points. *)
Definition kept_indices (points : list Point) : list nat :=
  List.filter (fun i => negb (zero_tangent points i))
    (seq 0 (length points)).

(** Whether the point at index [i] repeats the sample before it or the
    sample after it. *)
Definition duplicate_adjacent (points : list Point) (i : nat) : bool :=
  match points !! i, points !! S i with
  | Some p, Some q => same_point p q
  | _, _ => false
  end
  || match i with
     | S i' =>
         match points !! i', points !! i with
         | Some p, Some q => same_point p q
         | _, _ => false
         end
     | O => false
     end.

(** The wording of the specification: the fallback completes, and the
    border points it omits are exactly those of the samples next to a
    repeated sample. *)
Definition omits_exactly_duplicate_adjacent (self : HeatTrackGenerator)
    (offset_distance : num) : Prop :=
  exists self',
    _manual_offset_calculation self offset_distance = ret self' /\
    length (left_border_points self')
    = length (List.filter
                (fun i => negb (duplicate_adjacent (centerline_points self) i))
                (seq 0 (length (centerline_points self)))).

End Functions.

(** ** Properties of segments *)

(** Two segments that agree on every key but ['center_point']. *)
Definition same_but_center {num : Type} (s s' : Segment num) : Prop :=
  segment_number s' = segment_number s /\
  line_start s' = line_start s /\
  line_end s' = line_end s /\
  distance s' = distance s /\
  is_curve s' = is_curve s /\
  speed_limit s' = speed_limit s.

(** Two segments that agree on every key but ['segment_number']. *)
Definition same_but_number {num : Type} (s s' : Segment num) : Prop :=
  center_point s' = center_point s /\
  line_start s' = line_start s /\
  line_end s' = line_end s /\
  distance s' = distance s /\
  is_curve s' = is_curve s /\
  speed_limit s' = speed_limit s.

(** ** Sample inputs *)

(** The straight centerline of length 800 of the specification's
    scenario, in binary64, and the segments Python computes for it. *)
Module Float64Samples.
Import PrimFloat.

Definition straight_track : HeatTrackGenerator float :=
  mkGenerator 200%float 400%float [(0, 0)%float; (800, 0)%float] [] [] [].

Definition straight_segments : list (Segment float) :=
  [mkSegment 1 (0, 0)%float (0, -100)%float (0, 100)%float 0%float
     None None;
   mkSegment 2 (400, 0)%float (400, -100)%float (400, 100)%float 400%float
     None None;
   mkSegment 3 (800, 0)%float (800, -100)%float (800, 100)%float 800%float
     None None].

(** A centerline whose first two samples coincide. *)
Definition repeated_start_track : HeatTrackGenerator float :=
  mkGenerator 200%float 1%float
    [(0, 0)%float; (0, 0)%float; (1, 0)%float] [] [] [].

(** A centerline of a single point, in binary64. *)
Definition single_point_track : HeatTrackGenerator float :=
  mkGenerator 200%float 400%float [(0, 0)%float] [] [] [].

(** A centerline shorter than one segment, in binary64. *)
Definition short_track : HeatTrackGenerator float :=
  mkGenerator 200%float 5%float [(0, 0)%float; (1, 0)%float] [] [] [].

(** The centerline with a repeated interior sample, in binary64. *)
Definition repeated_interior_track : HeatTrackGenerator float :=
  mkGenerator 2%float 400%float
    [(0, 0)%float; (1, 0)%float; (1, 0)%float; (2, 0)%float] [] [] [].

(** The segment Python returns for [repeated_start_track]. *)
Definition repeated_start_segments : list (Segment float) :=
  [mkSegment 1 (1, 0)%float (1, -100)%float (1, 100)%float 1%float
     None None].

(** The registry of the web application after that run, under the first
    session identifier. *)
Definition sample_generator : HeatTrackGenerator float :=
  mkGenerator 200%float 400%float [(0, 0)%float; (800, 0)%float] [] []
    straight_segments.

Definition sample_sessions : gmap string (HeatTrackGenerator float) :=
  {[ "session_0"%string := sample_generator ]}.

(** A position a user drags the second segment to. *)
Definition dragged_position : Point float := (410, 5)%float.

End Float64Samples.

(** The same kind of inputs in exact arithmetic. *)
Module ExactSamples.
Local Open Scope R_scope.

(** A centerline of a single point. *)
Definition single_point_track : HeatTrackGenerator R :=
  mkGenerator 200 400 [(0, 0)] [] [] [].

(** A centerline shorter than one segment: length 1, segments of 5. *)
Definition short_track : HeatTrackGenerator R :=
  mkGenerator 200 5 [(0, 0); (1, 0)] [] [] [].

(** A centerline whose first two samples coincide. *)
Definition repeated_start_track : HeatTrackGenerator R :=
  mkGenerator 200 1 [(0, 0); (0, 0); (1, 0)] [] [] [].

(** A centerline with a repeated interior sample. *)
Definition repeated_interior_track : HeatTrackGenerator R :=
  mkGenerator 2 400 [(0, 0); (1, 0); (1, 0); (2, 0)] [] [] [].

(** A straight centerline of two distinct points. *)
Definition unit_track : HeatTrackGenerator R :=
  mkGenerator 2 1 [(0, 0); (1, 0)] [] [] [].

End ExactSamples.

(** The vector product of two plane vectors: positive when the second
    points to the left of the first. *)
Definition cross {num : Type} {arith : Arith num} (p q : Point num) : num :=
  sub (mul p.1 q.2) (mul p.2 q.1).

(** ** [parse_svg_centerline] (main.py, lines 33-70) *)

Section Parser.
Context {num : Type} {arith : Arith num}.

Local Abbreviation Point := (Point num).
Local Abbreviation HeatTrackGenerator := (HeatTrackGenerator num).

(** svgpathtools is not part of the repository: the type of its paths,
    [svg2paths] (of whose result only the list of paths is used) and
    [Path.point], whose complex value is read as the pair of its [real] and
    [imag] parts, are parameters. Both calls may raise. *)
Variable path : Type.
Variable svg2paths : string -> exn + list path.
Variable point : path -> num -> exn + Point.

Definition set_centerline_points (self : HeatTrackGenerator)
    (points : list Point) : HeatTrackGenerator :=
  mkGenerator (track_width self) (segment_length self) points
    (left_border_points self) (right_border_points self)
    (segment_divisions self).

(** Line 57. *)
Definition num_samples : Z := 1000.

(** Lines 59-62: one turn of the sampling loop. *)
Definition sample_point (centerline_path : path) (points : list Point)
    (i : Z) : M (list Point) :=
  let t := div (of_Z i) (of_Z num_samples) in
  point_ <- lift (point centerline_path t) ;;
  ret (points ++ [point_]).

(** The method. The list it returns is the list it stores in
    [self.centerline_points]; the handler of an exception prints and
    raises it again. *)
Definition parse_svg_centerline (self : HeatTrackGenerator)
    (svg_file_path : string) : M HeatTrackGenerator :=
  try_except
    (paths <- lift (svg2paths svg_file_path) ;;
     match paths with
     | [] => raise (ValueError "No paths found in SVG file")
     | centerline_path :: _ =>
         points <- for_each (range (num_samples + 1))
                     (sample_point centerline_path) [] ;;
         ret (set_centerline_points self points)
     end)
    (fun e => raise e).

End Parser.

(** ** The handler [generate_track] (app.py, lines 128-175) *)

(** The dict [track_data] of the answer. *)
Module TrackData.
Record t (num : Type) : Type := mk {
  centerline : list (Point num);
  left_border : list (Point num);
  right_border : list (Point num);
  segments : list (Segment num);
  track_width : num;
  segment_length : num
}.
End TrackData.

(** What the handler answers: the track and the session, an error message
    with its status, or [jsonify({'error': str(e)}), 500] for an exception
    [e]. *)
Inductive generate_response (num : Type) : Type :=
| generated (track_data : TrackData.t num) (session_id : string)
| rejected (msg : string) (status : Z)
| failed (e : exn).

Arguments generated {num} _ _.
Arguments rejected {num} _ _.
Arguments failed {num} _.

Section GenerateTrack.
Context {num : Type} {arith : Arith num}.

Local Abbreviation Point := (Point num).
Local Abbreviation HeatTrackGenerator := (HeatTrackGenerator num).

Variable path : Type.
Variable svg2paths : string -> exn + list path.
Variable point : path -> num -> exn + Point.
Variable geometry : Type.
Variable LineString : list Point -> exn + geometry.
Variable parallel_offset : geometry -> num -> side -> exn + offset_geometry num.

(** [os.path.join] and [os.path.exists]. *)
Variable join : string -> string -> string.
Variable exists_ : string -> bool.

Definition UPLOAD_FOLDER : string := "uploads".

(** Lines 148-150: the three steps on the new generator. What they print
    and warn about is not part of the answer. *)
Definition generate (generator : HeatTrackGenerator) (svg_path : string)
    : M HeatTrackGenerator :=
  generator <- parse_svg_centerline svg2paths point generator svg_path ;;
  generator <- generate_track_borders LineString parallel_offset generator ;;
  divide_track_into_segments generator.

(** The handler, on the registry [track_generators]. The request carries
    ['session_id'], and may carry ['filename'], ['track_width'] and
    ['segment_length'], the last two as numbers. [save_track_data] writes
    a file and swallows its own exceptions: it has no part in the answer
    or in the registry. *)
Definition generate_track
    (track_generators : gmap string HeatTrackGenerator)
    (session_id : string) (filename : option string)
    (track_width segment_length : option num)
    : generate_response num * gmap string HeatTrackGenerator :=
  let track_width := default (of_Z 200) track_width in
  let segment_length := default (of_Z 400) segment_length in
  let svg_path :=
    match filename with
    | Some filename =>
        if bool_decide (filename = EmptyString) then None
        else Some (join UPLOAD_FOLDER filename)
    | None => None
    end in
  match svg_path with
  | None => (rejected "SVG file not found" 400, track_generators)
  | Some svg_path =>
      if negb (exists_ svg_path)
      then (rejected "SVG file not found" 400, track_generators)
      else
        let generator := init track_width segment_length in
        match outcome (generate generator svg_path) with
        | inl e => (failed e, track_generators)
        | inr generator =>
            let track_data :=
              TrackData.mk (centerline_points generator)
                (left_border_points generator)
                (right_border_points generator)
                (segment_divisions generator) track_width segment_length in
            (generated track_data session_id,
             <[session_id := generator]> track_generators)
        end
  end.

End GenerateTrack.

(** The position of the last update of a request that names the segment
    [segment_id]. *)
Definition last_position {num : Type} (segments : list (Z * Point num))
    (segment_id : Z) : option (Point num) :=
  snd <$> last (filter (fun u => u.1 = segment_id) segments).

(** * Proofs *)

Unset Implicit Arguments.

(** ** The execution monad *)

Lemma bind_ret {A B} (a : A) (k : A -> M B) : bind (ret a) k = k a.
Proof. unfold bind, ret. destruct (k a) as [ws r]. reflexivity. Qed.

Lemma bind_raise {A B} (e : exn) (k : A -> M B) : bind (raise e) k = raise e.
Proof. reflexivity. Qed.

Lemma bind_run {A B} {m : M A} (k : A -> M B) {ws a} :
  m = (ws, inr a) -> bind m k = (ws ++ warnings (k a), outcome (k a)).
Proof. intros ->. unfold bind, warnings, outcome. destruct (k a). reflexivity. Qed.

Lemma bind_inv {A B} {m : M A} {k : A -> M B} {ws b} :
  bind m k = (ws, inr b) ->
  exists ws1 a ws2, m = (ws1, inr a) /\ k a = (ws2, inr b) /\ ws = ws1 ++ ws2.
Proof.
  destruct m as [ws1 [e | a]]; simpl; [discriminate |].
  destruct (k a) as [ws2 r] eqn:Hk. intros [= <- ->].
  exists ws1, a, ws2. auto.
Qed.

(** ** Python lists *)

Lemma item_nat {A} (l : list A) (n : nat) (x : A) :
  l !! n = Some x -> item l (Z.of_nat n) = ret x.
Proof.
  intros Hx. unfold item.
  destruct (Z.of_nat n <? 0)%Z eqn:Hn; [apply Z.ltb_lt in Hn; lia |].
  rewrite Hn, Nat2Z.id, Hx. reflexivity.
Qed.

Lemma item_Z {A} (l : list A) (i : Z) (x : A) :
  (0 <= i)%Z -> l !! Z.to_nat i = Some x -> item l i = ret x.
Proof.
  intros Hi Hx. rewrite <- (Z2Nat.id i Hi). apply item_nat. assumption.
Qed.

Lemma item_last {A} (l : list A) (x : A) :
  last l = Some x -> item l (-1) = ret x.
Proof.
  intros Hx. unfold item. simpl.
  assert (Hlen : (0 < length l)%nat).
  { destruct l; [discriminate | simpl; lia]. }
  destruct (Z.of_nat (length l) + -1 <? 0)%Z eqn:Hn;
    [apply Z.ltb_lt in Hn; lia |].
  rewrite last_lookup in Hx.
  replace (Z.to_nat (Z.of_nat (length l) + -1)) with (pred (length l)) by lia.
  rewrite Hx. reflexivity.
Qed.

Lemma range_succ (n : nat) :
  range (Z.of_nat (S n)) = range (Z.of_nat n) ++ [Z.of_nat n].
Proof.
  unfold range. rewrite seqZ_S. reflexivity.
Qed.


(** ** The methods compute the functions *)

Section Runs.
Context {num : Type} {arith : Arith num}.

Local Abbreviation Point := (Point num).
Local Abbreviation Segment := (Segment num).
Local Abbreviation HeatTrackGenerator := (HeatTrackGenerator num).

(** A loop whose body never raises, and whose warnings do not depend on
    the state, runs to its end. *)
Lemma for_each_run {A S} (body : S -> A -> M S) (step : S -> A -> S)
    (ws : A -> list warning) (xs : list A) (s : S) :
  (forall s x, x ∈ xs -> body s x = (ws x, inr (step s x))) ->
  for_each xs body s = (flat_map ws xs, inr (fold_left step xs s)).
Proof.
  revert s. induction xs as [| x xs IH]; intros s Hbody; simpl.
  - reflexivity.
  - rewrite (bind_run _ (Hbody s x ltac:(left))).
    rewrite IH; [reflexivity |].
    intros s' y Hy. apply Hbody. right. assumption.
Qed.

Lemma omap_head {A B} (f : A -> option B) (x : A) (l : list A) :
  omap f (x :: l)
  = match f x with Some y => y :: omap f l | None => omap f l end.
Proof. reflexivity. Qed.

Lemma fold_left_append {A B} (f : A -> option B) (xs : list A) (s : list B) :
  fold_left (fun s x => s ++ option_list (f x)) xs s = s ++ omap f xs.
Proof.
  revert s. induction xs as [| x xs IH]; intros s; simpl.
  - rewrite app_nil_r. reflexivity.
  - rewrite IH. destruct (f x); simpl; [| rewrite app_nil_r; reflexivity].
    rewrite <- app_assoc. reflexivity.
Qed.

(** *** The arc-length table *)

Lemma length_arc_lengths (prev : Point) (d : num) (rest : list Point) :
  length (arc_lengths prev d rest) = length rest.
Proof.
  revert prev d. induction rest as [| c rest IH]; intros; simpl; auto.
Qed.

Lemma length_arc_table (points : list Point) :
  points <> [] -> length (arc_table points) = length points.
Proof.
  destruct points; [congruence |]. intros _. simpl.
  rewrite length_arc_lengths. reflexivity.
Qed.

Lemma distances_loop (points : list Point) (rest pre : list Point)
    (prev : Point) (ds : list num) (d : num) :
  points = pre ++ prev :: rest ->
  last ds = Some d ->
  for_each (seqZ (Z.of_nat (length pre) + 1) (Z.of_nat (length rest)))
    (fun distances i =>
       prev <- item points (i - 1) ;;
       curr <- item points i ;;
       let dist := norm (vsub curr prev) in
       d <- item distances (-1) ;;
       ret (distances ++ [add d dist]))
    ds
  = ret (ds ++ arc_lengths prev d rest).
Proof.
  revert pre prev ds d.
  induction rest as [| curr rest IH]; intros pre prev ds d Hpts Hlast.
  - simpl. rewrite app_nil_r. reflexivity.
  - rewrite seqZ_cons by (simpl; lia).
    cbn [for_each].
    replace (Z.of_nat (length pre) + 1 - 1)%Z with (Z.of_nat (length pre))
      by lia.
    rewrite (item_nat points (length pre) prev), bind_ret.
    2:{ rewrite Hpts. apply list_lookup_middle. reflexivity. }
    replace (Z.of_nat (length pre) + 1)%Z
      with (Z.of_nat (length (pre ++ [prev]))).
    2:{ rewrite length_app. simpl. lia. }
    rewrite (item_nat points (length (pre ++ [prev])) curr), bind_ret.
    2:{ rewrite Hpts.
        replace (pre ++ prev :: curr :: rest)
          with ((pre ++ [prev]) ++ curr :: rest)
          by (rewrite <- app_assoc; reflexivity).
        apply list_lookup_middle. reflexivity. }
    rewrite (item_last ds d Hlast), bind_ret, bind_ret.
    replace (Z.succ (Z.of_nat (length (pre ++ [prev]))))
      with (Z.of_nat (length (pre ++ [prev])) + 1)%Z by lia.
    replace (Z.pred (Z.of_nat (length (curr :: rest))))
      with (Z.of_nat (length rest)) by (simpl; lia).
    rewrite (IH (pre ++ [prev]) curr _ (add d (norm (vsub curr prev)))).
    + simpl. rewrite <- app_assoc. reflexivity.
    + rewrite Hpts, <- app_assoc. reflexivity.
    + apply last_snoc.
Qed.

Lemma cumulative_distances_run (points : list Point) :
  points <> [] -> cumulative_distances points = ret (arc_table points).
Proof.
  destruct points as [| p rest]; [congruence |]. intros _.
  unfold cumulative_distances.
  replace (Z.of_nat (length (p :: rest)) - 1)%Z with (Z.of_nat (length rest))
    by (simpl; lia).
  apply (distances_loop (p :: rest) rest [] p [of_Z 0] (of_Z 0));
    reflexivity.
Qed.

(** *** The placement loop *)

Lemma interpolate_run (self : HeatTrackGenerator) (ds : list num) (i : Z)
    (j : nat) (segs : list Segment) (dj dj1 : num) (p1 p2 : Point) :
  ds !! j = Some dj -> ds !! S j = Some dj1 ->
  centerline_points self !! j = Some p1 ->
  centerline_points self !! S j = Some p2 ->
  interpolate self ds i (mul (of_Z i) (segment_length self)) (Z.of_nat j) segs
  = (warnings_at self ds j,
     inr (segs ++ option_list (boundary_at self ds i j))).
Proof.
  intros Hdj Hdj1 Hp1 Hp2.
  unfold interpolate, warnings_at, boundary_at.
  replace (Z.of_nat j + 1)%Z with (Z.of_nat (S j)) by lia.
  rewrite (item_nat _ _ _ Hdj), bind_ret, (item_nat _ _ _ Hdj1), bind_ret.
  rewrite Hdj, Hdj1, Hp1, Hp2.
  unfold divide, vdivide.
  destruct (is_zero (sub dj1 dj)); simpl;
    rewrite (item_nat _ _ _ Hp1), (item_nat _ _ _ Hp2); simpl;
    destruct (ltb (of_Z 0) (norm (vsub p2 p1))); simpl;
    try destruct (is_zero (norm (vsub p2 p1))); simpl;
    rewrite ?app_nil_r; reflexivity.
Qed.

Lemma scan_run (self : HeatTrackGenerator) (ds : list num) (i : Z)
    (segs : list Segment) (n k : nat) :
  length ds = length (centerline_points self) ->
  (k + n <= length ds - 1)%nat ->
  let target := mul (of_Z i) (segment_length self) in
  scan_intervals self ds i target (seqZ (Z.of_nat k) (Z.of_nat n)) segs
  = match List.find (contains_target ds target) (seq k n) with
    | Some j => (warnings_at self ds j,
                 inr (segs ++ option_list (boundary_at self ds i j)))
    | None => ret segs
    end.
Proof.
  intros Hlen. revert k. induction n as [| n IH]; intros k Hk target.
  - reflexivity.
  - rewrite seqZ_cons by lia. cbn [scan_intervals seq List.find].
    destruct (lookup_lt_is_Some_2 ds k ltac:(lia)) as [dj Hdj].
    destruct (lookup_lt_is_Some_2 ds (S k) ltac:(lia)) as [dj1 Hdj1].
    destruct (lookup_lt_is_Some_2 (centerline_points self) k ltac:(lia))
      as [p1 Hp1].
    destruct (lookup_lt_is_Some_2 (centerline_points self) (S k) ltac:(lia))
      as [p2 Hp2].
    rewrite (item_nat _ _ _ Hdj), bind_ret.
    replace (Z.of_nat k + 1)%Z with (Z.of_nat (S k)) by lia.
    rewrite (item_nat _ _ _ Hdj1), bind_ret.
    unfold contains_target at 1. rewrite Hdj, Hdj1.
    fold target.
    destruct (leb dj target && leb target dj1).
    + apply (interpolate_run self ds i k segs dj dj1 p1 p2); assumption.
    + replace (Z.succ (Z.of_nat k)) with (Z.of_nat (S k)) by lia.
      replace (Z.pred (Z.of_nat (S n))) with (Z.of_nat n) by lia.
      apply IH. lia.
Qed.

Lemma place_boundaries_run (self : HeatTrackGenerator) (ds : list num)
    (n : Z) :
  length ds = length (centerline_points self) ->
  place_boundaries self ds n
  = (flat_map (placement_warnings self ds) (range (n + 1)),
     inr (omap (placed_at self ds) (range (n + 1)))).
Proof.
  intros Hlen. unfold place_boundaries.
  rewrite (for_each_run _
             (fun segs i => segs ++ option_list (placed_at self ds i))
             (placement_warnings self ds)).
  - rewrite fold_left_append. reflexivity.
  - intros segs i _. unfold range.
    destruct ds as [| d0 ds'] eqn:Hds.
    { simpl. rewrite app_nil_r. reflexivity. }
    rewrite <- Hds in *.
    replace (Z.of_nat (length ds) - 1)%Z with (Z.of_nat (length ds - 1))
      by (rewrite Hds; simpl; lia).
    change (seqZ 0) with (seqZ (Z.of_nat 0)).
    rewrite (scan_run self ds i segs (length ds - 1) 0 Hlen) by lia.
    unfold placement_warnings, placed_at, interval_of.
    destruct (List.find _ _); [reflexivity |].
    simpl. rewrite app_nil_r. reflexivity.
Qed.

(** *** The closed-loop check *)

Lemma closed_loop_trim_run (self : HeatTrackGenerator)
    (segs : list Segment) :
  closed_loop_trim self segs = ret (trimmed self segs).
Proof.
  unfold closed_loop_trim, trimmed.
  destruct (centerline_points self) as [| p0 pts] eqn:Hpts; [reflexivity |].
  cbn [length Nat.ltb Nat.leb].
  destruct (last_is_Some (p0 :: pts)) as [_ Hl].
  destruct (Hl ltac:(discriminate)) as [pl Hpl].
  rewrite (item_Z (p0 :: pts) 0 p0 ltac:(lia) eq_refl), bind_ret.
  rewrite (item_last _ _ Hpl), bind_ret. rewrite Hpl. cbn [head].
  destruct segs as [| s0 [| s1 segs]].
  - rewrite andb_false_r. reflexivity.
  - rewrite andb_false_r. reflexivity.
  - destruct (last_is_Some (s0 :: s1 :: segs)) as [_ Hl'].
    destruct (Hl' ltac:(discriminate)) as [sl Hsl].
    rewrite Hsl. cbn [head length Nat.ltb Nat.leb]. rewrite andb_true_r.
    destruct (ltb _ (track_width self)); [| reflexivity].
    cbn [andb].
    rewrite (item_last _ _ Hsl), bind_ret.
    rewrite (item_Z (s0 :: s1 :: segs) 0 s0 ltac:(lia) eq_refl), bind_ret.
    destruct (ltb _ (segment_length self)); reflexivity.
Qed.

Lemma trimmed_cases (self : HeatTrackGenerator) (placed : list Segment) :
  trimmed self placed = removelast placed \/ trimmed self placed = placed.
Proof.
  unfold trimmed.
  destruct (head (centerline_points self)), (last (centerline_points self)),
    (head placed), (last placed); auto.
  destruct (_ && _); auto.
Qed.

(** *** The method *)

Lemma divide_track_into_segments_run (self : HeatTrackGenerator) :
  centerline_points self <> [] ->
  let ds := arc_table (centerline_points self) in
  divide_track_into_segments self
  = (n <- count_segments self ds ;;
     (flat_map (placement_warnings self ds) (range (n + 1)),
      inr (set_segment_divisions self
             (renumber (trimmed self
                          (omap (placed_at self ds) (range (n + 1)))))))).
Proof.
  intros Hne ds. unfold divide_track_into_segments.
  destruct (centerline_points self) as [| p0 pts] eqn:Hpts; [congruence |].
  rewrite cumulative_distances_run by discriminate. rewrite bind_ret.
  fold ds.
  assert (Hk : forall n,
    (segment_divisions <- place_boundaries self ds n ;;
     segment_divisions0 <- closed_loop_trim self segment_divisions ;;
     ret (set_segment_divisions self (renumber segment_divisions0)))
    = (flat_map (placement_warnings self ds) (range (n + 1)),
       inr (set_segment_divisions self
              (renumber (trimmed self
                           (omap (placed_at self ds) (range (n + 1)))))))).
  { intros n. rewrite place_boundaries_run.
    2:{ unfold ds. rewrite length_arc_table, Hpts; [reflexivity | discriminate]. }
    simpl. rewrite closed_loop_trim_run. simpl. rewrite app_nil_r.
    reflexivity. }
  destruct (count_segments self ds) as [w [e | n]]; [reflexivity |].
  rewrite !(@bind_run _ _ (w, inr n) _ w n eq_refl). cbv beta.
  rewrite Hk. reflexivity.
Qed.

(** *** Consecutive entries of the table *)

Lemma arc_lengths_step (rest : list Point) (prev : Point) (d : num) (j : nat)
    (a b : num) (p q : Point) :
  (d :: arc_lengths prev d rest) !! j = Some a ->
  (d :: arc_lengths prev d rest) !! S j = Some b ->
  (prev :: rest) !! j = Some p ->
  (prev :: rest) !! S j = Some q ->
  b = add a (norm (vsub q p)).
Proof.
  revert prev d j. induction rest as [| c rest IH]; intros prev d j Ha Hb Hp Hq.
  - destruct j; discriminate.
  - destruct j as [| j].
    + simpl in *. congruence.
    + simpl in Ha, Hb, Hp, Hq. eapply IH; eassumption.
Qed.

Lemma arc_table_step (points : list Point) (j : nat) (a b : num)
    (p q : Point) :
  arc_table points !! j = Some a -> arc_table points !! S j = Some b ->
  points !! j = Some p -> points !! S j = Some q ->
  b = add a (norm (vsub q p)).
Proof.
  destruct points as [| p0 rest]; [discriminate |]. apply arc_lengths_step.
Qed.

Lemma arc_table_head (points : list Point) :
  arc_table points !! 0%nat = Some (of_Z 0).
Proof. destruct points; reflexivity. Qed.

(** *** The first index of a range that passes a test *)

Lemma find_seq_first (P : nat -> bool) (n k j : nat) :
  List.find P (seq k n) = Some j ->
  P j = true /\ (k <= j < k + n)%nat /\
  forall j', (k <= j' < j)%nat -> P j' = false.
Proof.
  revert k. induction n as [| n IH]; intros k; simpl; [discriminate |].
  destruct (P k) eqn:Hk.
  - intros [= <-]. repeat split; auto; lia.
  - intros Hf. destruct (IH _ Hf) as (Hj & Hr & Hmin).
    repeat split; auto; try lia.
    intros j' Hj'. destruct (decide (j' = k)) as [-> | Hne]; [assumption |].
    apply Hmin. lia.
Qed.

Lemma find_seq_exists (P : nat -> bool) (n k j : nat) :
  (k <= j < k + n)%nat -> P j = true ->
  exists j0, List.find P (seq k n) = Some j0.
Proof.
  intros Hr Hj. destruct (List.find P (seq k n)) as [j0 |] eqn:Hf; [eauto |].
  exfalso. pose proof (find_none _ _ Hf j) as Hn.
  rewrite Hn in Hj; [discriminate |]. apply in_seq. lia.
Qed.

(** *** Renumbering *)

Lemma renumber_numbers_from (l : list Segment) (k : nat) :
  segment_number <$>
    imap (fun i segment =>
            set_segment_number segment (Z.of_nat (k + i) + 1)) l
  = seqZ (Z.of_nat k + 1) (Z.of_nat (length l)).
Proof.
  revert k. induction l as [| s l IH]; intros k; [reflexivity |].
  rewrite imap_cons, fmap_cons.
  rewrite seqZ_cons by (rewrite length_cons; lia).
  f_equal.
  - cbn [segment_number set_segment_number]. lia.
  - replace (Z.succ (Z.of_nat k + 1)) with (Z.of_nat (S k) + 1)%Z by lia.
    replace (Z.pred (Z.of_nat (length (s :: l))))
      with (Z.of_nat (length l)) by (rewrite length_cons; lia).
    rewrite <- IH. f_equal. apply imap_ext. intros i x _.
    unfold compose. f_equal. lia.
Qed.

Lemma renumber_numbers (l : list Segment) :
  segment_number <$> renumber l = seqZ 1 (Z.of_nat (length l)).
Proof. exact (renumber_numbers_from l 0). Qed.

Lemma length_renumber (l : list Segment) : length (renumber l) = length l.
Proof. apply length_imap. Qed.

Lemma renumber_same_but_number (l : list Segment) :
  Forall2 same_but_number l (renumber l).
Proof.
  apply Forall2_same_length_lookup_2; [symmetry; apply length_renumber |].
  intros k s s' Hs Hs'. unfold renumber in Hs'.
  rewrite list_lookup_imap, Hs in Hs'. simpl in Hs'. injection Hs' as <-.
  repeat split.
Qed.

(** *** What a successful run returns *)

Lemma divide_track_into_segments_inv (self self' : HeatTrackGenerator)
    (ws : list warning) :
  divide_track_into_segments self = (ws, inr self') ->
  exists distances num_segments placed ws0 ws1,
    cumulative_distances (centerline_points self) = ret distances /\
    count_segments self distances = (ws0, inr num_segments) /\
    place_boundaries self distances num_segments = (ws1, inr placed) /\
    ws = ws0 ++ ws1 /\
    self' = set_segment_divisions self (renumber (trimmed self placed)).
Proof.
  intros Hrun.
  assert (Hne : centerline_points self <> []).
  { intros Hnil. unfold divide_track_into_segments in Hrun.
    rewrite Hnil in Hrun. discriminate. }
  rewrite divide_track_into_segments_run in Hrun by assumption.
  apply bind_inv in Hrun as (ws0 & n & ws1 & Hcount & Hrest & ->).
  injection Hrest as <- <-.
  exists (arc_table (centerline_points self)), n. do 3 eexists.
  split; [apply cumulative_distances_run; assumption |].
  split; [exact Hcount |].
  split; [| split; reflexivity].
  apply place_boundaries_run. apply length_arc_table. assumption.
Qed.

(** C7. Whatever sequence [divide_track_into_segments] returns, trimmed or
    not and whatever boundaries were skipped, its segment numbers are
    1, 2, ..., count in order. *)
Theorem segment_numbers_run_from_one_to_count
    (self self' : HeatTrackGenerator) (ws : list warning) :
  divide_track_into_segments self = (ws, inr self') ->
  segment_number <$> segment_divisions self'
  = seqZ 1 (Z.of_nat (length (segment_divisions self'))).
Proof.
  intros Hrun.
  apply divide_track_into_segments_inv in Hrun
    as (ds & n & placed & ws0 & ws1 & _ & _ & _ & _ & ->).
  cbn [segment_divisions set_segment_divisions].
  rewrite length_renumber. apply renumber_numbers.
Qed.

(** *** Where a returned segment comes from *)

Lemma elem_of_trimmed (self : HeatTrackGenerator) (placed : list Segment)
    (s : Segment) :
  s ∈ trimmed self placed -> s ∈ placed.
Proof.
  destruct (trimmed_cases self placed) as [-> | ->]; [| auto].
  rewrite removelast_firstn_len. intros H.
  apply elem_of_take in H as (i & Hi & _).
  eapply list_elem_of_lookup_2. eassumption.
Qed.

Lemma elem_of_renumber (l : list Segment) (s : Segment) :
  s ∈ renumber l -> exists s0, s0 ∈ l /\ same_but_number s0 s.
Proof.
  intros H. apply list_elem_of_lookup_1 in H as [k Hk].
  unfold renumber in Hk. rewrite list_lookup_imap in Hk.
  destruct (l !! k) as [s0 |] eqn:Hs0; [| discriminate].
  simpl in Hk. injection Hk as <-.
  exists s0. split; [eapply list_elem_of_lookup_2; eassumption |].
  repeat split.
Qed.

End Runs.

(** The binary64 run on the straight centerline of length 800: three
    boundaries, at the arc distances 0, 400 and 800, numbered 1 to 3. *)
Lemma segment_numbers_run_from_one_to_count_witness :
  divide_track_into_segments Float64Samples.straight_track
  = ([], inr (set_segment_divisions Float64Samples.straight_track
                Float64Samples.straight_segments)) /\
  segment_number <$> Float64Samples.straight_segments = seqZ 1 3.
Proof.
  assert (H : divide_track_into_segments Float64Samples.straight_track
              = ([], inr (set_segment_divisions Float64Samples.straight_track
                            Float64Samples.straight_segments)))
    by (vm_compute; reflexivity).
  split; [exact H |].
  exact (segment_numbers_run_from_one_to_count _ _ _ H).
Defined.

(** ** The fallback computes [border_pair] *)

Section FallbackRuns.
Context {num : Type} {arith : Arith num}.

Local Abbreviation Point := (Point num).
Local Abbreviation HeatTrackGenerator := (HeatTrackGenerator num).

(** The one law of the arithmetic the fallback relies on: a number above
    zero is not zero. *)
Hypothesis positive_nonzero :
  forall x : num, ltb (of_Z 0) x = true -> is_zero x = false.

Lemma tangent_is_Some (points : list Point) (i : nat) :
  (2 <= length points)%nat -> (i < length points)%nat ->
  is_Some (tangent points i).
Proof.
  intros Hlen Hi. unfold tangent. destruct i as [| i'].
  - destruct points as [| p0 [| p1 rest]]; simpl in *; try lia. eauto.
  - destruct (S i' =? length points - 1)%nat eqn:Hlast.
    + destruct (lookup_lt_is_Some_2 points (S i') ltac:(lia)) as [c ->].
      destruct (lookup_lt_is_Some_2 points i' ltac:(lia)) as [p ->].
      simpl. eauto.
    + apply Nat.eqb_neq in Hlast.
      destruct (lookup_lt_is_Some_2 points i' ltac:(lia)) as [p ->].
      destruct (lookup_lt_is_Some_2 points (S (S i')) ltac:(lia)) as [q ->].
      simpl. eauto.
Qed.

Local Ltac by_eqb :=
  repeat match goal with
         | H : (_ =? _)%Z = true |- _ => apply Z.eqb_eq in H
         | H : (_ =? _)%Z = false |- _ => apply Z.eqb_neq in H
         end;
  lia.

Lemma offset_point_direction (points : list Point) (i : nat)
    (current direction : Point) :
  points !! i = Some current -> tangent points i = Some direction ->
  (if (Z.of_nat i =? 0)%Z then
     next_point <- item points (Z.of_nat i + 1) ;;
     ret (vsub next_point current)
   else if (Z.of_nat i =? Z.of_nat (length points) - 1)%Z then
     prev_point <- item points (Z.of_nat i - 1) ;;
     ret (vsub current prev_point)
   else
     prev_point <- item points (Z.of_nat i - 1) ;;
     next_point <- item points (Z.of_nat i + 1) ;;
     ret (vsub next_point prev_point))
  = ret direction.
Proof.
  intros Hc Ht. unfold tangent in Ht. destruct i as [| i'].
  - rewrite Hc in Ht. simpl in Ht.
    destruct (points !! 1%nat) as [q |] eqn:Hq; [| discriminate].
    simpl in Ht. injection Ht as <-.
    change (Z.of_nat 0 + 1)%Z with (Z.of_nat 1).
    rewrite (item_nat _ _ _ Hq). reflexivity.
  - destruct (Z.of_nat (S i') =? 0)%Z eqn:H0; [by_eqb |].
    assert (Hlen : (S i' < length points)%nat).
    { apply lookup_lt_is_Some_1. eauto. }
    replace (Z.of_nat (S i') - 1)%Z with (Z.of_nat i') by lia.
    replace (Z.of_nat (S i') + 1)%Z with (Z.of_nat (S (S i'))) by lia.
    destruct (S i' =? length points - 1)%nat eqn:Hlast.
    + apply Nat.eqb_eq in Hlast.
      destruct (Z.of_nat (S i') =? Z.of_nat (length points) - 1)%Z eqn:Hz;
        [| by_eqb].
      rewrite Hc in Ht. simpl in Ht.
      destruct (points !! i') as [p |] eqn:Hp; [| discriminate].
      simpl in Ht. injection Ht as <-.
      rewrite (item_nat _ _ _ Hp). reflexivity.
    + apply Nat.eqb_neq in Hlast.
      destruct (Z.of_nat (S i') =? Z.of_nat (length points) - 1)%Z eqn:Hz;
        [by_eqb |].
      destruct (points !! i') as [p |] eqn:Hp; [| discriminate].
      simpl in Ht.
      destruct (points !! S (S i')) as [q |] eqn:Hq; [| discriminate].
      simpl in Ht. injection Ht as <-.
      rewrite (item_nat _ _ _ Hp), bind_ret, (item_nat _ _ _ Hq).
      reflexivity.
Qed.

Lemma offset_point_run (points : list Point) (offset_distance : num)
    (borders : list Point * list Point) (i : nat) :
  (2 <= length points)%nat -> (i < length points)%nat ->
  offset_point points offset_distance borders (Z.of_nat i)
  = ret (borders.1
           ++ option_list (fst <$> border_pair points offset_distance i),
         borders.2
           ++ option_list (snd <$> border_pair points offset_distance i)).
Proof.
  intros Hlen Hi. destruct borders as [l r].
  destruct (lookup_lt_is_Some_2 points i Hi) as [current Hc].
  destruct (tangent_is_Some points i Hlen Hi) as [direction Ht].
  unfold offset_point, border_pair.
  rewrite (item_nat _ _ _ Hc), bind_ret.
  rewrite (offset_point_direction points i current direction Hc Ht), bind_ret.
  rewrite Hc, Ht. simpl.
  destruct (ltb (of_Z 0) (norm direction)) eqn:Hpos; simpl.
  - unfold vdivide. rewrite (positive_nonzero _ Hpos). reflexivity.
  - rewrite !app_nil_r. reflexivity.
Qed.

Lemma fold_left_append2 {A B C} (f : A -> option (B * C)) (xs : list A)
    (s : list B * list C) :
  fold_left (fun s x => (s.1 ++ option_list (fst <$> f x),
                         s.2 ++ option_list (snd <$> f x))) xs s
  = (s.1 ++ (omap f xs).*1, s.2 ++ (omap f xs).*2).
Proof.
  revert s. induction xs as [| x xs IH]; intros [l r]; simpl.
  - rewrite !app_nil_r. reflexivity.
  - rewrite IH. simpl. destruct (f x) as [[b c] |]; simpl.
    + rewrite <- !app_assoc. reflexivity.
    + rewrite !app_nil_r. reflexivity.
Qed.

Lemma omap_range {B} (f : nat -> option B) (n : nat) :
  omap (fun i : Z => f (Z.to_nat i)) (range (Z.of_nat n)) = omap f (seq 0 n).
Proof.
  induction n as [| n IH].
  - reflexivity.
  - rewrite range_succ, seq_S, !omap_app, IH. simpl.
    rewrite Nat2Z.id. reflexivity.
Qed.

(** The borders of a centerline of at least two points. *)
Lemma manual_offset_run (self : HeatTrackGenerator) (offset_distance : num) :
  (2 <= length (centerline_points self))%nat ->
  let pairs := omap (border_pair (centerline_points self) offset_distance)
                 (seq 0 (length (centerline_points self))) in
  _manual_offset_calculation self offset_distance
  = ret (set_borders self pairs.*1 pairs.*2).
Proof.
  intros Hlen pairs. unfold _manual_offset_calculation.
  rewrite (for_each_run _
    (fun s i =>
       (s.1 ++ option_list
                 (fst <$> border_pair (centerline_points self)
                            offset_distance (Z.to_nat i)),
        s.2 ++ option_list
                 (snd <$> border_pair (centerline_points self)
                            offset_distance (Z.to_nat i))))
    (fun _ => [])).
  - rewrite (fold_left_append2
               (fun i : Z => border_pair (centerline_points self)
                               offset_distance (Z.to_nat i))).
    rewrite (omap_range (border_pair (centerline_points self)
                           offset_distance)).
    fold pairs. simpl.
    replace (flat_map (fun _ : Z => []) _) with (@nil warning).
    2:{ induction (range _); simpl; auto. }
    reflexivity.
  - intros s i Hi. apply elem_of_seqZ in Hi.
    rewrite <- (Z2Nat.id i) at 1 by lia.
    apply offset_point_run; [assumption | lia].
Qed.

End FallbackRuns.

(** ** The segment mutations *)

Section AppProofs.
Context {num : Type}.

Local Abbreviation Point := (Point num).
Local Abbreviation Segment := (Segment num).
Local Abbreviation HeatTrackGenerator := (HeatTrackGenerator num).

Lemma same_but_center_refl (s : Segment) : same_but_center s s.
Proof. repeat split. Qed.

Lemma same_but_center_trans (s1 s2 s3 : Segment) :
  same_but_center s1 s2 -> same_but_center s2 s3 -> same_but_center s1 s3.
Proof.
  unfold same_but_center. intros (? & ? & ? & ? & ? & ?) (? & ? & ? & ? & ? & ?).
  repeat split; congruence.
Qed.

Lemma move_segment_frame (segs : list Segment) (id : Z) (pos : Point) :
  Forall2 (fun s s' => same_but_center s s' /\
                       (segment_number s <> id -> s' = s))
    segs (move_segment segs id pos).
Proof.
  induction segs as [| s segs IH]; simpl; [constructor |].
  destruct (segment_number s =? id)%Z eqn:Hid.
  - constructor.
    + split; [repeat split |]. apply Z.eqb_eq in Hid. congruence.
    + apply Forall2_same_length_lookup_2; [reflexivity |].
      intros k x y Hx Hy. rewrite Hx in Hy. injection Hy as <-.
      split; [apply same_but_center_refl | reflexivity].
  - constructor; [| exact IH].
    split; [apply same_but_center_refl | reflexivity].
Qed.

Lemma move_segments_frame (updates : list (Z * Point)) (segs : list Segment) :
  Forall2 (fun s s' => same_but_center s s' /\
                       (segment_number s ∉ updates.*1 -> s' = s))
    segs (move_segments segs updates).
Proof.
  revert segs. induction updates as [| [id pos] updates IH]; intros segs.
  - simpl. apply Forall2_same_length_lookup_2; [reflexivity |].
    intros k x y Hx Hy. rewrite Hx in Hy. injection Hy as <-.
    split; [apply same_but_center_refl | reflexivity].
  - unfold move_segments. cbn [fold_left fst snd].
    pose proof (move_segment_frame segs id pos) as H1.
    pose proof (IH (move_segment segs id pos)) as H2.
    unfold move_segments in H2.
    apply Forall2_same_length_lookup_2.
    { rewrite (Forall2_length _ _ _ H1). apply (Forall2_length _ _ _ H2). }
    intros k x z Hx Hz.
    destruct (Forall2_lookup_l _ _ _ _ _ H1 Hx) as (y & Hy & Hxy & Hxy').
    destruct (Forall2_lookup_lr _ _ _ _ _ _ H2 Hy Hz) as (Hyz & Hyz').
    split; [eapply same_but_center_trans; eassumption |].
    intros Hnot. rewrite fmap_cons in Hnot. cbn [fst] in Hnot.
    apply not_elem_of_cons in Hnot as [Hne Hnot].
    rewrite Hyz', Hxy'; auto.
    rewrite Hxy'; auto.
Qed.

Lemma move_segment_hit (segs : list Segment) (id : Z) (pos : Point)
    (k : nat) (s : Segment) :
  segs !! k = Some s -> segment_number s = id ->
  (forall k' s', (k' < k)%nat -> segs !! k' = Some s' ->
                 segment_number s' <> id) ->
  move_segment segs id pos !! k = Some (set_center_point s pos).
Proof.
  revert k. induction segs as [| s0 segs IH]; intros k Hk Hid Hfirst;
    [discriminate |].
  simpl. destruct k as [| k].
  - injection Hk as ->. rewrite (proj2 (Z.eqb_eq _ _) Hid). reflexivity.
  - assert (Hne : segment_number s0 <> id).
    { apply (Hfirst 0%nat s0); [lia | reflexivity]. }
    rewrite (proj2 (Z.eqb_neq _ _) Hne). simpl. apply IH; auto.
    intros k' s' Hk' Hs'. apply (Hfirst (S k') s'); [lia | exact Hs'].
Qed.

Lemma mark_segment_idempotent (a b limit : Z) (s : Segment) :
  mark_segment a b limit (mark_segment a b limit s) = mark_segment a b limit s.
Proof.
  unfold mark_segment.
  destruct ((a <=? segment_number s)%Z && (segment_number s <=? b)%Z) eqn:Hin;
    simpl; rewrite Hin; reflexivity.
Qed.

(** C8. [mark_curve] on a registered session sets [is_curve] to true and
    [speed_limit] to the given value on every segment whose number lies in
    [[start_segment, end_segment]]; on every other segment [is_curve], read
    as the code reads it ([segment.get('is_curve', False)]), and
    [speed_limit] stay as they were, and no other key changes. Running the
    handler a second time with the same arguments changes nothing more. *)
Theorem mark_curve_marks_range_and_is_idempotent
    (track_generators : gmap string HeatTrackGenerator) (session_id : string)
    (start_segment end_segment : Z) (limit : option Z)
    (generator : HeatTrackGenerator) :
  track_generators !! session_id = Some generator ->
  exists generator',
    mark_curve track_generators session_id start_segment end_segment limit
    = (success, <[session_id := generator']> track_generators) /\
    Forall2
      (fun s s' =>
         segment_number s' = segment_number s /\
         center_point s' = center_point s /\
         line_start s' = line_start s /\
         line_end s' = line_end s /\
         distance s' = distance s /\
         ((start_segment <= segment_number s <= end_segment)%Z ->
          is_curve s' = Some true /\
          speed_limit s' = Some (default 3%Z limit)) /\
         (~ (start_segment <= segment_number s <= end_segment)%Z ->
          default false (is_curve s') = default false (is_curve s) /\
          speed_limit s' = speed_limit s))
      (segment_divisions generator) (segment_divisions generator') /\
    mark_curve
      (mark_curve track_generators session_id start_segment end_segment
         limit).2
      session_id start_segment end_segment limit
    = mark_curve track_generators session_id start_segment end_segment limit.
Proof.
  intros Hg. unfold mark_curve. rewrite Hg. cbn [snd].
  eexists. split; [reflexivity |]. split.
  - cbn [segment_divisions with_segments].
    apply Forall2_same_length_lookup_2; [rewrite length_map; reflexivity |].
    intros k s s' Hs Hs'.
    rewrite list_lookup_fmap, Hs in Hs'. injection Hs' as <-.
    unfold mark_segment.
    destruct ((start_segment <=? segment_number s)%Z
              && (segment_number s <=? end_segment)%Z) eqn:Hin; simpl;
      repeat (split; [reflexivity |]).
    + apply andb_true_iff in Hin as [H1 H2]. apply Z.leb_le in H1, H2.
      split; [intros _; split; reflexivity |].
      intros Hn. exfalso. apply Hn. lia.
    + split; [| intros _; split; reflexivity].
      intros Hr. exfalso. apply andb_false_iff in Hin.
      destruct Hin as [H | H]; apply Z.leb_gt in H; lia.
  - rewrite lookup_insert_eq, insert_insert_eq.
    cbn [segment_divisions with_segments track_width segment_length
           centerline_points left_border_points right_border_points].
    rewrite map_map.
    rewrite (map_ext _ _ (mark_segment_idempotent _ _ _)).
    reflexivity.
Qed.

(** C9. [update_segments] on a registered session changes nothing but
    ['center_point']: every segment keeps its number, [line_start],
    [line_end], [distance], [is_curve] and [speed_limit], and a segment
    whose number is the ['id'] of no update is unchanged altogether. A
    single update moves the center of the first segment that carries its
    ['id'] to the given position. *)
Theorem update_segments_changes_only_center_points
    (track_generators : gmap string HeatTrackGenerator) (session_id : string)
    (segments : list (Z * Point)) (generator : HeatTrackGenerator) :
  track_generators !! session_id = Some generator ->
  exists generator',
    update_segments track_generators session_id segments
    = (success, <[session_id := generator']> track_generators) /\
    Forall2
      (fun s s' => same_but_center s s' /\
                   (segment_number s ∉ segments.*1 -> s' = s))
      (segment_divisions generator) (segment_divisions generator') /\
    forall segment_id new_position k s,
      segments = [(segment_id, new_position)] ->
      segment_divisions generator !! k = Some s ->
      segment_number s = segment_id ->
      (forall k' s', (k' < k)%nat ->
                     segment_divisions generator !! k' = Some s' ->
                     segment_number s' <> segment_id) ->
      segment_divisions generator' !! k
      = Some (set_center_point s new_position).
Proof.
  intros Hg. unfold update_segments. rewrite Hg.
  eexists. split; [reflexivity |].
  cbn [segment_divisions with_segments]. split.
  - apply move_segments_frame.
  - intros id pos k s -> Hk Hid Hfirst.
    apply move_segment_hit; assumption.
Qed.

End AppProofs.

(** Marking the segments 2 to 5 of the registered run as a curve of speed
    limit 4. *)
Lemma mark_curve_marks_range_and_is_idempotent_witness :
  Float64Samples.sample_sessions !! "session_0"%string
  = Some Float64Samples.sample_generator /\
  exists generator',
    mark_curve Float64Samples.sample_sessions "session_0" 2 5 (Some 4%Z)
    = (success,
       <[ "session_0"%string := generator' ]> Float64Samples.sample_sessions).
Proof.
  assert (H : Float64Samples.sample_sessions !! "session_0"%string
              = Some Float64Samples.sample_generator)
    by apply lookup_singleton_eq.
  split; [exact H |].
  destruct (mark_curve_marks_range_and_is_idempotent
              Float64Samples.sample_sessions "session_0" 2 5 (Some 4%Z)
              Float64Samples.sample_generator H)
    as (g' & Hrun & _).
  exists g'. exact Hrun.
Defined.

(** Dragging the second segment of the registered run. *)
Lemma update_segments_changes_only_center_points_witness :
  Float64Samples.sample_sessions !! "session_0"%string
  = Some Float64Samples.sample_generator /\
  exists generator',
    update_segments Float64Samples.sample_sessions "session_0"
      [(2%Z, Float64Samples.dragged_position)]
    = (success,
       <[ "session_0"%string := generator' ]> Float64Samples.sample_sessions).
Proof.
  assert (H : Float64Samples.sample_sessions !! "session_0"%string
              = Some Float64Samples.sample_generator)
    by apply lookup_singleton_eq.
  split; [exact H |].
  destruct (update_segments_changes_only_center_points
              Float64Samples.sample_sessions "session_0"
              [(2%Z, Float64Samples.dragged_position)]
              Float64Samples.sample_generator H)
    as (g' & Hrun & _).
  exists g'. exact Hrun.
Defined.

(** ** Exact arithmetic *)

Section ExactFacts.
Local Open Scope R_scope.

Local Abbreviation Point := (Point R).

Lemma Rleb_true (x y : R) : Exact.Rleb x y = true <-> x <= y.
Proof. unfold Exact.Rleb. destruct (Rle_dec x y); split; auto; discriminate. Qed.

Lemma Rleb_false (x y : R) : Exact.Rleb x y = false <-> y < x.
Proof.
  unfold Exact.Rleb. destruct (Rle_dec x y); split; auto; try discriminate; lra.
Qed.

Lemma Rltb_true (x y : R) : Exact.Rltb x y = true <-> x < y.
Proof. unfold Exact.Rltb. destruct (Rlt_dec x y); split; auto; discriminate. Qed.

Lemma Rltb_false (x y : R) : Exact.Rltb x y = false <-> y <= x.
Proof.
  unfold Exact.Rltb. destruct (Rlt_dec x y); split; auto; try discriminate; lra.
Qed.

Lemma Reqb_true (x y : R) : Exact.Reqb x y = true <-> x = y.
Proof. unfold Exact.Reqb. destruct (Req_dec_T x y); split; auto; discriminate. Qed.

Lemma Reqb_false (x y : R) : Exact.Reqb x y = false <-> x <> y.
Proof.
  unfold Exact.Reqb. destruct (Req_dec_T x y); split; auto; try discriminate;
    contradiction.
Qed.

Lemma exact_positive_nonzero (x : R) :
  ltb (of_Z 0) x = true -> is_zero x = false.
Proof.
  simpl. intros H. apply Rltb_true in H. apply Reqb_false. lra.
Qed.

(** The Euclidean norm. *)
Lemma norm_eq (v : Point) : norm v = R_sqrt.sqrt (v.1 * v.1 + v.2 * v.2).
Proof. reflexivity. Qed.

Lemma norm_nonneg (v : Point) : 0 <= norm v.
Proof. rewrite norm_eq. apply sqrt_pos. Qed.

Lemma norm_square (v : Point) : norm v * norm v = v.1 * v.1 + v.2 * v.2.
Proof. rewrite norm_eq. apply sqrt_sqrt. nra. Qed.

Lemma norm_zero_iff (v : Point) : norm v = 0 <-> v = (0, 0).
Proof.
  split.
  - intros H. pose proof (norm_square v) as Hs. rewrite H in Hs.
    destruct v as [x y]. simpl in Hs.
    assert (x = 0) by nra. assert (y = 0) by nra. congruence.
  - intros ->. rewrite norm_eq. simpl.
    replace (0 * 0 + 0 * 0) with 0 by lra. apply sqrt_0.
Qed.

Lemma norm_pos_iff (v : Point) : 0 < norm v <-> v <> (0, 0).
Proof.
  pose proof (norm_nonneg v). pose proof (norm_zero_iff v) as [H1 H2].
  split.
  - intros Hpos Hv. apply H2 in Hv. lra.
  - intros Hv. destruct (Req_dec_T (norm v) 0) as [H0 | H0]; [| lra].
    apply H1 in H0. contradiction.
Qed.

Lemma vsub_zero_iff (p q : Point) : vsub p q = (0, 0) <-> p = q.
Proof.
  destruct p as [px py], q as [qx qy]. unfold vsub. simpl. split.
  - intros [= H1 H2]. f_equal; lra.
  - intros [= -> ->]. f_equal; lra.
Qed.

Lemma distance_pos_iff (p q : Point) : 0 < norm (vsub p q) <-> p <> q.
Proof. rewrite norm_pos_iff, vsub_zero_iff. reflexivity. Qed.

(** Truncation on the non-negative numbers is the floor. *)
Lemma Rtrunc_floor (x : R) :
  0 <= x -> IZR (Exact.Rtrunc x) <= x < IZR (Exact.Rtrunc x) + 1.
Proof.
  intros Hx. unfold Exact.Rtrunc. destruct (Rle_dec 0 x); [| contradiction].
  pose proof (base_Int_part x) as [H1 H2]. lra.
Qed.

End ExactFacts.

(** ** The scan in exact arithmetic *)

Section ExactScan.
Local Open Scope R_scope.

Local Abbreviation Point := (Point R).
Local Abbreviation Segment := (Segment R).
Local Abbreviation HeatTrackGenerator := (HeatTrackGenerator R).

Lemma contains_target_true (ds : list R) (target : R) (j : nat) :
  contains_target ds target j = true <->
  exists dj dj1, ds !! j = Some dj /\ ds !! S j = Some dj1 /\
                 dj <= target <= dj1.
Proof.
  unfold contains_target.
  destruct (ds !! j) as [dj |], (ds !! S j) as [dj1 |]; simpl.
  - rewrite andb_true_iff, !Rleb_true. split.
    + intros [H1 H2]. exists dj, dj1. auto.
    + intros (? & ? & [= <-] & [= <-] & H). exact H.
  - split; [discriminate | intros (? & ? & _ & [=] & _)].
  - split; [discriminate | intros (? & ? & [=] & _)].
  - split; [discriminate | intros (? & ? & [=] & _)].
Qed.

(** A table that starts at or below the target and ends at or above it has
    an interval that contains the target. *)
Lemma exists_interval (ds : list R) (target a L : R) :
  ds !! 0%nat = Some a -> last ds = Some L -> (2 <= length ds)%nat ->
  a <= target <= L ->
  exists j, (S j < length ds)%nat /\ contains_target ds target j = true.
Proof.
  revert a. induction ds as [| d0 ds IH]; intros a Ha Hl Hlen Ht;
    [discriminate |].
  destruct ds as [| d1 ds]; [simpl in Hlen; lia |].
  simpl in Ha. injection Ha as ->.
  destruct (Rle_dec target d1) as [Hle | Hgt].
  - exists 0%nat. split; [simpl; lia |].
    apply contains_target_true. exists a, d1. simpl. repeat split; auto; lra.
  - assert (Hlen' : (2 <= length (d1 :: ds))%nat).
    { destruct ds as [| d2 ds]; [| simpl; lia].
      simpl in Hl. injection Hl as <-. lra. }
    destruct (IH d1 eq_refl Hl Hlen' ltac:(lra)) as (j & Hj & Hc).
    exists (S j). split; [simpl in *; lia |].
    apply contains_target_true. apply contains_target_true in Hc.
    exact Hc.
Qed.

(** *** The table in exact arithmetic *)

Lemma arc_table_adjacent (points : list Point) (j : nat) (a b : R) :
  arc_table points !! j = Some a -> arc_table points !! S j = Some b ->
  exists p q, points !! j = Some p /\ points !! S j = Some q /\
              b = a + norm (vsub q p) /\ a <= b /\ (a < b <-> p <> q).
Proof.
  intros Ha Hb.
  assert (Hne : points <> []).
  { intros ->. discriminate. }
  pose proof (length_arc_table points Hne) as Hlen.
  assert (Hj : (S j < length points)%nat).
  { rewrite <- Hlen. apply lookup_lt_is_Some_1. eauto. }
  destruct (lookup_lt_is_Some_2 points j ltac:(lia)) as [p Hp].
  destruct (lookup_lt_is_Some_2 points (S j) Hj) as [q Hq].
  exists p, q. split; [assumption |]. split; [assumption |].
  pose proof (arc_table_step points j a b p q Ha Hb Hp Hq) as Hstep.
  change (b = a + norm (vsub q p)) in Hstep.
  pose proof (norm_nonneg (vsub q p)) as Hn.
  pose proof (distance_pos_iff q p) as Hpos.
  split; [assumption |]. split; [lra |].
  split.
  - intros Hlt Heq. subst q. apply (proj1 Hpos); [lra | reflexivity].
  - intros Hpq. assert (0 < norm (vsub q p)) by (apply Hpos; congruence). lra.
Qed.

Lemma arc_table_first (points : list Point) :
  arc_table points !! 0%nat = Some 0.
Proof. exact (arc_table_head points). Qed.

Lemma arc_table_nonneg (points : list Point) (j : nat) (a : R) :
  arc_table points !! j = Some a -> 0 <= a.
Proof.
  revert a. induction j as [| j IH]; intros a Ha.
  - rewrite arc_table_first in Ha. injection Ha as <-. lra.
  - destruct (lookup_lt_is_Some_2 (arc_table points) j) as [a0 Ha0].
    { pose proof (lookup_lt_Some _ _ _ Ha). lia. }
    destruct (arc_table_adjacent points j a0 a Ha0 Ha) as (_ & _ & _ & _ & _ & H & _).
    specialize (IH a0 Ha0). lra.
Qed.

Lemma arc_table_total (points : list Point) :
  exists L, last (arc_table points) = Some L /\ 0 <= L.
Proof.
  destruct (last (arc_table points)) as [L |] eqn:HL.
  - exists L. split; [reflexivity |]. rewrite last_lookup in HL.
    eapply arc_table_nonneg. eassumption.
  - apply last_None in HL. destruct points; discriminate.
Qed.

(** *** [num_segments] *)

Lemma count_segments_run (self : HeatTrackGenerator) (ds : list R) (L : R) :
  last ds = Some L -> segment_length self <> 0 ->
  count_segments self ds = ret (Exact.Rtrunc (L / segment_length self)).
Proof.
  intros HL HS. unfold count_segments.
  rewrite (item_last _ _ HL), bind_ret.
  unfold int_quotient_py, int_quotient. simpl.
  rewrite (proj2 (Reqb_false _ _) HS).
  destruct (length ds =? 1)%nat; reflexivity.
Qed.

(** *** The interval of a target on the curve *)

Lemma interval_of_spec (points : list Point) (target L : R) :
  (2 <= length points)%nat ->
  last (arc_table points) = Some L -> 0 <= target <= L ->
  exists j dj dj1 p q,
    interval_of (arc_table points) target = Some j /\
    arc_table points !! j = Some dj /\ arc_table points !! S j = Some dj1 /\
    points !! j = Some p /\ points !! S j = Some q /\
    dj <= target <= dj1 /\
    (0 < target -> p <> q) /\ (target = 0 -> j = 0%nat).
Proof.
  intros Hlen HL Ht.
  assert (Hne : points <> []) by (intros ->; simpl in Hlen; lia).
  pose proof (length_arc_table points Hne) as Hlen'.
  destruct (exists_interval (arc_table points) target 0 L) as (j0 & Hj0 & Hc0);
    [apply arc_table_first | assumption | lia | assumption |].
  destruct (find_seq_exists (contains_target (arc_table points) target)
              (length (arc_table points) - 1) 0 j0 ltac:(lia) Hc0)
    as [j Hfind].
  destruct (find_seq_first _ _ _ _ Hfind) as (Hc & Hr & Hmin).
  apply contains_target_true in Hc as (dj & dj1 & Hdj & Hdj1 & Hin).
  destruct (arc_table_adjacent points j dj dj1 Hdj Hdj1)
    as (p & q & Hp & Hq & _ & Hle & Hlt).
  exists j, dj, dj1, p, q. repeat split; try assumption; try lra.
  - (* a target above zero is not met on an interval of length zero *)
    intros Hpos. apply Hlt.
    destruct (Rlt_dec dj dj1) as [| Hnlt]; [assumption | exfalso].
    assert (Heq : dj = target /\ dj1 = target) by lra.
    destruct Heq as [-> ->].
    destruct j as [| j'].
    + rewrite arc_table_first in Hdj. injection Hdj as Hz. lra.
    + destruct (lookup_lt_is_Some_2 (arc_table points) j') as [d' Hd'];
        [lia |].
      destruct (arc_table_adjacent points j' d' target Hd' Hdj)
        as (_ & _ & _ & _ & _ & Hle' & _).
      assert (Hc' : contains_target (arc_table points) target j' = true).
      { apply contains_target_true. exists d', target.
        repeat split; try assumption; lra. }
      rewrite (Hmin j') in Hc'; [discriminate | lia].
  - (* the target zero is met on the first interval *)
    intros ->. destruct j as [| j']; [reflexivity | exfalso].
    destruct (lookup_lt_is_Some_2 (arc_table points) 1) as [d1 Hd1]; [lia |].
    pose proof (arc_table_nonneg points 1 d1 Hd1) as Hd1pos.
    assert (Hc' : contains_target (arc_table points) 0 0 = true).
    { apply contains_target_true. exists 0, d1.
      split; [apply arc_table_first |]. split; [assumption | lra]. }
    rewrite (Hmin 0%nat) in Hc'; [discriminate | lia].
Qed.

(** *** The boundary of an interval *)

Lemma boundary_at_Some (self : HeatTrackGenerator) (ds : list R) (i : Z)
    (j : nat) (dj dj1 : R) (p1 p2 : Point) :
  ds !! j = Some dj -> ds !! S j = Some dj1 ->
  centerline_points self !! j = Some p1 ->
  centerline_points self !! S j = Some p2 ->
  p1 <> p2 ->
  let target := IZR i * segment_length self in
  let n := norm (vsub p2 p1) in
  let c := vadd p1 (smul ((target - dj) / (dj1 - dj)) (vsub p2 p1)) in
  let perpendicular := (- ((vsub p2 p1).2 / n), (vsub p2 p1).1 / n) in
  boundary_at self ds i j
  = Some (mkSegment i c
            (vsub c (vmul perpendicular (track_width self / 2)))
            (vadd c (vmul perpendicular (track_width self / 2)))
            target None None).
Proof.
  intros Hdj Hdj1 Hp1 Hp2 Hne. unfold boundary_at.
  rewrite Hdj, Hdj1, Hp1, Hp2. simpl.
  rewrite (proj2 (Rltb_true 0 _)); [reflexivity |].
  apply distance_pos_iff. congruence.
Qed.

Lemma boundary_at_None (self : HeatTrackGenerator) (ds : list R) (i : Z)
    (j : nat) (p : Point) :
  centerline_points self !! j = Some p ->
  centerline_points self !! S j = Some p ->
  boundary_at self ds i j = None.
Proof.
  intros Hp1 Hp2. unfold boundary_at. rewrite Hp1, Hp2.
  destruct (ds !! j); [| reflexivity]. destruct (ds !! S j); [| reflexivity].
  simpl. rewrite (proj2 (Rltb_false _ _)); [reflexivity |].
  pose proof (norm_zero_iff (vsub p p)) as [_ H].
  unfold norm in H. simpl in H. rewrite H; [lra |].
  apply vsub_zero_iff. reflexivity.
Qed.

(** *** What the placement loop appends *)

Lemma placed_at_first (self : HeatTrackGenerator) :
  (2 <= length (centerline_points self))%nat ->
  let ds := arc_table (centerline_points self) in
  placed_at self ds 0 = boundary_at self ds 0 0 /\
  interval_of ds (IZR 0 * segment_length self) = Some 0%nat.
Proof.
  intros Hlen ds.
  destruct (arc_table_total (centerline_points self)) as (L & HL & HLpos).
  destruct (interval_of_spec (centerline_points self) 0 L Hlen HL ltac:(lra))
    as (j & dj & dj1 & p & q & Hfind & _ & _ & _ & _ & _ & _ & Hz).
  specialize (Hz eq_refl). subst j.
  assert (Hi : interval_of ds (IZR 0 * segment_length self) = Some 0%nat).
  { replace (IZR 0 * segment_length self) with 0 by lra. exact Hfind. }
  split; [| exact Hi].
  unfold placed_at. change (mul (of_Z 0) (segment_length self))
    with (IZR 0 * segment_length self).
  rewrite Hi. reflexivity.
Qed.

Lemma placed_at_later (self : HeatTrackGenerator) (L : R) (i : Z) :
  (2 <= length (centerline_points self))%nat ->
  0 < segment_length self ->
  last (arc_table (centerline_points self)) = Some L ->
  (1 <= i <= Int_part (L / segment_length self))%Z ->
  exists j dj dj1 p q,
    interval_of (arc_table (centerline_points self))
      (IZR i * segment_length self) = Some j /\
    arc_table (centerline_points self) !! j = Some dj /\
    arc_table (centerline_points self) !! S j = Some dj1 /\
    centerline_points self !! j = Some p /\
    centerline_points self !! S j = Some q /\
    p <> q /\
    is_Some (placed_at self (arc_table (centerline_points self)) i).
Proof.
  intros Hlen HS HL [Hi1 Hi2].
  set (S0 := segment_length self) in *.
  assert (Hpos : 0 < IZR i * S0).
  { apply Rmult_lt_0_compat; [| assumption]. apply IZR_lt. lia. }
  assert (Hle : IZR i * S0 <= L).
  { pose proof (base_Int_part (L / S0)) as [Hfl _].
    apply IZR_le in Hi2.
    assert (IZR i <= L / S0) by lra.
    replace L with (L / S0 * S0) by (field; lra).
    apply Rmult_le_compat_r; lra. }
  destruct (interval_of_spec (centerline_points self) (IZR i * S0) L Hlen HL
              ltac:(lra))
    as (j & dj & dj1 & p & q & Hfind & Hdj & Hdj1 & Hp & Hq & _ & Hpq & _).
  specialize (Hpq Hpos).
  exists j, dj, dj1, p, q. repeat split; try assumption.
  unfold placed_at.
  change (mul (of_Z i) (segment_length self)) with (IZR i * S0).
  rewrite Hfind.
  rewrite (boundary_at_Some self _ i j dj dj1 p q Hdj Hdj1 Hp Hq Hpq).
  eauto.
Qed.

Lemma length_omap_all {A B} (f : A -> option B) (l : list A) :
  (forall x, x ∈ l -> is_Some (f x)) -> length (omap f l) = length l.
Proof.
  induction l as [| x l IH]; intros Hall; simpl; [reflexivity |].
  destruct (Hall x ltac:(left)) as [y ->]. simpl. f_equal.
  apply IH. intros z Hz. apply Hall. right. assumption.
Qed.

Lemma omap_all_None {A B} (f : A -> option B) (l : list A) :
  (forall x, f x = None) -> omap f l = [].
Proof.
  intros Hall. induction l as [| x l IH]; [reflexivity |].
  simpl. rewrite Hall. exact IH.
Qed.

Lemma length_omap_cons {A B} (f : A -> option B) (x : A) (l : list A) :
  length (omap f (x :: l))
  = (match f x with Some _ => 1 | None => 0 end + length (omap f l))%nat.
Proof. simpl. destruct (f x); reflexivity. Qed.

(** The number of boundaries placed along a centerline of at least two
    points. *)
Lemma length_placed (self : HeatTrackGenerator) (L : R) :
  (2 <= length (centerline_points self))%nat ->
  0 < segment_length self ->
  last (arc_table (centerline_points self)) = Some L ->
  let ds := arc_table (centerline_points self) in
  let n := Int_part (L / segment_length self) in
  Z.of_nat (length (omap (placed_at self ds) (range (n + 1))))
  = (n + match boundary_at self ds 0 0 with Some _ => 1 | None => 0 end)%Z.
Proof.
  intros Hlen HS HL ds n.
  assert (HLpos : 0 <= L).
  { destruct (arc_table_total (centerline_points self)) as (L' & HL' & H').
    congruence. }
  assert (Hn : (0 <= n)%Z).
  { unfold n. pose proof (base_Int_part (L / segment_length self)) as [_ H].
    assert (0 <= L / segment_length self).
    { apply Rmult_le_pos; [assumption |].
      apply Rlt_le, Rinv_0_lt_compat. assumption. }
    apply Z.lt_succ_r. apply lt_IZR. rewrite succ_IZR. lra. }
  unfold range. rewrite seqZ_cons by lia. rewrite length_omap_cons.
  destruct (placed_at_first self Hlen) as [H0 _]. fold ds in H0.
  replace (Z.succ 0) with 1%Z by reflexivity.
  replace (Z.pred (n + 1)) with n by lia.
  assert (Hrest : length (omap (placed_at self ds) (seqZ 1 n)) = Z.to_nat n).
  { rewrite length_omap_all; [apply length_seqZ |].
    intros i Hi. apply elem_of_seqZ in Hi.
    destruct (placed_at_later self L i Hlen HS HL ltac:(fold n; lia))
      as (? & ? & ? & ? & ? & _ & _ & _ & _ & _ & _ & Hsome).
    exact Hsome. }
  rewrite H0, Hrest. destruct (boundary_at self ds 0 0); lia.
Qed.

(** *** The division warnings of the placement loop *)

Lemma warnings_at_exact (self : HeatTrackGenerator) (j : nat) (dj dj1 : R)
    (p q : Point) :
  arc_table (centerline_points self) !! j = Some dj ->
  arc_table (centerline_points self) !! S j = Some dj1 ->
  centerline_points self !! j = Some p ->
  centerline_points self !! S j = Some q ->
  (p <> q -> warnings_at self (arc_table (centerline_points self)) j = []) /\
  (p = q -> warnings_at self (arc_table (centerline_points self)) j
            = [RuntimeWarning_divide]).
Proof.
  intros Hdj Hdj1 Hp Hq.
  destruct (arc_table_adjacent _ _ _ _ Hdj Hdj1)
    as (p' & q' & Hp' & Hq' & Hstep & Hle & Hlt).
  assert (p' = p) by congruence. assert (q' = q) by congruence. subst p' q'.
  unfold warnings_at. rewrite Hdj, Hdj1, Hp, Hq.
  change (is_zero (sub dj1 dj)) with (Exact.Reqb (dj1 - dj) 0).
  change (ltb (of_Z 0) (norm (vsub q p)))
    with (Exact.Rltb 0 (norm (vsub q p))).
  pose proof (exact_positive_nonzero (norm (vsub q p))) as Hnz.
  change (ltb (of_Z 0) (norm (vsub q p)))
    with (Exact.Rltb 0 (norm (vsub q p))) in Hnz.
  split.
  - intros Hne. rewrite (proj2 (Reqb_false _ _)).
    2:{ apply Hlt in Hne. lra. }
    destruct (Exact.Rltb 0 (norm (vsub q p))); [| reflexivity].
    rewrite Hnz; reflexivity.
  - intros Heq. rewrite (proj2 (Reqb_true _ _)).
    2:{ assert (~ dj < dj1) by (intros H; apply Hlt in H; contradiction).
        lra. }
    destruct (Exact.Rltb 0 (norm (vsub q p))); [| reflexivity].
    rewrite Hnz; reflexivity.
Qed.

Lemma flat_map_nil {A B} (f : A -> list B) (l : list A) :
  (forall x, x ∈ l -> f x = []) -> flat_map f l = [].
Proof.
  induction l as [| x l IH]; intros Hall; simpl; [reflexivity |].
  rewrite (Hall x ltac:(left)), IH; [reflexivity |].
  intros y Hy. apply Hall. right. assumption.
Qed.

(** Along a centerline of at least two points the loop divides by zero
    exactly when the first two points coincide: once, at the boundary of
    arc distance zero. *)
Lemma placement_warnings_exact (self : HeatTrackGenerator) (L : R)
    (p0 p1 : Point) :
  centerline_points self !! 0%nat = Some p0 ->
  centerline_points self !! 1%nat = Some p1 ->
  0 < segment_length self ->
  last (arc_table (centerline_points self)) = Some L ->
  let ds := arc_table (centerline_points self) in
  let n := Int_part (L / segment_length self) in
  (p0 <> p1 -> flat_map (placement_warnings self ds) (range (n + 1)) = []) /\
  (p0 = p1 -> flat_map (placement_warnings self ds) (range (n + 1))
              = [RuntimeWarning_divide]).
Proof.
  intros Hp0 Hp1 HS HL ds n.
  assert (Hlen : (2 <= length (centerline_points self))%nat).
  { pose proof (lookup_lt_Some _ _ _ Hp1). lia. }
  assert (Hlen' : length ds = length (centerline_points self)).
  { apply length_arc_table. intros H. rewrite H in Hlen. simpl in Hlen. lia. }
  assert (Hn : (0 <= n)%Z).
  { unfold n. pose proof (base_Int_part (L / segment_length self)) as [_ H].
    destruct (arc_table_total (centerline_points self)) as (L' & HL' & H').
    assert (L' = L) by congruence. subst L'.
    assert (0 <= L / segment_length self).
    { apply Rmult_le_pos; [assumption |].
      apply Rlt_le, Rinv_0_lt_compat. assumption. }
    apply Z.lt_succ_r. apply lt_IZR. rewrite succ_IZR. lra. }
  destruct (lookup_lt_is_Some_2 ds 0) as [d0 Hd0]; [lia |].
  destruct (lookup_lt_is_Some_2 ds 1) as [d1 Hd1]; [lia |].
  destruct (warnings_at_exact self 0 d0 d1 p0 p1 Hd0 Hd1 Hp0 Hp1)
    as [Hw1 Hw2]. fold ds in Hw1, Hw2.
  destruct (placed_at_first self Hlen) as [_ Hi0]. fold ds in Hi0.
  assert (H0 : placement_warnings self ds 0 = warnings_at self ds 0).
  { unfold placement_warnings.
    change (mul (of_Z 0) (segment_length self))
      with (IZR 0 * segment_length self).
    rewrite Hi0. reflexivity. }
  assert (Hrest : flat_map (placement_warnings self ds) (seqZ 1 n) = []).
  { apply flat_map_nil. intros i Hi. apply elem_of_seqZ in Hi.
    destruct (placed_at_later self L i Hlen HS HL ltac:(fold n; lia))
      as (j & dj & dj1 & p & q & Hf & Hdj & Hdj1 & Hp & Hq & Hpq & _).
    unfold placement_warnings.
    change (mul (of_Z i) (segment_length self))
      with (IZR i * segment_length self).
    fold ds in Hf. rewrite Hf.
    apply (warnings_at_exact self j dj dj1 p q Hdj Hdj1 Hp Hq). assumption. }
  unfold range. rewrite seqZ_cons by lia.
  replace (Z.succ 0) with 1%Z by reflexivity.
  replace (Z.pred (n + 1)) with n by lia.
  cbn [flat_map]. rewrite H0, Hrest, app_nil_r. split; assumption.
Qed.

End ExactScan.

(** ** The segmenter in exact arithmetic *)

Section ExactSegmenter.
Local Open Scope R_scope.

Local Abbreviation Point := (Point R).
Local Abbreviation Segment := (Segment R).
Local Abbreviation HeatTrackGenerator := (HeatTrackGenerator R).

Lemma divide_track_into_segments_exact (self : HeatTrackGenerator) (L : R) :
  centerline_points self <> [] -> segment_length self <> 0 ->
  last (arc_table (centerline_points self)) = Some L ->
  let ds := arc_table (centerline_points self) in
  let n := Exact.Rtrunc (L / segment_length self) in
  divide_track_into_segments self
  = (flat_map (placement_warnings self ds) (range (n + 1)),
     inr (set_segment_divisions self
            (renumber (trimmed self
                         (omap (placed_at self ds) (range (n + 1))))))).
Proof.
  intros Hne HS HL ds n.
  rewrite divide_track_into_segments_run by assumption.
  rewrite (count_segments_run self _ L HL HS), bind_ret. reflexivity.
Qed.

Lemma Rtrunc_quotient (L S0 : R) :
  0 <= L -> 0 < S0 -> Exact.Rtrunc (L / S0) = Int_part (L / S0).
Proof.
  intros HL HS. unfold Exact.Rtrunc.
  destruct (Rle_dec 0 (L / S0)) as [| Hn]; [reflexivity | exfalso].
  apply Hn. apply Rmult_le_pos; [assumption |].
  apply Rlt_le, Rinv_0_lt_compat. assumption.
Qed.

(** A centerline of one point: the table is [[0]], no interval exists and
    nothing is placed. *)
Lemma single_point_run (self : HeatTrackGenerator) (p : Point) :
  centerline_points self = [p] -> segment_length self <> 0 ->
  divide_track_into_segments self = ret (set_segment_divisions self []).
Proof.
  intros Hp HS.
  rewrite (divide_track_into_segments_exact self 0);
    [| rewrite Hp; discriminate | assumption | rewrite Hp; reflexivity].
  rewrite Hp.
  assert (Hnone : forall i, placed_at self (arc_table [p]) i = None)
    by reflexivity.
  assert (Hnow : forall i, placement_warnings self (arc_table [p]) i = [])
    by reflexivity.
  rewrite flat_map_nil by (intros; apply Hnow).
  rewrite (omap_all_None _ _ Hnone).
  unfold trimmed. rewrite Hp. reflexivity.
Qed.

(** *** The count of the placement loop *)

(** C1 (amended). In exact arithmetic, for a non-empty centerline of total
    length [L] and a segment length [S > 0], the method computes
    [num_segments = floor(L/S)] and the placement loop ends without an
    error. It places [floor(L/S) + 1] boundaries when the centerline
    starts with two distinct points, [floor(L/S)] when its first two points
    coincide (the boundary at arc distance 0 is skipped), and none when
    the centerline is a single point. In particular, when
    [floor(L/S) = 0] and the first two points differ, one boundary is
    placed, not none. *)
Theorem placement_count (self : HeatTrackGenerator) :
  centerline_points self <> [] -> 0 < segment_length self ->
  exists (distances : list R) (L : R) (ws : list warning)
         (placed : list Segment),
    cumulative_distances (centerline_points self) = ret distances /\
    last distances = Some L /\
    count_segments self distances
    = ret (Int_part (L / segment_length self)) /\
    place_boundaries self distances (Int_part (L / segment_length self))
    = (ws, inr placed) /\
    (forall p0 p1,
       centerline_points self !! 0%nat = Some p0 ->
       centerline_points self !! 1%nat = Some p1 -> p0 <> p1 ->
       Z.of_nat (length placed)
       = (Int_part (L / segment_length self) + 1)%Z) /\
    (forall p0,
       centerline_points self !! 0%nat = Some p0 ->
       centerline_points self !! 1%nat = Some p0 ->
       Z.of_nat (length placed) = Int_part (L / segment_length self)) /\
    (length (centerline_points self) = 1%nat -> placed = []).
Proof.
  intros Hne HS.
  destruct (arc_table_total (centerline_points self)) as (L & HL & HLpos).
  pose proof (length_arc_table _ Hne) as Hlen.
  exists (arc_table (centerline_points self)), L. do 2 eexists.
  split; [apply cumulative_distances_run; assumption |].
  split; [assumption |].
  split.
  { rewrite (count_segments_run self _ L HL) by lra.
    rewrite Rtrunc_quotient by assumption. reflexivity. }
  split; [apply place_boundaries_run; assumption |].
  split; [| split].
  - intros p0 p1 Hp0 Hp1 Hp.
    assert (H2 : (2 <= length (centerline_points self))%nat).
    { pose proof (lookup_lt_Some _ _ _ Hp1). lia. }
    rewrite (length_placed self L H2 HS HL).
    destruct (lookup_lt_is_Some_2 (arc_table (centerline_points self)) 0)
      as [d0 Hd0]; [lia |].
    destruct (lookup_lt_is_Some_2 (arc_table (centerline_points self)) 1)
      as [d1 Hd1]; [lia |].
    rewrite (boundary_at_Some self _ 0 0 d0 d1 p0 p1 Hd0 Hd1 Hp0 Hp1 Hp).
    reflexivity.
  - intros p0 Hp0 Hp1.
    assert (H2 : (2 <= length (centerline_points self))%nat).
    { pose proof (lookup_lt_Some _ _ _ Hp1). lia. }
    rewrite (length_placed self L H2 HS HL).
    rewrite (boundary_at_None self _ 0 0 p0 Hp0 Hp1). lia.
  - intros H1. apply omap_all_None. intros i.
    unfold placed_at, interval_of. rewrite Hlen, H1. reflexivity.
Qed.

(** The unit centerline from (0,0) to (1,0) with segments of length 1. *)
Lemma placement_count_witness :
  centerline_points ExactSamples.unit_track <> [] /\
  0 < segment_length ExactSamples.unit_track /\
  exists (distances : list R) (L : R) (ws : list warning)
         (placed : list Segment),
    cumulative_distances (centerline_points ExactSamples.unit_track)
    = ret distances /\
    last distances = Some L /\
    place_boundaries ExactSamples.unit_track distances
      (Int_part (L / segment_length ExactSamples.unit_track))
    = (ws, inr placed).
Proof.
  assert (H1 : centerline_points ExactSamples.unit_track <> [])
    by discriminate.
  assert (H2 : 0 < segment_length ExactSamples.unit_track) by (simpl; lra).
  split; [exact H1 |]. split; [exact H2 |].
  destruct (placement_count ExactSamples.unit_track H1 H2)
    as (ds & L & ws & placed & Hd & HL & _ & Hp & _).
  exists ds, L, ws, placed. auto.
Defined.

Lemma norm_unit_x : norm (vsub (1, 0) (0, 0) : Point) = 1.
Proof.
  rewrite norm_eq. simpl.
  replace ((1 - 0) * (1 - 0) + (0 - 0) * (0 - 0)) with 1 by lra.
  apply sqrt_1.
Qed.

Lemma norm_null : norm (vsub (0, 0) (0, 0) : Point) = 0.
Proof. apply norm_zero_iff. apply vsub_zero_iff. reflexivity. Qed.

(** C1, as stated, fails. Along a centerline of length 1 with segments of
    length 5, [floor(L/S)] is 0 and the loop places one boundary: the
    sequence is not empty, and the method returns one segment (in binary64
    as well). Along the centerline [(0,0), (0,0), (1,0)] with segments of
    length 1, [floor(L/S)] is 1 and the loop places one boundary, not
    two. *)
Lemma short_track_keeps_its_start_boundary :
  (exists (distances : list R) (ws : list warning) (placed : list Segment),
     cumulative_distances (centerline_points ExactSamples.short_track)
     = ret distances /\
     last distances = Some 1 /\
     Int_part (1 / segment_length ExactSamples.short_track) = 0%Z /\
     place_boundaries ExactSamples.short_track distances 0
     = (ws, inr placed) /\
     length placed = 1%nat) /\
  (exists s,
     divide_track_into_segments Float64Samples.short_track
     = ([], inr (set_segment_divisions Float64Samples.short_track [s]))) /\
  (exists (distances : list R) (ws : list warning) (placed : list Segment),
     cumulative_distances (centerline_points ExactSamples.repeated_start_track)
     = ret distances /\
     last distances = Some 1 /\
     Int_part (1 / segment_length ExactSamples.repeated_start_track) = 1%Z /\
     place_boundaries ExactSamples.repeated_start_track distances 1
     = (ws, inr placed) /\
     length placed = 1%nat).
Proof.
  split; [| split].
  - set (self := ExactSamples.short_track).
    assert (HL : last (arc_table (centerline_points self)) = Some 1).
    { change (Some (0 + norm (vsub (1, 0) (0, 0) : Point)) = Some 1).
      rewrite norm_unit_x. f_equal. lra. }
    assert (Hn : Int_part (1 / segment_length self) = 0%Z).
    { symmetry. apply Int_part_spec. simpl. lra. }
    exists (arc_table (centerline_points self)). do 2 eexists.
    split; [apply cumulative_distances_run; discriminate |].
    split; [exact HL |]. split; [exact Hn |].
    split; [apply place_boundaries_run; reflexivity |].
    pose proof (length_placed self 1 ltac:(simpl; lia) ltac:(simpl; lra) HL)
      as Hcount.
    cbv zeta in Hcount. rewrite Hn in Hcount.
    rewrite (boundary_at_Some self _ 0 0 0 (0 + norm (vsub (1, 0) (0, 0)))
               (0, 0) (1, 0)) in Hcount;
      [| reflexivity | reflexivity | reflexivity | reflexivity
       | intros [= H]; lra].
    lia.
  - eexists. vm_compute. reflexivity.
  - set (self := ExactSamples.repeated_start_track).
    assert (HL : last (arc_table (centerline_points self)) = Some 1).
    { change (Some (0 + norm (vsub (0, 0) (0, 0) : Point)
                    + norm (vsub (1, 0) (0, 0) : Point)) = Some 1).
      rewrite norm_unit_x, norm_null. f_equal. lra. }
    assert (Hn : Int_part (1 / segment_length self) = 1%Z).
    { symmetry. apply Int_part_spec. simpl. lra. }
    exists (arc_table (centerline_points self)). do 2 eexists.
    split; [apply cumulative_distances_run; discriminate |].
    split; [exact HL |]. split; [exact Hn |].
    split; [apply place_boundaries_run; reflexivity |].
    pose proof (length_placed self 1 ltac:(simpl; lia) ltac:(simpl; lra) HL)
      as Hcount.
    cbv zeta in Hcount. rewrite Hn in Hcount.
    rewrite (boundary_at_None self _ 0 0 (0, 0)) in Hcount;
      [| reflexivity | reflexivity].
    lia.
Qed.

(** *** The closed-loop trim *)

Lemma trimmed_spec (self : HeatTrackGenerator) (placed : list Segment)
    (first_point last_point : Point) :
  head (centerline_points self) = Some first_point ->
  last (centerline_points self) = Some last_point ->
  let dropped :=
    norm (vsub last_point first_point) < track_width self /\
    (2 <= length placed)%nat /\
    exists first_segment last_segment,
      head placed = Some first_segment /\
      last placed = Some last_segment /\
      norm (vsub (center_point last_segment) (center_point first_segment))
      < segment_length self in
  (dropped -> trimmed self placed = removelast placed) /\
  (~ dropped -> trimmed self placed = placed).
Proof.
  intros Hfp Hlp. cbv zeta. unfold trimmed. rewrite Hfp, Hlp.
  destruct placed as [| s0 rest] eqn:Hplaced.
  { split; [| reflexivity]. intros (_ & Hlen & _). simpl in Hlen. lia. }
  rewrite <- Hplaced in *.
  assert (Hhead : head placed = Some s0) by (rewrite Hplaced; reflexivity).
  destruct (last placed) as [sl |] eqn:Hlast.
  2:{ apply last_None in Hlast. congruence. }
  rewrite Hhead.
  change (ltb (norm (vsub last_point first_point)) (track_width self))
    with (Exact.Rltb (norm (vsub last_point first_point)) (track_width self)).
  change (ltb (norm (vsub (center_point sl) (center_point s0)))
            (segment_length self))
    with (Exact.Rltb (norm (vsub (center_point sl) (center_point s0)))
            (segment_length self)).
  destruct (Exact.Rltb (norm (vsub last_point first_point))
              (track_width self)) eqn:Hc.
  2:{ apply Rltb_false in Hc. split; [| reflexivity].
      intros (H & _). lra. }
  apply Rltb_true in Hc.
  destruct (1 <? length placed)%nat eqn:Hlen.
  2:{ apply Nat.ltb_ge in Hlen. split; [| reflexivity].
      intros (_ & H & _). lia. }
  apply Nat.ltb_lt in Hlen.
  destruct (Exact.Rltb (norm (vsub (center_point sl) (center_point s0)))
              (segment_length self)) eqn:Hn.
  - apply Rltb_true in Hn. cbn [andb]. split; [reflexivity |].
    intros Hnot. exfalso. apply Hnot.
    split; [assumption |]. split; [lia |]. exists s0, sl. auto.
  - apply Rltb_false in Hn. cbn [andb]. split; [| reflexivity].
    intros (_ & _ & f & l & Hf & Hl & Hlt).
    assert (f = s0) by congruence. assert (l = sl) by congruence.
    subst f l. lra.
Qed.

(** C2. In exact arithmetic, for a non-empty centerline and a segment
    length other than zero, the method returns, and what it returns is the
    placed boundaries renumbered, without the last one exactly when all
    three conditions hold: the last centerline point is closer than
    [track_width] to the first, at least two boundaries were placed, and
    the centers of the last and the first boundary are closer than
    [segment_length]. At most one boundary goes, always the last: every
    returned segment is the placed boundary of the same position, with a
    new number. *)
Theorem closed_loop_trim_drops_exactly_the_last (self : HeatTrackGenerator) :
  centerline_points self <> [] -> segment_length self <> 0 ->
  exists (ws ws1 : list warning) (self' : HeatTrackGenerator)
         (distances : list R) (num_segments : Z) (placed : list Segment)
         (first_point last_point : Point),
    cumulative_distances (centerline_points self) = ret distances /\
    count_segments self distances = ret num_segments /\
    place_boundaries self distances num_segments = (ws1, inr placed) /\
    divide_track_into_segments self = (ws, inr self') /\
    head (centerline_points self) = Some first_point /\
    last (centerline_points self) = Some last_point /\
    let dropped :=
      norm (vsub last_point first_point) < track_width self /\
      (2 <= length placed)%nat /\
      exists first_segment last_segment,
        head placed = Some first_segment /\
        last placed = Some last_segment /\
        norm (vsub (center_point last_segment) (center_point first_segment))
        < segment_length self in
    (dropped -> segment_divisions self' = renumber (removelast placed)) /\
    (~ dropped -> segment_divisions self' = renumber placed) /\
    (length placed - 1 <= length (segment_divisions self')
     <= length placed)%nat /\
    Forall2 same_but_number
      (take (length (segment_divisions self')) placed)
      (segment_divisions self').
Proof.
  intros Hne HS.
  destruct (arc_table_total (centerline_points self)) as (L & HL & HLpos).
  pose proof (length_arc_table _ Hne) as Hlen.
  assert (Hp0 : exists p0, head (centerline_points self) = Some p0).
  { destruct (centerline_points self); [congruence | eauto]. }
  destruct Hp0 as [p0 Hp0].
  destruct (last (centerline_points self)) as [pl |] eqn:Hpl.
  2:{ apply last_None in Hpl. congruence. }
  set (ds := arc_table (centerline_points self)) in *.
  set (n := Exact.Rtrunc (L / segment_length self)).
  set (placed := omap (placed_at self ds) (range (n + 1))).
  exists (flat_map (placement_warnings self ds) (range (n + 1))),
    (flat_map (placement_warnings self ds) (range (n + 1))),
    (set_segment_divisions self (renumber (trimmed self placed))),
    ds, n, placed, p0, pl.
  split; [apply cumulative_distances_run; assumption |].
  split; [apply (count_segments_run self ds L HL HS) |].
  split; [apply place_boundaries_run; assumption |].
  split; [apply (divide_track_into_segments_exact self L Hne HS HL) |].
  split; [assumption |].
  split; [reflexivity |].
  intros dropped. cbn [segment_divisions set_segment_divisions].
  destruct (trimmed_spec self placed p0 pl) as [Hyes Hno];
    [assumption | assumption |].
  fold dropped in Hyes, Hno.
  split; [intros H; rewrite (Hyes H); reflexivity |].
  split; [intros H; rewrite (Hno H); reflexivity |].
  assert (Hcases : trimmed self placed = removelast placed \/
                   trimmed self placed = placed).
  { apply trimmed_cases. }
  rewrite length_renumber.
  assert (Hrl : length (removelast placed) = (length placed - 1)%nat).
  { rewrite removelast_firstn_len, length_take. lia. }
  split.
  - destruct Hcases as [-> | ->]; [rewrite Hrl |]; lia.
  - replace (take (length (trimmed self placed)) placed)
      with (trimmed self placed); [apply renumber_same_but_number |].
    destruct Hcases as [-> | ->].
    + rewrite Hrl. rewrite removelast_firstn_len.
      replace (Init.Nat.pred (length placed)) with (length placed - 1)%nat
        by lia.
      reflexivity.
    + rewrite firstn_all. reflexivity.
Qed.

(** The same centerline: the method returns. *)
Lemma closed_loop_trim_drops_exactly_the_last_witness :
  centerline_points ExactSamples.unit_track <> [] /\
  segment_length ExactSamples.unit_track <> 0 /\
  exists (ws : list warning) (self' : HeatTrackGenerator),
    divide_track_into_segments ExactSamples.unit_track = (ws, inr self').
Proof.
  assert (H1 : centerline_points ExactSamples.unit_track <> [])
    by discriminate.
  assert (H2 : segment_length ExactSamples.unit_track <> 0) by (simpl; lra).
  split; [exact H1 |]. split; [exact H2 |].
  destruct (closed_loop_trim_drops_exactly_the_last
              ExactSamples.unit_track H1 H2)
    as (ws & _ & self' & _ & _ & _ & _ & _ & _ & _ & _ & Hrun & _).
  exists ws, self'. exact Hrun.
Defined.

(** *** The division by zero of the interpolation *)

(** C5. The code divides by zero. On the centerline
    [(0,0), (0,0), (1,0)] with segments of length 1 the boundary of arc
    distance 0 falls on the interval between the two coinciding points;
    the boundary is skipped, but the fraction [t] has been computed
    before the test of the direction, with the divisor
    [distances[1] - distances[0] = 0]: the run emits numpy's division
    warning, in exact arithmetic and in binary64, where only the boundary
    of arc distance 1 is returned. *)
Theorem repeated_start_divides_by_zero :
  warnings (divide_track_into_segments ExactSamples.repeated_start_track)
  = [RuntimeWarning_divide] /\
  divide_track_into_segments Float64Samples.repeated_start_track
  = ([RuntimeWarning_divide],
     inr (set_segment_divisions Float64Samples.repeated_start_track
            Float64Samples.repeated_start_segments)).
Proof.
  split.
  - set (self := ExactSamples.repeated_start_track).
    destruct (arc_table_total (centerline_points self)) as (L & HL & HLpos).
    rewrite (divide_track_into_segments_exact self L);
      [| discriminate | simpl; lra | assumption].
    unfold warnings. cbn [fst].
    rewrite Rtrunc_quotient; [| assumption | simpl; lra].
    apply (placement_warnings_exact self L (0, 0) (0, 0));
      [reflexivity | reflexivity | simpl; lra | assumption | reflexivity].
  - vm_compute. reflexivity.
Qed.

(** *** The cut line of a boundary *)

Lemma norm_unique (v : Point) (r : R) :
  0 <= r -> v.1 * v.1 + v.2 * v.2 = r * r -> norm v = r.
Proof.
  intros Hr Hv. rewrite norm_eq, Hv. apply sqrt_square. assumption.
Qed.

Lemma cut_line_geometry (c p1 p2 : Point) (w : R) :
  p1 <> p2 -> 0 <= w ->
  let n := norm (vsub p2 p1) in
  let perpendicular := (- ((vsub p2 p1).2 / n), (vsub p2 p1).1 / n) in
  let a := vsub c (vmul perpendicular (w / 2)) in
  let b := vadd c (vmul perpendicular (w / 2)) in
  norm (vsub a c) = w / 2 /\
  norm (vsub b c) = w / 2 /\
  c = midpoint a b /\
  dot (vsub b a) (vsub p2 p1) = 0.
Proof.
  intros Hne Hw n perpendicular a b.
  assert (Hn : 0 < n) by (apply distance_pos_iff; congruence).
  pose proof (norm_square (vsub p2 p1)) as Hn2. fold n in Hn2.
  destruct c as [cx cy], p1 as [x1 y1], p2 as [x2 y2].
  subst a b perpendicular. unfold vsub, vadd, vmul, midpoint, dot in *.
  cbn [fst snd add sub mul div opp of_Z Exact.arith] in *.
  set (dx := x2 - x1) in *. set (dy := y2 - y1) in *.
  assert (Huv : dy / n * (dy / n) + dx / n * (dx / n) = 1).
  { replace (dy / n * (dy / n) + dx / n * (dx / n))
      with ((dx * dx + dy * dy) / (n * n)) by (field; lra).
    rewrite <- Hn2. field. lra. }
  split; [| split; [| split]].
  - apply norm_unique; [lra |]. cbn [fst snd].
    replace ((cx - - (dy / n) * (w / 2) - cx) * (cx - - (dy / n) * (w / 2) - cx)
             + (cy - dx / n * (w / 2) - cy) * (cy - dx / n * (w / 2) - cy))
      with (w / 2 * (w / 2) * (dy / n * (dy / n) + dx / n * (dx / n)))
      by ring.
    rewrite Huv. ring.
  - apply norm_unique; [lra |]. cbn [fst snd].
    replace ((cx + - (dy / n) * (w / 2) - cx) * (cx + - (dy / n) * (w / 2) - cx)
             + (cy + dx / n * (w / 2) - cy) * (cy + dx / n * (w / 2) - cy))
      with (w / 2 * (w / 2) * (dy / n * (dy / n) + dx / n * (dx / n)))
      by ring.
    rewrite Huv. ring.
  - f_equal; lra.
  - field. lra.
Qed.

(** A placed boundary, with the interval it was placed on. *)
Lemma placed_at_inv (self : HeatTrackGenerator) (i : Z) (s : Segment) :
  placed_at self (arc_table (centerline_points self)) i = Some s ->
  exists j dj dj1 p1 p2,
    arc_table (centerline_points self) !! j = Some dj /\
    arc_table (centerline_points self) !! S j = Some dj1 /\
    centerline_points self !! j = Some p1 /\
    centerline_points self !! S j = Some p2 /\
    dj <= IZR i * segment_length self <= dj1 /\
    p1 <> p2 /\
    let target := IZR i * segment_length self in
    let n := norm (vsub p2 p1) in
    let c := vadd p1 (smul ((target - dj) / (dj1 - dj)) (vsub p2 p1)) in
    let perpendicular := (- ((vsub p2 p1).2 / n), (vsub p2 p1).1 / n) in
    s = mkSegment i c
          (vsub c (vmul perpendicular (track_width self / 2)))
          (vadd c (vmul perpendicular (track_width self / 2)))
          target None None.
Proof.
  unfold placed_at.
  change (mul (of_Z i) (segment_length self))
    with (IZR i * segment_length self).
  destruct (interval_of _ _) as [j |] eqn:Hfind; [| discriminate].
  intros Hs. unfold interval_of in Hfind.
  destruct (find_seq_first _ _ _ _ Hfind) as (Hc & _ & _).
  apply contains_target_true in Hc as (dj & dj1 & Hdj & Hdj1 & Hin).
  destruct (arc_table_adjacent _ _ _ _ Hdj Hdj1)
    as (p1 & p2 & Hp1 & Hp2 & _).
  assert (Hne : p1 <> p2).
  { intros ->. rewrite (boundary_at_None self _ i j p2 Hp1 Hp2) in Hs.
    discriminate. }
  rewrite (boundary_at_Some self _ i j dj dj1 p1 p2 Hdj Hdj1 Hp1 Hp2 Hne)
    in Hs.
  injection Hs as <-.
  exists j, dj, dj1, p1, p2. repeat split; try assumption; apply Hin.
Qed.

(** C4. In exact arithmetic, for a non-empty centerline, a segment length
    other than zero and a track width that is not negative, the method
    returns, and for every segment it returns: [line_start] and [line_end]
    are both at distance [track_width / 2] from [center_point];
    [center_point] is their midpoint, so the three are collinear with the
    center between the ends; and the segment's arc distance lies in an
    interval [[distances[j], distances[j+1]]] of the table whose direction
    [points[j+1] - points[j]] is not zero and is perpendicular to the line
    from [line_start] to [line_end]. *)
Theorem cut_lines_are_centered_perpendiculars (self : HeatTrackGenerator) :
  centerline_points self <> [] -> segment_length self <> 0 ->
  0 <= track_width self ->
  exists (ws : list warning) (self' : HeatTrackGenerator)
         (distances : list R),
    cumulative_distances (centerline_points self) = ret distances /\
    divide_track_into_segments self = (ws, inr self') /\
    forall s, s ∈ segment_divisions self' ->
      norm (vsub (line_start s) (center_point s)) = track_width self / 2 /\
      norm (vsub (line_end s) (center_point s)) = track_width self / 2 /\
      center_point s = midpoint (line_start s) (line_end s) /\
      exists j dj dj1 p1 p2,
        distances !! j = Some dj /\ distances !! S j = Some dj1 /\
        centerline_points self !! j = Some p1 /\
        centerline_points self !! S j = Some p2 /\
        dj <= distance s <= dj1 /\
        p1 <> p2 /\
        dot (vsub (line_end s) (line_start s)) (vsub p2 p1) = 0.
Proof.
  intros Hne HS Hw.
  destruct (arc_table_total (centerline_points self)) as (L & HL & HLpos).
  do 2 eexists. exists (arc_table (centerline_points self)).
  split; [apply cumulative_distances_run; assumption |].
  split; [apply (divide_track_into_segments_exact self L Hne HS HL) |].
  cbn [segment_divisions set_segment_divisions].
  intros s Hs.
  apply elem_of_renumber in Hs as (s0 & Hs0 & Hsame).
  apply elem_of_trimmed in Hs0.
  apply list_elem_of_omap in Hs0 as (i & _ & Hi).
  apply placed_at_inv in Hi
    as (j & dj & dj1 & p1 & p2 & Hdj & Hdj1 & Hp1 & Hp2 & Hin & Hpq & Hs0).
  cbv zeta in Hs0.
  destruct Hsame as (Hc & Ha & Hb & Hd & _).
  rewrite Hc, Ha, Hb, Hd. rewrite Hs0.
  cbn [center_point line_start line_end distance].
  destruct (cut_line_geometry
              (vadd p1 (smul ((IZR i * segment_length self - dj) / (dj1 - dj))
                          (vsub p2 p1)))
              p1 p2 (track_width self) Hpq Hw)
    as (G1 & G2 & G3 & G4).
  split; [exact G1 |]. split; [exact G2 |]. split; [exact G3 |].
  exists j, dj, dj1, p1, p2. repeat split; try assumption; apply Hin.
Qed.

(** The unit centerline with a track of width 2. *)
Lemma cut_lines_are_centered_perpendiculars_witness :
  centerline_points ExactSamples.unit_track <> [] /\
  segment_length ExactSamples.unit_track <> 0 /\
  0 <= track_width ExactSamples.unit_track /\
  exists (ws : list warning) (self' : HeatTrackGenerator),
    divide_track_into_segments ExactSamples.unit_track = (ws, inr self').
Proof.
  assert (H1 : centerline_points ExactSamples.unit_track <> [])
    by discriminate.
  assert (H2 : segment_length ExactSamples.unit_track <> 0) by (simpl; lra).
  assert (H3 : 0 <= track_width ExactSamples.unit_track) by (simpl; lra).
  split; [exact H1 |]. split; [exact H2 |]. split; [exact H3 |].
  destruct (cut_lines_are_centered_perpendiculars
              ExactSamples.unit_track H1 H2 H3)
    as (ws & self' & _ & _ & Hrun & _).
  exists ws, self'. exact Hrun.
Defined.

End ExactSegmenter.

(** ** The border offsets of degenerate centerlines *)

Section BorderRuns.
Context {num : Type} {arith : Arith num}.

Local Abbreviation Point := (Point num).
Local Abbreviation HeatTrackGenerator := (HeatTrackGenerator num).

Lemma manual_offset_single_point (self : HeatTrackGenerator)
    (offset_distance : num) (p : Point) :
  centerline_points self = [p] ->
  _manual_offset_calculation self offset_distance = raise IndexError.
Proof.
  intros Hp. unfold _manual_offset_calculation. rewrite Hp. reflexivity.
Qed.

Lemma manual_offset_no_point (self : HeatTrackGenerator)
    (offset_distance : num) :
  centerline_points self = [] ->
  _manual_offset_calculation self offset_distance
  = ret (set_borders self [] []).
Proof.
  intros Hp. unfold _manual_offset_calculation. rewrite Hp. reflexivity.
Qed.

Lemma generate_track_borders_single_point (geometry : Type)
    (LineString : list Point -> exn + geometry)
    (parallel_offset : geometry -> num -> side -> exn + offset_geometry num)
    (self : HeatTrackGenerator) (p : Point) :
  centerline_points self = [p] ->
  generate_track_borders LineString parallel_offset self
  = match LineString [p] with
    | inl e => raise e
    | inr centerline =>
        let offset_distance := div (track_width self) (of_Z 2) in
        match parallel_offset centerline offset_distance side_left,
              parallel_offset centerline offset_distance side_right with
        | inr left_offset, inr right_offset =>
            ret (set_borders self (coords_of left_offset)
                   (coords_of right_offset))
        | _, _ => raise IndexError
        end
    end.
Proof.
  intros Hp. unfold generate_track_borders. rewrite Hp.
  destruct (LineString [p]) as [e | c]; [reflexivity |].
  unfold lift. cbn [bind].
  rewrite (manual_offset_single_point self _ p Hp).
  destruct (parallel_offset c _ side_left) as [e1 | l]; [reflexivity |].
  destruct (parallel_offset c _ side_right) as [e2 | r]; reflexivity.
Qed.

End BorderRuns.

(** ** Degenerate centerlines *)

Section SinglePoint.
Local Open Scope R_scope.

(** C3 (amended). For a centerline of exactly one point and a segment
    length other than zero, in exact arithmetic:
    [divide_track_into_segments] does not fail, it returns the empty
    segment sequence and emits no warning; the fallback
    [_manual_offset_calculation] raises [IndexError] and returns no border;
    [generate_track_borders] raises the error of shapely's [LineString]
    when shapely rejects the single coordinate, raises [IndexError] when
    shapely's offset fails, and returns borders only when shapely itself
    supplies both of them. *)
Theorem single_point_centerline_outcomes (self : HeatTrackGenerator R)
    (p : Point R) (geometry : Type)
    (LineString : list (Point R) -> exn + geometry)
    (parallel_offset : geometry -> R -> side -> exn + offset_geometry R) :
  centerline_points self = [p] -> segment_length self <> 0 ->
  divide_track_into_segments self = ret (set_segment_divisions self []) /\
  (forall offset_distance,
     _manual_offset_calculation self offset_distance = raise IndexError) /\
  generate_track_borders LineString parallel_offset self
  = match LineString [p] with
    | inl e => raise e
    | inr centerline =>
        match parallel_offset centerline (track_width self / 2) side_left,
              parallel_offset centerline (track_width self / 2) side_right
        with
        | inr left_offset, inr right_offset =>
            ret (set_borders self (coords_of left_offset)
                   (coords_of right_offset))
        | _, _ => raise IndexError
        end
    end.
Proof.
  intros Hp HS. split; [| split].
  - apply (single_point_run self p); assumption.
  - intros off. apply (manual_offset_single_point self off p Hp).
  - rewrite (generate_track_borders_single_point geometry LineString
               parallel_offset self p Hp).
    reflexivity.
Qed.

(** The centerline [(0,0)], with a shapely that rejects it. *)
Lemma single_point_centerline_outcomes_witness :
  centerline_points ExactSamples.single_point_track = [(0, 0)] /\
  segment_length ExactSamples.single_point_track <> 0 /\
  divide_track_into_segments ExactSamples.single_point_track
  = ret ExactSamples.single_point_track.
Proof.
  assert (H1 : centerline_points ExactSamples.single_point_track = [(0, 0)])
    by reflexivity.
  assert (H2 : segment_length ExactSamples.single_point_track <> 0)
    by (simpl; lra).
  split; [exact H1 |]. split; [exact H2 |].
  exact (proj1 (single_point_centerline_outcomes
                  ExactSamples.single_point_track (0, 0) unit
                  (fun _ => inl (ShapelyError "one coordinate"))
                  (fun _ _ _ => inl (ShapelyError "no geometry")) H1 H2)).
Defined.

(** C3, as stated, fails: on a centerline of one point the segmenter
    raises nothing, in exact arithmetic and in binary64 alike. *)
Lemma segmenter_accepts_single_point :
  (~ exists ws e,
       divide_track_into_segments ExactSamples.single_point_track
       = (ws, inl e)) /\
  (~ exists ws e,
       divide_track_into_segments Float64Samples.single_point_track
       = (ws, inl e)).
Proof.
  split.
  - intros (ws & e & H).
    rewrite (single_point_run ExactSamples.single_point_track (0, 0)) in H;
      [discriminate | reflexivity | simpl; lra].
  - intros (ws & e & H). vm_compute in H. discriminate.
Qed.

End SinglePoint.

(** ** The fallback in exact arithmetic *)

Section ExactFallback.
Local Open Scope R_scope.

Local Abbreviation Point := (Point R).
Local Abbreviation HeatTrackGenerator := (HeatTrackGenerator R).

Lemma zero_tangent_exact (points : list Point) (i : nat) (d : Point) :
  tangent points i = Some d ->
  (zero_tangent points i = true <-> d = (0, 0)) /\
  (zero_tangent points i = false <-> d <> (0, 0)).
Proof.
  intros Ht. unfold zero_tangent. rewrite Ht.
  change (is_zero d.1 && is_zero d.2)
    with (Exact.Reqb d.1 0 && Exact.Reqb d.2 0).
  destruct d as [x y]. cbn [fst snd].
  destruct (Req_dec_T x 0) as [Hx | Hx]; destruct (Req_dec_T y 0) as [Hy | Hy].
  - rewrite (proj2 (Reqb_true x 0) Hx), (proj2 (Reqb_true y 0) Hy).
    subst. cbn [andb]. repeat split; intros; congruence.
  - rewrite (proj2 (Reqb_true x 0) Hx), (proj2 (Reqb_false y 0) Hy).
    cbn [andb]. repeat split; intros; congruence.
  - rewrite (proj2 (Reqb_false x 0) Hx). cbn [andb].
    repeat split; intros; congruence.
  - rewrite (proj2 (Reqb_false x 0) Hx). cbn [andb].
    repeat split; intros; congruence.
Qed.

Lemma border_pair_exact (points : list Point) (offset_distance : R)
    (i : nat) (current d : Point) :
  points !! i = Some current -> tangent points i = Some d ->
  (d <> (0, 0) ->
   border_pair points offset_distance i
   = Some (vadd current
             (vmul (- (d.2 / norm d), d.1 / norm d) offset_distance),
           vsub current
             (vmul (- (d.2 / norm d), d.1 / norm d) offset_distance))) /\
  (d = (0, 0) -> border_pair points offset_distance i = None).
Proof.
  intros Hc Ht. unfold border_pair. rewrite Hc, Ht. cbn [mbind option_bind].
  change (ltb (of_Z 0) (norm d)) with (Exact.Rltb 0 (norm d)).
  split.
  - intros Hd. rewrite (proj2 (Rltb_true _ _)); [reflexivity |].
    apply norm_pos_iff. assumption.
  - intros Hd. rewrite (proj2 (Rltb_false _ _)); [reflexivity |].
    apply norm_zero_iff in Hd. lra.
Qed.

(** The pairs emitted, index by index. *)
Lemma border_pairs_kept (points : list Point) (offset_distance : R) :
  (2 <= length points)%nat ->
  Forall2
    (fun i lr =>
       exists current d,
         points !! i = Some current /\ tangent points i = Some d /\
         d <> (0, 0) /\
         lr = (vadd current
                 (vmul (- (d.2 / norm d), d.1 / norm d) offset_distance),
               vsub current
                 (vmul (- (d.2 / norm d), d.1 / norm d) offset_distance)))
    (kept_indices points)
    (omap (border_pair points offset_distance) (seq 0 (length points))).
Proof.
  intros Hlen. unfold kept_indices.
  assert (Hall : forall i, i ∈ seq 0 (length points) ->
                           (i < length points)%nat).
  { intros i Hi. apply list_elem_of_In, in_seq in Hi. lia. }
  induction (seq 0 (length points)) as [| i l IH]; [constructor |].
  assert (Hi : (i < length points)%nat) by (apply Hall; left).
  specialize (IH (fun j Hj => Hall j ltac:(right; exact Hj))).
  destruct (lookup_lt_is_Some_2 points i Hi) as [current Hc].
  destruct (tangent_is_Some points i Hlen Hi) as [d Ht].
  destruct (zero_tangent_exact points i d Ht) as [Hz1 Hz2].
  destruct (border_pair_exact points offset_distance i current d Hc Ht)
    as [Hb1 Hb2].
  cbn [List.filter]. rewrite omap_head.
  destruct (zero_tangent points i) eqn:Hz; cbn [negb].
  - rewrite Hb2 by (apply Hz1; reflexivity). exact IH.
  - assert (Hd : d <> (0, 0)) by (apply Hz2; reflexivity).
    rewrite (Hb1 Hd). constructor; [| exact IH].
    exists current, d. auto.
Qed.

Lemma length_kept_indices (points : list Point) :
  (length (kept_indices points) <= length points)%nat.
Proof.
  unfold kept_indices.
  etransitivity; [apply List.filter_length_le |].
  rewrite length_seq. reflexivity.
Qed.

Lemma mirror_geometry (c d : Point) (w : R) :
  d <> (0, 0) -> 0 <= w ->
  let perpendicular := (- (d.2 / norm d), d.1 / norm d) in
  let l := vadd c (vmul perpendicular (w / 2)) in
  let r := vsub c (vmul perpendicular (w / 2)) in
  midpoint l r = c /\ norm (vsub l r) = w.
Proof.
  intros Hd Hw perpendicular l r.
  assert (Hn : 0 < norm d) by (apply norm_pos_iff; assumption).
  pose proof (norm_square d) as Hn2.
  destruct c as [cx cy], d as [dx dy].
  set (n := norm (dx, dy)) in *.
  subst l r perpendicular. unfold vsub, vadd, vmul, midpoint.
  cbn [fst snd add sub mul div opp of_Z Exact.arith] in *.
  assert (Huv : dy / n * (dy / n) + dx / n * (dx / n) = 1).
  { replace (dy / n * (dy / n) + dx / n * (dx / n))
      with ((dx * dx + dy * dy) / (n * n)) by (field; lra).
    rewrite <- Hn2. field. lra. }
  split.
  - f_equal; lra.
  - apply norm_unique; [lra |]. cbn [fst snd].
    replace ((cx + - (dy / n) * (w / 2) - (cx - - (dy / n) * (w / 2)))
             * (cx + - (dy / n) * (w / 2) - (cx - - (dy / n) * (w / 2)))
             + (cy + dx / n * (w / 2) - (cy - dx / n * (w / 2)))
               * (cy + dx / n * (w / 2) - (cy - dx / n * (w / 2))))
      with (w * w * (dy / n * (dy / n) + dx / n * (dx / n))) by lra.
    rewrite Huv. ring.
Qed.

(** What the fallback returns for a centerline of at least two points:
    one pair of border points for each kept index, in order. *)
Lemma manual_offset_exact (self : HeatTrackGenerator) (offset_distance : R) :
  (2 <= length (centerline_points self))%nat ->
  exists self',
    _manual_offset_calculation self offset_distance = ret self' /\
    length (left_border_points self') = length (right_border_points self') /\
    Forall2
      (fun i lr =>
         exists current d,
           centerline_points self !! i = Some current /\
           tangent (centerline_points self) i = Some d /\
           d <> (0, 0) /\
           lr = (vadd current
                   (vmul (- (d.2 / norm d), d.1 / norm d) offset_distance),
                 vsub current
                   (vmul (- (d.2 / norm d), d.1 / norm d) offset_distance)))
      (kept_indices (centerline_points self))
      (zip (left_border_points self') (right_border_points self')).
Proof.
  intros Hlen. eexists. split; [| split].
  - apply (manual_offset_run exact_positive_nonzero self offset_distance Hlen).
  - cbn [left_border_points right_border_points set_borders].
    rewrite !length_fmap. reflexivity.
  - cbn [left_border_points right_border_points set_borders].
    rewrite zip_fst_snd.
    apply border_pairs_kept. assumption.
Qed.

Lemma manual_offset_lookup (self self' : HeatTrackGenerator)
    (offset_distance : R) (k i : nat) :
  (2 <= length (centerline_points self))%nat ->
  _manual_offset_calculation self offset_distance = ret self' ->
  kept_indices (centerline_points self) !! k = Some i ->
  exists current d,
    centerline_points self !! i = Some current /\
    tangent (centerline_points self) i = Some d /\
    d <> (0, 0) /\
    left_border_points self' !! k
    = Some (vadd current
              (vmul (- (d.2 / norm d), d.1 / norm d) offset_distance)) /\
    right_border_points self' !! k
    = Some (vsub current
              (vmul (- (d.2 / norm d), d.1 / norm d) offset_distance)).
Proof.
  intros Hlen Hrun Hk.
  destruct (manual_offset_exact self offset_distance Hlen)
    as (self'' & Hrun' & _ & Hpairs).
  rewrite Hrun in Hrun'. injection Hrun' as <-.
  destruct (Forall2_lookup_l _ _ _ _ _ Hpairs Hk)
    as (lr & Hlr & current & d & Hc & Ht & Hd & ->).
  apply lookup_zip_with_Some in Hlr as (l & r & Heq & Hl & Hr).
  injection Heq as <- <-.
  exists current, d. auto.
Qed.

Lemma elem_of_kept_indices (points : list Point) (i : nat) :
  (2 <= length points)%nat ->
  i ∈ kept_indices points <->
  (i < length points)%nat /\
  exists d, tangent points i = Some d /\ d <> (0, 0).
Proof.
  intros Hlen. unfold kept_indices.
  rewrite list_elem_of_In, filter_In, in_seq. split.
  - intros [Hi Hz]. split; [lia |].
    destruct (tangent_is_Some points i Hlen ltac:(lia)) as [d Ht].
    exists d. split; [assumption |].
    apply (zero_tangent_exact points i d Ht).
    apply negb_true_iff. assumption.
  - intros (Hi & d & Ht & Hd). split; [lia |].
    apply negb_true_iff. apply (zero_tangent_exact points i d Ht). assumption.
Qed.

(** C6 (amended). In exact arithmetic, for every centerline of at least
    two points the fallback completes without an error and without a
    division by zero. It emits a left and a right border point for exactly
    the indices whose estimated tangent (the difference of the two
    neighbours for an interior index, the difference with the one
    neighbour at the two ends) is not the zero vector, in order, each at
    the offset distance along the normalised perpendicular; so each border
    has at most as many points as the centerline. *)
Theorem fallback_omits_exactly_the_zero_tangents
    (self : HeatTrackGenerator) (offset_distance : R) :
  (2 <= length (centerline_points self))%nat ->
  exists self',
    _manual_offset_calculation self offset_distance = ret self' /\
    length (left_border_points self')
    = length (kept_indices (centerline_points self)) /\
    length (right_border_points self')
    = length (kept_indices (centerline_points self)) /\
    (length (kept_indices (centerline_points self))
     <= length (centerline_points self))%nat /\
    (forall i,
       i ∈ kept_indices (centerline_points self) <->
       (i < length (centerline_points self))%nat /\
       exists d, tangent (centerline_points self) i = Some d /\
                 d <> (0, 0)) /\
    forall k i,
      kept_indices (centerline_points self) !! k = Some i ->
      exists current d,
        centerline_points self !! i = Some current /\
        tangent (centerline_points self) i = Some d /\
        d <> (0, 0) /\
        left_border_points self' !! k
        = Some (vadd current
                  (vmul (- (d.2 / norm d), d.1 / norm d) offset_distance)) /\
        right_border_points self' !! k
        = Some (vsub current
                  (vmul (- (d.2 / norm d), d.1 / norm d) offset_distance)).
Proof.
  intros Hlen.
  destruct (manual_offset_exact self offset_distance Hlen)
    as (self' & Hrun & Hsame & Hpairs).
  pose proof (Forall2_length _ _ _ Hpairs) as Hcount.
  rewrite length_zip_with, <- Hsame, Nat.min_id in Hcount.
  exists self'. split; [exact Hrun |].
  split; [congruence |]. split; [congruence |].
  split; [apply length_kept_indices |].
  split; [intros i; apply elem_of_kept_indices; assumption |].
  intros k i Hk.
  apply (manual_offset_lookup self self' offset_distance k i Hlen Hrun Hk).
Qed.

(** The fallback on the centerline [(0,0), (1,0), (1,0), (2,0)]. *)
Lemma fallback_omits_exactly_the_zero_tangents_witness :
  (2 <= length (centerline_points ExactSamples.repeated_interior_track))%nat /\
  exists self',
    _manual_offset_calculation ExactSamples.repeated_interior_track 1
    = ret self'.
Proof.
  assert (H : (2 <= length (centerline_points
                              ExactSamples.repeated_interior_track))%nat)
    by (simpl; lia).
  split; [exact H |].
  destruct (fallback_omits_exactly_the_zero_tangents
              ExactSamples.repeated_interior_track 1 H) as (self' & Hrun & _).
  exists self'. exact Hrun.
Defined.

(** C10. In exact arithmetic and for a track width that is not negative,
    whenever the fallback at the offset [track_width / 2] returns, the left
    and the right border have the same length, and the two points of every
    emitted position mirror each other through the centerline point of the
    index they were computed at: that point is their midpoint, and their
    distance is [track_width]. *)
Theorem fallback_borders_mirror_each_other
    (self self' : HeatTrackGenerator) (ws : list warning) :
  0 <= track_width self ->
  _manual_offset_calculation self (track_width self / 2) = (ws, inr self') ->
  length (left_border_points self') = length (right_border_points self') /\
  length (left_border_points self')
  = length (kept_indices (centerline_points self)) /\
  forall k i,
    kept_indices (centerline_points self) !! k = Some i ->
    exists current left_point right_point,
      centerline_points self !! i = Some current /\
      left_border_points self' !! k = Some left_point /\
      right_border_points self' !! k = Some right_point /\
      midpoint left_point right_point = current /\
      norm (vsub left_point right_point) = track_width self.
Proof.
  intros Hw Hrun.
  destruct (centerline_points self) as [| p0 [| p1 rest]] eqn:Hpts.
  - (* no point: the loop does not run *)
    rewrite (manual_offset_no_point self _ Hpts) in Hrun.
    injection Hrun as _ <-. repeat split. intros k i Hi. destruct k; discriminate.
  - (* one point: the index 1 is out of range *)
    rewrite (manual_offset_single_point self _ p0 Hpts) in Hrun.
    discriminate.
  - rewrite <- Hpts in *.
    assert (Hlen : (2 <= length (centerline_points self))%nat)
      by (rewrite Hpts; simpl; lia).
    destruct (manual_offset_exact self (track_width self / 2) Hlen)
      as (self'' & Hrun' & Hsame & Hpairs).
    rewrite Hrun in Hrun'. injection Hrun' as Hws <-. subst ws.
    pose proof (Forall2_length _ _ _ Hpairs) as Hcount.
    rewrite length_zip_with, <- Hsame, Nat.min_id in Hcount.
    split; [exact Hsame |]. split; [congruence |].
    intros k i Hi.
    destruct (manual_offset_lookup self self' _ k i Hlen Hrun Hi)
      as (current & d & Hc & _ & Hd & Hleft & Hright).
    destruct (mirror_geometry current d (track_width self) Hd Hw) as [Hm Hn].
    do 3 eexists. split; [exact Hc |].
    split; [exact Hleft |]. split; [exact Hright |].
    split; [exact Hm | exact Hn].
Qed.

(** The same centerline at the offset of a track of width 2. *)
Lemma fallback_borders_mirror_each_other_witness :
  0 <= track_width ExactSamples.repeated_interior_track /\
  exists self',
    _manual_offset_calculation ExactSamples.repeated_interior_track
      (track_width ExactSamples.repeated_interior_track / 2)
    = ret self' /\
    length (left_border_points self') = length (right_border_points self').
Proof.
  assert (H1 : 0 <= track_width ExactSamples.repeated_interior_track)
    by (simpl; lra).
  split; [exact H1 |].
  destruct (manual_offset_exact ExactSamples.repeated_interior_track
              (track_width ExactSamples.repeated_interior_track / 2)
              ltac:(simpl; lia))
    as (self' & Hrun & _).
  exists self'. split; [exact Hrun |].
  exact (proj1 (fallback_borders_mirror_each_other
                  ExactSamples.repeated_interior_track self' [] H1 Hrun)).
Defined.

(** Deciding the equality tests of a concrete input. *)
Local Ltac decide_Reqb :=
  repeat match goal with
         | |- context [Exact.Reqb ?a ?b] =>
             first [ rewrite (proj2 (Reqb_true a b)) by lra
                   | rewrite (proj2 (Reqb_false a b)) by lra ]
         end.

Lemma kept_indices_repeated_interior :
  kept_indices (centerline_points ExactSamples.repeated_interior_track)
  = [0; 1; 2; 3]%nat.
Proof.
  unfold kept_indices, zero_tangent, tangent.
  cbn -[Exact.Reqb Rminus]. decide_Reqb. reflexivity.
Qed.

Lemma duplicate_adjacent_repeated_interior :
  List.filter
    (fun i => negb (duplicate_adjacent
                      (centerline_points ExactSamples.repeated_interior_track)
                      i))
    (seq 0 (length (centerline_points ExactSamples.repeated_interior_track)))
  = [0; 3]%nat.
Proof.
  unfold duplicate_adjacent, same_point.
  cbn -[Exact.Reqb Rminus]. decide_Reqb. reflexivity.
Qed.

(** C6, as stated, fails: on the centerline [(0,0), (1,0), (1,0), (2,0)]
    the two middle samples coincide, yet the central difference at each of
    them is [(1,0)], not zero, and the fallback emits a border point at all
    four indices instead of omitting the two next to the repetition; in
    binary64 as well. *)
Lemma fallback_keeps_repeated_interior_samples :
  ~ omits_exactly_duplicate_adjacent ExactSamples.repeated_interior_track 1 /\
  ~ omits_exactly_duplicate_adjacent Float64Samples.repeated_interior_track
      PrimFloat.one.
Proof.
  split.
  - intros (self' & Hrun & Hlen).
    destruct (manual_offset_exact ExactSamples.repeated_interior_track 1
                ltac:(simpl; lia)) as (self'' & Hrun' & Hsame & Hpairs).
    rewrite Hrun in Hrun'. injection Hrun' as <-.
    pose proof (Forall2_length _ _ _ Hpairs) as Hcount.
    rewrite length_zip_with, <- Hsame, Nat.min_id in Hcount.
    rewrite <- Hcount, kept_indices_repeated_interior,
      duplicate_adjacent_repeated_interior in Hlen.
    discriminate.
  - intros (self' & Hrun & Hlen).
    vm_compute in Hrun. injection Hrun as <-.
    vm_compute in Hlen. discriminate.
Qed.

End ExactFallback.

(** * Further properties of the segmenter *)

Section SegmenterMore.
Local Open Scope R_scope.

Local Abbreviation Point := (Point R).
Local Abbreviation Segment := (Segment R).
Local Abbreviation HeatTrackGenerator := (HeatTrackGenerator R).

Lemma arc_table_monotone (points : list Point) (j k : nat) (a b : R) :
  (j <= k)%nat ->
  arc_table points !! j = Some a -> arc_table points !! k = Some b ->
  a <= b.
Proof.
  intros Hjk. induction Hjk as [| k Hjk IH] in b |- *; intros Ha Hb.
  - assert (a = b) by congruence. lra.
  - destruct (lookup_lt_is_Some_2 (arc_table points) k) as [c Hc].
    { pose proof (lookup_lt_Some _ _ _ Hb). lia. }
    destruct (arc_table_adjacent points k c b Hc Hb)
      as (_ & _ & _ & _ & _ & Hle & _).
    specialize (IH c Ha Hc). lra.
Qed.

(** The arc-length table of lines 179-184: one entry for each centerline
    point, the first one 0, each next one the previous one plus the
    distance between the two points; so the table never decreases. *)
Theorem cumulative_distances_table (points : list Point) :
  points <> [] ->
  exists distances,
    cumulative_distances points = ret distances /\
    length distances = length points /\
    distances !! 0%nat = Some 0 /\
    (forall j a b,
       distances !! j = Some a -> distances !! S j = Some b ->
       exists p q, points !! j = Some p /\ points !! S j = Some q /\
                   b = a + norm (vsub q p)) /\
    (forall j k a b,
       (j <= k)%nat -> distances !! j = Some a -> distances !! k = Some b ->
       a <= b).
Proof.
  intros Hne. exists (arc_table points).
  split; [apply cumulative_distances_run; assumption |].
  split; [apply length_arc_table; assumption |].
  split; [apply arc_table_first |].
  split.
  - intros j a b Ha Hb.
    destruct (arc_table_adjacent points j a b Ha Hb)
      as (p & q & Hp & Hq & Hstep & _).
    exists p, q. auto.
  - intros j k a b. apply arc_table_monotone.
Qed.

(** The table of the unit centerline. *)
Lemma cumulative_distances_table_witness :
  centerline_points ExactSamples.unit_track <> [] /\
  exists distances,
    cumulative_distances (centerline_points ExactSamples.unit_track)
    = ret distances /\
    length distances = 2%nat.
Proof.
  assert (H : centerline_points ExactSamples.unit_track <> [])
    by discriminate.
  split; [exact H |].
  destruct (cumulative_distances_table _ H) as (ds & Hrun & Hlen & _).
  exists ds. split; [exact Hrun | exact Hlen].
Defined.

(** With a segment length of zero the quotient [total_length / 0] cannot
    be turned into an integer. *)
Lemma count_segments_zero_length (self : HeatTrackGenerator) (ds : list R)
    (L : R) :
  last ds = Some L -> segment_length self = 0 ->
  exists ws e, count_segments self ds = (ws, inl e) /\ e <> IndexError.
Proof.
  intros HL HS. unfold count_segments.
  rewrite (item_last _ _ HL), bind_ret.
  unfold int_quotient_py, int_quotient. rewrite HS.
  change (is_zero (0 : R)) with (Exact.Reqb 0 0).
  rewrite (proj2 (Reqb_true 0 0) eq_refl).
  destruct (length ds =? 1)%nat.
  - do 2 eexists. split; [reflexivity | discriminate].
  - cbn. destruct (Exact.Reqb L 0);
      do 2 eexists; (split; [reflexivity | discriminate]).
Qed.

(** [divide_track_into_segments] returns exactly when the centerline is
    not empty and the segment length is not zero; whatever it raises
    otherwise, it is never an [IndexError]: no list is read out of
    range. *)
Theorem segmenter_returns_iff (self : HeatTrackGenerator) :
  ((exists ws self', divide_track_into_segments self = (ws, inr self')) <->
   centerline_points self <> [] /\ segment_length self <> 0) /\
  (centerline_points self = [] ->
   divide_track_into_segments self
   = raise (ValueError "No centerline points available. Parse SVG first.")) /\
  (forall ws, divide_track_into_segments self <> (ws, inl IndexError)).
Proof.
  assert (Hzero : centerline_points self <> [] -> segment_length self = 0 ->
                  exists ws e, divide_track_into_segments self = (ws, inl e)
                               /\ e <> IndexError).
  { intros Hne HS.
    destruct (arc_table_total (centerline_points self)) as (L & HL & _).
    destruct (count_segments_zero_length self _ L HL HS)
      as (ws & e & Hcount & He).
    exists ws, e. split; [| exact He].
    rewrite divide_track_into_segments_run by assumption.
    rewrite Hcount. reflexivity. }
  assert (Hnil : centerline_points self = [] ->
                 divide_track_into_segments self
                 = raise (ValueError
                            "No centerline points available. Parse SVG first.")).
  { intros Hnil. unfold divide_track_into_segments. rewrite Hnil.
    reflexivity. }
  assert (Hok : centerline_points self <> [] -> segment_length self <> 0 ->
                exists ws self',
                  divide_track_into_segments self = (ws, inr self')).
  { intros Hne HS.
    destruct (arc_table_total (centerline_points self)) as (L & HL & _).
    do 2 eexists.
    apply (divide_track_into_segments_exact self L Hne HS HL). }
  split; [| split].
  - split.
    + intros (ws & self' & Hrun). split.
      * intros Hnil'. rewrite (Hnil Hnil') in Hrun. discriminate.
      * intros HS.
        destruct (decide (centerline_points self = [])) as [Hn | Hne].
        { rewrite (Hnil Hn) in Hrun. discriminate. }
        destruct (Hzero Hne HS) as (ws' & e & Hrun' & _). congruence.
    + intros [Hne HS]. apply Hok; assumption.
  - exact Hnil.
  - intros ws Hrun.
    destruct (centerline_points self) as [| p0 pts] eqn:Hpts.
    { rewrite (Hnil eq_refl) in Hrun. discriminate. }
    destruct (Req_dec_T (segment_length self) 0) as [HS | HS].
    + destruct (Hzero ltac:(discriminate) HS) as (ws' & e & Hrun' & He).
      congruence.
    + destruct (Hok ltac:(discriminate) HS) as (ws' & self' & Hrun').
      congruence.
Qed.

End SegmenterMore.

(** ** What the segmenter reads and what it writes *)

Section SegmenterFrame.
Context {num : Type} {arith : Arith num}.

Local Abbreviation Point := (Point num).
Local Abbreviation Segment := (Segment num).
Local Abbreviation HeatTrackGenerator := (HeatTrackGenerator num).

(** Two objects with the same parameters and the same centerline run
    alike. *)
Lemma divide_track_into_segments_ext (self1 self2 : HeatTrackGenerator) :
  track_width self1 = track_width self2 ->
  segment_length self1 = segment_length self2 ->
  centerline_points self1 = centerline_points self2 ->
  divide_track_into_segments self2
  = match divide_track_into_segments self1 with
    | (ws, inl e) => (ws, inl e)
    | (ws, inr self') =>
        (ws, inr (set_segment_divisions self2 (segment_divisions self')))
    end.
Proof.
  destruct self1 as [w S0 c l1 r1 g1], self2 as [w2 S2 c2 l2 r2 g2].
  cbn [track_width segment_length centerline_points].
  intros <- <- <-.
  destruct c as [| p0 pts]; [reflexivity |].
  rewrite !divide_track_into_segments_run by discriminate.
  cbn [centerline_points]. cbv zeta.
  change (count_segments (mkGenerator w S0 (p0 :: pts) l2 r2 g2))
    with (count_segments (mkGenerator w S0 (p0 :: pts) l1 r1 g1)).
  destruct (count_segments (mkGenerator w S0 (p0 :: pts) l1 r1 g1)
              (arc_table (p0 :: pts))) as [ws [e | n]];
    reflexivity.
Qed.

(** The segmenter reads the track width, the segment length and the
    centerline and nothing else, and writes [segment_divisions] and nothing
    else: the object it returns differs from [self] in that field only, and
    an object with the same three inputs, whatever its borders and its
    former segments (marked as curves or dragged), gets the same
    segments and the same warnings. *)
Theorem segmenter_reads_inputs_and_writes_segments
    (self1 self1' self2 : HeatTrackGenerator) (ws : list warning) :
  track_width self1 = track_width self2 ->
  segment_length self1 = segment_length self2 ->
  centerline_points self1 = centerline_points self2 ->
  divide_track_into_segments self1 = (ws, inr self1') ->
  self1' = set_segment_divisions self1 (segment_divisions self1') /\
  divide_track_into_segments self2
  = (ws, inr (set_segment_divisions self2 (segment_divisions self1'))).
Proof.
  intros Hw HS Hc Hrun. split.
  - apply divide_track_into_segments_inv in Hrun
      as (ds & n & placed & ws0 & ws1 & _ & _ & _ & _ & ->).
    reflexivity.
  - rewrite (divide_track_into_segments_ext self1 self2 Hw HS Hc), Hrun.
    reflexivity.
Qed.

End SegmenterFrame.

(** Running the segmenter again on the registered straight track, whose
    segments are already there, gives the same three segments. *)
Lemma segmenter_reads_inputs_and_writes_segments_witness :
  divide_track_into_segments Float64Samples.straight_track
  = ([], inr (set_segment_divisions Float64Samples.straight_track
                Float64Samples.straight_segments)) /\
  divide_track_into_segments Float64Samples.sample_generator
  = ([], inr Float64Samples.sample_generator).
Proof.
  assert (H : divide_track_into_segments Float64Samples.straight_track
              = ([], inr (set_segment_divisions Float64Samples.straight_track
                            Float64Samples.straight_segments)))
    by (vm_compute; reflexivity).
  split; [exact H |].
  exact (proj2 (segmenter_reads_inputs_and_writes_segments
                  Float64Samples.straight_track _
                  Float64Samples.sample_generator [] eq_refl eq_refl eq_refl
                  H)).
Defined.

(** ** The arc positions of the returned segments *)

Section SegmenterPositions.
Local Open Scope R_scope.

Local Abbreviation Point := (Point R).
Local Abbreviation Segment := (Segment R).
Local Abbreviation HeatTrackGenerator := (HeatTrackGenerator R).

Lemma StronglySorted_seqZ (m : Z) (k : nat) :
  StronglySorted Z.lt (seqZ m (Z.of_nat k)).
Proof.
  revert m. induction k as [| k IH]; intros m; [constructor |].
  rewrite seqZ_cons by lia.
  replace (Z.pred (Z.of_nat (S k))) with (Z.of_nat k) by lia.
  constructor; [apply IH |].
  apply Forall_forall. intros j Hj. apply elem_of_seqZ in Hj. lia.
Qed.

Lemma omap_sorted (f : Z -> option R) (g : Z -> R) (l : list Z) :
  StronglySorted Z.lt l ->
  (forall i d, f i = Some d -> d = g i) ->
  (forall i j, (i < j)%Z -> g i < g j) ->
  StronglySorted Rlt (omap f l).
Proof.
  intros Hl Hf Hg. induction Hl as [| i l Hl IH Hi]; [constructor |].
  rewrite omap_head. destruct (f i) as [d |] eqn:Hd; [| exact IH].
  constructor; [exact IH |].
  apply Forall_forall. intros d' Hd'.
  apply list_elem_of_omap in Hd' as (j & Hj & Hfj).
  rewrite (Hf i d Hd), (Hf j d' Hfj). apply Hg.
  rewrite Forall_forall in Hi. apply Hi. assumption.
Qed.

Lemma StronglySorted_removelast (l : list R) :
  StronglySorted Rlt l -> StronglySorted Rlt (removelast l).
Proof.
  intros Hl. rewrite removelast_firstn_len.
  rewrite <- (take_drop (Init.Nat.pred (length l)) l) in Hl.
  apply StronglySorted_app_1_l in Hl. exact Hl.
Qed.

Lemma fmap_removelast {A B} (f : A -> B) (l : list A) :
  f <$> removelast l = removelast (f <$> l).
Proof.
  rewrite !removelast_firstn_len, fmap_take, length_fmap. reflexivity.
Qed.

Lemma renumber_distances (l : list Segment) :
  distance <$> renumber l = distance <$> l.
Proof.
  apply list_eq. intros k. unfold renumber.
  rewrite !list_lookup_fmap, list_lookup_imap.
  destruct (l !! k); reflexivity.
Qed.

(** What the loop appends for the index [i] carries that index and the
    target distance [i * segment_length], and no curve mark. *)
Lemma placed_at_fields (self : HeatTrackGenerator) (ds : list R) (i : Z)
    (s : Segment) :
  placed_at self ds i = Some s ->
  segment_number s = i /\ distance s = IZR i * segment_length self /\
  is_curve s = None /\ speed_limit s = None.
Proof.
  unfold placed_at. destruct (interval_of _ _) as [j |]; [| discriminate].
  unfold boundary_at.
  destruct (ds !! j), (ds !! S j), (centerline_points self !! j),
    (centerline_points self !! S j); try discriminate.
  destruct (ltb _ _); [| discriminate].
  intros [= <-]. repeat split.
Qed.

Lemma scaled_index_within (L S0 : R) (i : Z) :
  0 <= L -> 0 < S0 -> (0 <= i <= Int_part (L / S0))%Z ->
  0 <= IZR i * S0 <= L.
Proof.
  intros HL HS [Hi1 Hi2].
  pose proof (base_Int_part (L / S0)) as [Hfl _].
  apply IZR_le in Hi1, Hi2.
  assert (IZR i <= L / S0) by lra.
  split.
  - apply Rmult_le_pos; lra.
  - replace L with (L / S0 * S0) by (field; lra).
    apply Rmult_le_compat_r; lra.
Qed.

(** The arc distances of the returned segments. In exact arithmetic, for
    a non-empty centerline of total length [L] and a segment length
    [S > 0], every returned segment sits at a multiple [i * S] of the
    segment length with [0 <= i <= floor(L/S)], hence within [[0, L]], and
    the distances strictly increase along the returned sequence. *)
Theorem segment_distances_increase (self : HeatTrackGenerator) :
  centerline_points self <> [] -> 0 < segment_length self ->
  exists (ws : list warning) (self' : HeatTrackGenerator)
         (distances : list R) (L : R),
    cumulative_distances (centerline_points self) = ret distances /\
    last distances = Some L /\
    divide_track_into_segments self = (ws, inr self') /\
    StronglySorted Rlt (distance <$> segment_divisions self') /\
    forall s, s ∈ segment_divisions self' ->
      0 <= distance s <= L /\
      exists i, (0 <= i <= Int_part (L / segment_length self))%Z /\
                distance s = IZR i * segment_length self.
Proof.
  intros Hne HS.
  destruct (arc_table_total (centerline_points self)) as (L & HL & HLpos).
  do 2 eexists. exists (arc_table (centerline_points self)), L.
  split; [apply cumulative_distances_run; assumption |].
  split; [assumption |].
  split; [apply (divide_track_into_segments_exact self L Hne); [lra | exact HL] |].
  cbn [segment_divisions set_segment_divisions].
  rewrite Rtrunc_quotient by assumption.
  set (n := Int_part (L / segment_length self)).
  set (ds := arc_table (centerline_points self)).
  split.
  - rewrite renumber_distances.
    assert (Hplaced : StronglySorted Rlt
                        (distance <$> omap (placed_at self ds) (range (n + 1)))).
    { rewrite list_fmap_omap.
      apply (omap_sorted _ (fun i => IZR i * segment_length self)).
      - unfold range.
        destruct (Z.le_gt_cases 0 (n + 1)) as [Hn | Hn].
        + rewrite <- (Z2Nat.id (n + 1) Hn). apply StronglySorted_seqZ.
        + rewrite seqZ_nil by lia. constructor.
      - intros i d Hd.
        destruct (placed_at self ds i) as [s |] eqn:Hs; [| discriminate].
        injection Hd as <-. apply (placed_at_fields self ds i s Hs).
      - intros i j Hij. apply Rmult_lt_compat_r; [assumption |].
        apply IZR_lt. assumption. }
    destruct (trimmed_cases self (omap (placed_at self ds) (range (n + 1))))
      as [-> | ->]; [| exact Hplaced].
    rewrite fmap_removelast. apply StronglySorted_removelast. exact Hplaced.
  - intros s Hs.
    apply elem_of_renumber in Hs as (s0 & Hs0 & Hsame).
    apply elem_of_trimmed in Hs0.
    apply list_elem_of_omap in Hs0 as (i & Hi & Hpl).
    apply elem_of_seqZ in Hi.
    destruct (placed_at_fields self ds i s0 Hpl) as (_ & Hd & _).
    destruct Hsame as (_ & _ & _ & Hd' & _). rewrite Hd', Hd.
    split.
    + apply scaled_index_within; [assumption | assumption | fold n; lia].
    + exists i. split; [fold n; lia | reflexivity].
Qed.

(** The unit centerline with segments of length 1. *)
Lemma segment_distances_increase_witness :
  centerline_points ExactSamples.unit_track <> [] /\
  0 < segment_length ExactSamples.unit_track /\
  exists (ws : list warning) (self' : HeatTrackGenerator),
    divide_track_into_segments ExactSamples.unit_track = (ws, inr self') /\
    StronglySorted Rlt (distance <$> segment_divisions self').
Proof.
  assert (H1 : centerline_points ExactSamples.unit_track <> [])
    by discriminate.
  assert (H2 : 0 < segment_length ExactSamples.unit_track) by (simpl; lra).
  split; [exact H1 |]. split; [exact H2 |].
  destruct (segment_distances_increase ExactSamples.unit_track H1 H2)
    as (ws & self' & _ & _ & _ & _ & Hrun & Hsorted & _).
  exists ws, self'. split; [exact Hrun | exact Hsorted].
Defined.

(** *** Where the center of a segment lies *)




(** *** The first segment *)

(** The closed-loop check keeps the first boundary. *)
Lemma trimmed_head (self : HeatTrackGenerator) (s0 : Segment)
    (rest : list Segment) :
  exists rest', trimmed self (s0 :: rest) = s0 :: rest'.
Proof.
  destruct rest as [| s1 rest].
  - exists []. unfold trimmed.
    destruct (head (centerline_points self)),
      (last (centerline_points self)); try reflexivity.
    cbn [head last length Nat.ltb Nat.leb].
    rewrite andb_false_r. reflexivity.
  - destruct (trimmed_cases self (s0 :: s1 :: rest)) as [-> | ->];
      simpl; eauto.
Qed.

(** A centerline that starts with two distinct points always gets a
    segment, and its first segment sits on the first centerline point. In
    exact arithmetic, for a segment length [S > 0]: the method returns a
    non-empty sequence whose first segment has the number 1, the arc
    distance 0, the center [points[0]], and neither an [is_curve] nor a
    [speed_limit] key; the closed-loop check never removes it. *)
Theorem first_segment_sits_on_the_start (self : HeatTrackGenerator)
    (p0 p1 : Point) :
  centerline_points self !! 0%nat = Some p0 ->
  centerline_points self !! 1%nat = Some p1 ->
  p0 <> p1 -> 0 < segment_length self ->
  exists (ws : list warning) (self' : HeatTrackGenerator) (s : Segment),
    divide_track_into_segments self = (ws, inr self') /\
    segment_divisions self' !! 0%nat = Some s /\
    segment_number s = 1%Z /\ distance s = 0 /\ center_point s = p0 /\
    is_curve s = None /\ speed_limit s = None.
Proof.
  intros Hp0 Hp1 Hne HS.
  assert (Hlen : (2 <= length (centerline_points self))%nat).
  { pose proof (lookup_lt_Some _ _ _ Hp1). lia. }
  assert (Hnil : centerline_points self <> []).
  { intros H. rewrite H in Hlen. simpl in Hlen. lia. }
  destruct (arc_table_total (centerline_points self)) as (L & HL & HLpos).
  set (ds := arc_table (centerline_points self)) in *.
  assert (Hdlen : length ds = length (centerline_points self))
    by (apply length_arc_table; assumption).
  destruct (lookup_lt_is_Some_2 ds 1) as [d1 Hd1]; [lia |].
  pose proof (arc_table_first (centerline_points self)) as Hd0. fold ds in Hd0.
  pose proof (boundary_at_Some self ds 0 0 0 d1 p0 p1 Hd0 Hd1 Hp0 Hp1 Hne)
    as Hb. cbv zeta in Hb.
  destruct (placed_at_first self Hlen) as [Hfirst _]. fold ds in Hfirst.
  rewrite Hb in Hfirst.
  set (n := Exact.Rtrunc (L / segment_length self)).
  assert (Hn : (0 <= n)%Z).
  { unfold n. rewrite Rtrunc_quotient by assumption.
    pose proof (base_Int_part (L / segment_length self)) as [_ H].
    assert (0 <= L / segment_length self).
    { apply Rmult_le_pos; [assumption |].
      apply Rlt_le, Rinv_0_lt_compat. assumption. }
    apply Z.lt_succ_r. apply lt_IZR. rewrite succ_IZR. lra. }
  assert (Hplaced : exists s0 rest,
             omap (placed_at self ds) (range (n + 1)) = s0 :: rest /\
             placed_at self ds 0 = Some s0).
  { unfold range. rewrite seqZ_cons by lia. rewrite omap_head, Hfirst.
    eauto. }
  destruct Hplaced as (s0 & rest & Hplaced & Hs0).
  assert (Htrim : exists rest',
             trimmed self (omap (placed_at self ds) (range (n + 1)))
             = s0 :: rest').
  { rewrite Hplaced. apply trimmed_head. }
  destruct Htrim as (rest' & Htrim).
  do 2 eexists. exists (set_segment_number s0 (Z.of_nat 0 + 1)).
  split; [apply (divide_track_into_segments_exact self L Hnil); [lra | exact HL] |].
  cbn [segment_divisions set_segment_divisions]. fold ds n.
  rewrite Htrim.
  split; [reflexivity |].
  rewrite Hfirst in Hs0. injection Hs0 as <-.
  cbn [segment_number set_segment_number distance center_point is_curve
         speed_limit].
  split; [reflexivity |]. split; [lra |]. split; [| split; reflexivity].
  destruct p0 as [x0 y0], p1 as [x1 y1]. unfold vadd, smul, vsub.
  cbn [fst snd add sub mul Exact.arith].
  replace ((IZR 0 * segment_length self - 0) / (d1 - 0)) with 0
    by (unfold Rdiv; ring).
  f_equal; ring.
Qed.

(** The unit centerline. *)
Lemma first_segment_sits_on_the_start_witness :
  centerline_points ExactSamples.unit_track !! 0%nat = Some (0, 0) /\
  centerline_points ExactSamples.unit_track !! 1%nat = Some (1, 0) /\
  ((0, 0) : Point) <> (1, 0) /\
  0 < segment_length ExactSamples.unit_track /\
  exists (ws : list warning) (self' : HeatTrackGenerator) (s : Segment),
    divide_track_into_segments ExactSamples.unit_track = (ws, inr self') /\
    segment_divisions self' !! 0%nat = Some s /\
    center_point s = (0, 0).
Proof.
  assert (H1 : centerline_points ExactSamples.unit_track !! 0%nat
               = Some ((0, 0) : Point)) by reflexivity.
  assert (H2 : centerline_points ExactSamples.unit_track !! 1%nat
               = Some ((1, 0) : Point)) by reflexivity.
  assert (H3 : ((0, 0) : Point) <> (1, 0)) by (intros [= H]; lra).
  assert (H4 : 0 < segment_length ExactSamples.unit_track) by (simpl; lra).
  split; [exact H1 |]. split; [exact H2 |]. split; [exact H3 |].
  split; [exact H4 |].
  destruct (first_segment_sits_on_the_start ExactSamples.unit_track
              (0, 0) (1, 0) H1 H2 H3 H4)
    as (ws & self' & s & Hrun & Hs & _ & _ & Hc & _).
  exists ws, self', s. auto.
Defined.

End SegmenterPositions.

(** * Further properties of the border offsets *)

Section BordersMore.
Local Open Scope R_scope.

Local Abbreviation Point := (Point R).
Local Abbreviation HeatTrackGenerator := (HeatTrackGenerator R).

Lemma Rabs_square (x : R) : Rabs x * Rabs x = x * x.
Proof. unfold Rabs. destruct (Rcase_abs x); ring. Qed.

Lemma offset_geometry_facts (c d : Point) (offset_distance : R) :
  d <> (0, 0) ->
  let perpendicular := (- (d.2 / norm d), d.1 / norm d) in
  let l := vadd c (vmul perpendicular offset_distance) in
  let r := vsub c (vmul perpendicular offset_distance) in
  norm (vsub l c) = Rabs offset_distance /\
  norm (vsub r c) = Rabs offset_distance /\
  dot (vsub l c) d = 0 /\
  cross d (vsub l c) = offset_distance * norm d /\
  cross d (vsub r c) = - offset_distance * norm d.
Proof.
  intros Hd perpendicular l r.
  assert (Hn : 0 < norm d) by (apply norm_pos_iff; assumption).
  pose proof (norm_square d) as Hn2.
  destruct c as [cx cy], d as [dx dy].
  set (n := norm (dx, dy)) in *.
  subst l r perpendicular. unfold vsub, vadd, vmul, dot, cross.
  cbn [fst snd add sub mul div opp of_Z Exact.arith] in *.
  assert (Huv : dy / n * (dy / n) + dx / n * (dx / n) = 1).
  { replace (dy / n * (dy / n) + dx / n * (dx / n))
      with ((dx * dx + dy * dy) / (n * n)) by (field; lra).
    rewrite <- Hn2. field. lra. }
  assert (Hq : (dx * dx + dy * dy) / n = n).
  { rewrite <- Hn2. field. lra. }
  pose proof (Rabs_pos offset_distance) as Hpos.
  pose proof (Rabs_square offset_distance) as Hsq.
  split; [| split; [| split; [| split]]].
  - apply norm_unique; [assumption |]. cbn [fst snd]. rewrite Hsq.
    replace ((cx + - (dy / n) * offset_distance - cx)
             * (cx + - (dy / n) * offset_distance - cx)
             + (cy + dx / n * offset_distance - cy)
               * (cy + dx / n * offset_distance - cy))
      with (offset_distance * offset_distance
            * (dy / n * (dy / n) + dx / n * (dx / n))) by ring.
    rewrite Huv. ring.
  - apply norm_unique; [assumption |]. cbn [fst snd]. rewrite Hsq.
    replace ((cx - - (dy / n) * offset_distance - cx)
             * (cx - - (dy / n) * offset_distance - cx)
             + (cy - dx / n * offset_distance - cy)
               * (cy - dx / n * offset_distance - cy))
      with (offset_distance * offset_distance
            * (dy / n * (dy / n) + dx / n * (dx / n))) by ring.
    rewrite Huv. ring.
  - field. lra.
  - replace (dx * (cy + dx / n * offset_distance - cy)
             - dy * (cx + - (dy / n) * offset_distance - cx))
      with (offset_distance * ((dx * dx + dy * dy) / n)) by (field; lra).
    rewrite Hq. reflexivity.
  - replace (dx * (cy - dx / n * offset_distance - cy)
             - dy * (cx - - (dy / n) * offset_distance - cx))
      with (- offset_distance * ((dx * dx + dy * dy) / n)) by (field; lra).
    rewrite Hq. reflexivity.
Qed.

(** Every border point of the fallback is an offset of its centerline
    point. In exact arithmetic, for a centerline of at least two points:
    at each index the fallback keeps, the left and the right point are at
    distance [|offset_distance|] from the centerline point, on the line
    through it perpendicular to the estimated tangent, and on opposite
    sides of the tangent: the vector product of the tangent with the
    offset is [offset_distance * |tangent|] for the left point and its
    opposite for the right point. *)
Theorem fallback_points_are_perpendicular_offsets
    (self : HeatTrackGenerator) (offset_distance : R) :
  (2 <= length (centerline_points self))%nat ->
  exists self',
    _manual_offset_calculation self offset_distance = ret self' /\
    forall k i,
      kept_indices (centerline_points self) !! k = Some i ->
      exists current d left_point right_point,
        centerline_points self !! i = Some current /\
        tangent (centerline_points self) i = Some d /\
        left_border_points self' !! k = Some left_point /\
        right_border_points self' !! k = Some right_point /\
        norm (vsub left_point current) = Rabs offset_distance /\
        norm (vsub right_point current) = Rabs offset_distance /\
        dot (vsub left_point current) d = 0 /\
        cross d (vsub left_point current) = offset_distance * norm d /\
        cross d (vsub right_point current) = - offset_distance * norm d.
Proof.
  intros Hlen.
  destruct (manual_offset_exact self offset_distance Hlen)
    as (self' & Hrun & _ & _).
  exists self'. split; [exact Hrun |].
  intros k i Hk.
  destruct (manual_offset_lookup self self' offset_distance k i Hlen Hrun Hk)
    as (current & d & Hc & Ht & Hd & Hleft & Hright).
  destruct (offset_geometry_facts current d offset_distance Hd)
    as (G1 & G2 & G3 & G4 & G5).
  exists current, d. do 2 eexists.
  split; [exact Hc |]. split; [exact Ht |].
  split; [exact Hleft |]. split; [exact Hright |].
  auto.
Qed.

(** The centerline [(0,0), (1,0), (1,0), (2,0)] at the offset 1. *)
Lemma fallback_points_are_perpendicular_offsets_witness :
  (2 <= length (centerline_points ExactSamples.repeated_interior_track))%nat /\
  exists self',
    _manual_offset_calculation ExactSamples.repeated_interior_track 1
    = ret self'.
Proof.
  assert (H : (2 <= length (centerline_points
                              ExactSamples.repeated_interior_track))%nat)
    by (simpl; lia).
  split; [exact H |].
  destruct (fallback_points_are_perpendicular_offsets
              ExactSamples.repeated_interior_track 1 H) as (self' & Hrun & _).
  exists self'. exact Hrun.
Defined.


End BordersMore.


(** * The parser *)

Section ParserProofs.
Context {num : Type} {arith : Arith num}.

Local Abbreviation Point := (Point num).
Local Abbreviation HeatTrackGenerator := (HeatTrackGenerator num).

Variable path : Type.
Variable svg2paths : string -> exn + list path.
Variable point : path -> num -> exn + Point.

(** The parameter of the [i]-th sample. *)
Local Abbreviation parameter i := (div (of_Z i) (of_Z num_samples)).

(** The sampling loop returns exactly when every call of [point] does, and
    then appends the points in order. *)
Lemma sample_loop_run (p : path) (xs : list Z) (s : list Point) :
  (forall i, i ∈ xs -> exists q, point p (parameter i) = inr q) ->
  exists points,
    for_each xs (sample_point point p) s = ret (s ++ points) /\
    Forall2 (fun i q => point p (parameter i) = inr q) xs points.
Proof.
  revert s. induction xs as [| x xs IH]; intros s Hall.
  - exists []. rewrite app_nil_r. split; [reflexivity | constructor].
  - destruct (Hall x ltac:(left)) as [q Hq].
    destruct (IH (s ++ [q])) as (points & Hrun & Hpoints).
    { intros i Hi. apply Hall. right. exact Hi. }
    exists (q :: points). split.
    + cbn [for_each]. unfold sample_point at 1. rewrite Hq.
      change (lift (inr q)) with (ret q). rewrite !bind_ret.
      rewrite Hrun, <- app_assoc. reflexivity.
    + constructor; assumption.
Qed.

Lemma sample_loop_inv (p : path) (xs : list Z) (s r : list Point)
    (ws : list warning) :
  for_each xs (sample_point point p) s = (ws, inr r) ->
  forall i, i ∈ xs -> exists q, point p (parameter i) = inr q.
Proof.
  revert s ws. induction xs as [| x xs IH]; intros s ws Hrun i Hi.
  - inversion Hi.
  - cbn [for_each] in Hrun.
    apply bind_inv in Hrun as (ws1 & s' & ws2 & Hbody & Hrest & _).
    unfold sample_point in Hbody.
    destruct (point p (parameter x)) as [e | q] eqn:Hq;
      [discriminate |].
    apply elem_of_cons in Hi as [-> | Hi]; [eauto |].
    eapply IH; eassumption.
Qed.

(** [try: ... except Exception: raise] changes nothing. *)
Lemma try_except_reraise {A} (m : M A) : try_except m (fun e => raise e) = m.
Proof.
  destruct m as [ws [e | a]]; simpl; [rewrite app_nil_r |]; reflexivity.
Qed.

(** What the parser stores. When [svg2paths] reads at least one path from
    the file and [point] returns on the first path at each of the
    parameters [0/1000, 1/1000, ..., 1000/1000], the parser returns; the
    centerline it stores has 1001 points, the [k]-th of which is the point
    of the first path at [k/1000]; the other paths are not looked at, and
    the other attributes of the object keep their values. *)
Theorem parser_samples_the_first_path (self : HeatTrackGenerator)
    (svg_file_path : string) (centerline_path : path) (others : list path) :
  svg2paths svg_file_path = inr (centerline_path :: others) ->
  (forall k, (0 <= k <= 1000)%Z ->
             exists q, point centerline_path (parameter k) = inr q) ->
  exists self',
    parse_svg_centerline svg2paths point self svg_file_path = ret self' /\
    length (centerline_points self') = 1001%nat /\
    (forall k, (0 <= k <= 1000)%Z ->
               exists q, centerline_points self' !! Z.to_nat k = Some q /\
                         point centerline_path (parameter k) = inr q) /\
    track_width self' = track_width self /\
    segment_length self' = segment_length self /\
    left_border_points self' = left_border_points self /\
    right_border_points self' = right_border_points self /\
    segment_divisions self' = segment_divisions self.
Proof.
  intros Hpaths Hpoint.
  destruct (sample_loop_run centerline_path (range (num_samples + 1)) [])
    as (points & Hrun & Hpoints).
  { intros i Hi. apply Hpoint. unfold range, num_samples in Hi.
    apply elem_of_seqZ in Hi. lia. }
  exists (set_centerline_points self points). split.
  - unfold parse_svg_centerline. rewrite try_except_reraise, Hpaths.
    change (lift (inr (centerline_path :: others)))
      with (ret (centerline_path :: others)).
    rewrite bind_ret, Hrun, bind_ret. reflexivity.
  - cbn [centerline_points track_width segment_length left_border_points
           right_border_points segment_divisions set_centerline_points].
    assert (Hlen : length points = 1001%nat).
    { rewrite <- (Forall2_length _ _ _ Hpoints). unfold range, num_samples.
      rewrite length_seqZ. reflexivity. }
    split; [exact Hlen |].
    split; [| repeat split].
    intros k Hk.
    assert (Hx : range (num_samples + 1) !! Z.to_nat k = Some k).
    { unfold range, num_samples. rewrite lookup_seqZ. split; lia. }
    destruct (Forall2_lookup_l _ _ _ _ _ Hpoints Hx) as (q & Hq & Hpq).
    exists q. split; assumption.
Qed.

(** When the parser returns and when it raises. It returns exactly when
    [svg2paths] returns a non-empty list of paths and [point] returns on
    the first of them at each of the 1001 parameters. An exception of
    [svg2paths] is raised again as it is, and an empty list of paths
    raises the [ValueError] of line 49. *)
Theorem parser_returns_iff (self : HeatTrackGenerator)
    (svg_file_path : string) :
  ((exists ws self',
      parse_svg_centerline svg2paths point self svg_file_path
      = (ws, inr self')) <->
   (exists centerline_path others,
      svg2paths svg_file_path = inr (centerline_path :: others) /\
      forall k, (0 <= k <= 1000)%Z ->
                exists q, point centerline_path (parameter k) = inr q)) /\
  (forall e, svg2paths svg_file_path = inl e ->
             parse_svg_centerline svg2paths point self svg_file_path
             = raise e) /\
  (svg2paths svg_file_path = inr [] ->
   parse_svg_centerline svg2paths point self svg_file_path
   = raise (ValueError "No paths found in SVG file")).
Proof.
  unfold parse_svg_centerline. rewrite try_except_reraise.
  split; [| split].
  - split.
    + intros (ws & self' & Hrun).
      destruct (svg2paths svg_file_path) as [e | [| p others]];
        [discriminate | discriminate |].
      exists p, others. split; [reflexivity |].
      change (lift (inr (p :: others))) with (ret (p :: others)) in Hrun.
      rewrite bind_ret in Hrun.
      apply bind_inv in Hrun as (ws1 & points & ws2 & Hloop & _ & _).
      intros k Hk. apply (sample_loop_inv _ _ _ _ _ Hloop).
      unfold range, num_samples. apply elem_of_seqZ. lia.
    + intros (p & others & Hpaths & Hpoint).
      destruct (sample_loop_run p (range (num_samples + 1)) [])
        as (points & Hrun & _).
      { intros i Hi. apply Hpoint. unfold range, num_samples in Hi.
        apply elem_of_seqZ in Hi. lia. }
      rewrite Hpaths.
      change (lift (inr (p :: others))) with (ret (p :: others)).
      rewrite bind_ret, Hrun, bind_ret. eauto.
  - intros e ->. reflexivity.
  - intros ->. reflexivity.
Qed.

End ParserProofs.

(** A file with one path, the diagonal [t |-> (t, t)]. *)
Lemma parser_samples_the_first_path_witness :
  (fun _ : string => inr [tt]) "track.svg"%string
  = (inr [tt] : exn + list unit) /\
  (forall k, (0 <= k <= 1000)%Z ->
             exists q : Point R,
               (fun (_ : unit) (t : R) => inr (t, t)) tt
                 (div (of_Z k) (of_Z num_samples))
               = (inr q : exn + Point R)) /\
  exists self',
    parse_svg_centerline (fun _ : string => inr [tt])
      (fun (_ : unit) (t : R) => inr (t, t))
      (init (of_Z 200) (of_Z 400)) "track.svg"
    = ret self' /\
    length (centerline_points self') = 1001%nat.
Proof.
  assert (H : forall k, (0 <= k <= 1000)%Z ->
              exists q : Point R,
                (fun (_ : unit) (t : R) => inr (t, t)) tt
                  (div (of_Z k) (of_Z num_samples))
                = (inr q : exn + Point R)).
  { intros k _. eexists. reflexivity. }
  split; [reflexivity |]. split; [exact H |].
  destruct (parser_samples_the_first_path unit (fun _ : string => inr [tt])
              (fun (_ : unit) (t : R) => inr (t, t))
              (init (of_Z 200) (of_Z 400)) "track.svg" tt [] eq_refl H)
    as (self' & Hrun & Hlen & _).
  exists self'. split; assumption.
Defined.

(** * Further properties of the segment mutations *)

Section AppMore.
Context {num : Type}.

Local Abbreviation Point := (Point num).
Local Abbreviation Segment := (Segment num).
Local Abbreviation HeatTrackGenerator := (HeatTrackGenerator num).



Lemma numbers_move_segment (segs : list Segment) (id : Z) (pos : Point) :
  segment_number <$> move_segment segs id pos = segment_number <$> segs.
Proof.
  induction segs as [| s segs IH]; simpl; [reflexivity |].
  destruct (segment_number s =? id)%Z; simpl; [reflexivity |].
  f_equal. exact IH.
Qed.


(** *** Two marks in a row *)

Lemma mark_segment_twice (a1 b1 l1 a2 b2 l2 : Z) (s : Segment) :
  let s' := mark_segment a2 b2 l2 (mark_segment a1 b1 l1 s) in
  segment_number s' = segment_number s /\
  ((a2 <= segment_number s <= b2)%Z ->
   is_curve s' = Some true /\ speed_limit s' = Some l2) /\
  (~ (a2 <= segment_number s <= b2)%Z ->
   (a1 <= segment_number s <= b1)%Z ->
   is_curve s' = Some true /\ speed_limit s' = Some l1) /\
  (~ (a2 <= segment_number s <= b2)%Z ->
   ~ (a1 <= segment_number s <= b1)%Z ->
   is_curve s' = Some (default false (is_curve s)) /\
   speed_limit s' = speed_limit s).
Proof.
  unfold mark_segment.
  destruct ((a1 <=? segment_number s)%Z && (segment_number s <=? b1)%Z)
    eqn:H1;
  cbn [segment_number set_curve];
  destruct ((a2 <=? segment_number s)%Z && (segment_number s <=? b2)%Z)
    eqn:H2;
  cbn [segment_number is_curve speed_limit set_curve default];
  (split; [reflexivity |]);
  first [apply andb_true_iff in H1 as [H1 H1']; apply Z.leb_le in H1, H1'
        | apply andb_false_iff in H1;
          assert (~ (a1 <= segment_number s <= b1)%Z)
            by (destruct H1 as [H1 | H1]; apply Z.leb_gt in H1; lia)];
  first [apply andb_true_iff in H2 as [H2 H2']; apply Z.leb_le in H2, H2'
        | apply andb_false_iff in H2;
          assert (~ (a2 <= segment_number s <= b2)%Z)
            by (destruct H2 as [H2 | H2]; apply Z.leb_gt in H2; lia)];
  repeat split; intros; try reflexivity; try (exfalso; lia);
    try contradiction.
Qed.

Lemma mark_segment_commute (a1 b1 l1 a2 b2 l2 : Z) (s : Segment) :
  ((a1 <= segment_number s <= b1)%Z ->
   (a2 <= segment_number s <= b2)%Z -> l1 = l2) ->
  mark_segment a2 b2 l2 (mark_segment a1 b1 l1 s)
  = mark_segment a1 b1 l1 (mark_segment a2 b2 l2 s).
Proof.
  intros Hsame. unfold mark_segment.
  destruct ((a1 <=? segment_number s)%Z && (segment_number s <=? b1)%Z)
    eqn:H1;
  cbn [segment_number set_curve];
  destruct ((a2 <=? segment_number s)%Z && (segment_number s <=? b2)%Z)
    eqn:H2;
  cbn [segment_number is_curve speed_limit set_curve center_point line_start
         line_end distance default];
  rewrite ?H1, ?H2;
  cbn [segment_number is_curve speed_limit set_curve center_point line_start
         line_end distance default];
  try reflexivity.
  apply andb_true_iff in H1 as [H1 H1'], H2 as [H2 H2'].
  apply Z.leb_le in H1, H1', H2, H2'.
  rewrite (Hsame ltac:(lia) ltac:(lia)). reflexivity.
Qed.

(** Two marks in a row on a registered session. The later mark wins where
    the ranges overlap; a segment of the first range only stays a curve
    with the first speed limit, so that no call of [mark_curve] unmarks a
    curve; and the two calls can be swapped when the ranges share no
    segment number or the speed limits agree. *)
Theorem later_curve_mark_wins
    (track_generators : gmap string HeatTrackGenerator) (session_id : string)
    (a1 b1 a2 b2 : Z) (limit1 limit2 : option Z)
    (generator : HeatTrackGenerator) :
  track_generators !! session_id = Some generator ->
  let twice registry :=
    mark_curve (mark_curve registry session_id a1 b1 limit1).2
      session_id a2 b2 limit2 in
  let swapped registry :=
    mark_curve (mark_curve registry session_id a2 b2 limit2).2
      session_id a1 b1 limit1 in
  exists generator',
    twice track_generators
    = (success, <[session_id := generator']> track_generators) /\
    Forall2
      (fun s s' =>
         segment_number s' = segment_number s /\
         ((a2 <= segment_number s <= b2)%Z ->
          is_curve s' = Some true /\
          speed_limit s' = Some (default 3%Z limit2)) /\
         (~ (a2 <= segment_number s <= b2)%Z ->
          (a1 <= segment_number s <= b1)%Z ->
          is_curve s' = Some true /\
          speed_limit s' = Some (default 3%Z limit1)) /\
         (~ (a2 <= segment_number s <= b2)%Z ->
          ~ (a1 <= segment_number s <= b1)%Z ->
          is_curve s' = Some (default false (is_curve s)) /\
          speed_limit s' = speed_limit s))
      (segment_divisions generator) (segment_divisions generator') /\
    ((forall s, s ∈ segment_divisions generator ->
                (a1 <= segment_number s <= b1)%Z ->
                (a2 <= segment_number s <= b2)%Z ->
                default 3%Z limit1 = default 3%Z limit2) ->
     swapped track_generators = twice track_generators).
Proof.
  intros Hg twice swapped. subst twice swapped. cbv beta.
  unfold mark_curve. rewrite Hg. cbn [snd].
  rewrite !lookup_insert_eq, !insert_insert_eq.
  cbn [segment_divisions with_segments track_width segment_length
         centerline_points left_border_points right_border_points].
  rewrite !map_map.
  eexists. split; [reflexivity |]. split.
  - cbn [segment_divisions with_segments].
    apply Forall2_same_length_lookup_2; [rewrite length_map; reflexivity |].
    intros k s s' Hs Hs'.
    rewrite list_lookup_fmap, Hs in Hs'. injection Hs' as <-.
    apply mark_segment_twice.
  - intros Hsame. do 3 f_equal.
    apply map_ext_in. intros s Hs.
    apply mark_segment_commute. intros H2 H1. symmetry.
    apply (Hsame s); [apply list_elem_of_In; exact Hs | exact H1 | exact H2].
Qed.

(** *** Marks and moves *)

Lemma move_segment_mark (a b l : Z) (segs : list Segment) (id : Z)
    (pos : Point) :
  move_segment (map (mark_segment a b l) segs) id pos
  = map (mark_segment a b l) (move_segment segs id pos).
Proof.
  induction segs as [| s segs IH]; [reflexivity |].
  cbn [map move_segment].
  assert (Hn : segment_number (mark_segment a b l s) = segment_number s).
  { unfold mark_segment. destruct (_ && _); reflexivity. }
  rewrite Hn. destruct (segment_number s =? id)%Z.
  - cbn [map]. f_equal. unfold mark_segment.
    cbn [segment_number set_center_point].
    destruct (_ && _); reflexivity.
  - cbn [map]. f_equal. exact IH.
Qed.

Lemma move_segments_mark (a b l : Z) (updates : list (Z * Point))
    (segs : list Segment) :
  move_segments (map (mark_segment a b l) segs) updates
  = map (mark_segment a b l) (move_segments segs updates).
Proof.
  revert segs. induction updates as [| u updates IH]; intros segs;
    [reflexivity |].
  unfold move_segments in *. cbn [fold_left].
  rewrite move_segment_mark. apply IH.
Qed.

(** Marking a curve and moving segments do not interfere: in either order
    the two handlers leave the same registry, and give the same two
    answers. *)
Theorem mark_curve_and_update_segments_commute
    (track_generators : gmap string HeatTrackGenerator) (session_id : string)
    (segments : list (Z * Point)) (start_segment end_segment : Z)
    (limit : option Z) :
  let marked :=
    mark_curve track_generators session_id start_segment end_segment limit in
  let updated := update_segments track_generators session_id segments in
  update_segments marked.2 session_id segments
  = (updated.1,
     (mark_curve updated.2 session_id start_segment end_segment limit).2) /\
  mark_curve updated.2 session_id start_segment end_segment limit
  = (marked.1, (update_segments marked.2 session_id segments).2).
Proof.
  intros marked updated. subst marked updated.
  unfold mark_curve, update_segments.
  destruct (track_generators !! session_id) as [generator |] eqn:Hg;
    cbn [fst snd].
  - rewrite !lookup_insert_eq, !insert_insert_eq. cbn [fst snd].
    cbn [segment_divisions with_segments track_width segment_length
           centerline_points left_border_points right_border_points].
    rewrite move_segments_mark. split; reflexivity.
  - rewrite Hg. split; reflexivity.
Qed.

(** *** Several updates of one segment *)

Lemma move_segment_not_found (segs : list Segment) (id : Z) (pos : Point) :
  id ∉ segment_number <$> segs -> move_segment segs id pos = segs.
Proof.
  induction segs as [| s segs IH]; [reflexivity |].
  rewrite fmap_cons. intros Hnot.
  apply not_elem_of_cons in Hnot as [Hne Hnot].
  cbn [move_segment].
  rewrite (proj2 (Z.eqb_neq _ _) (not_eq_sym Hne)), IH by assumption.
  reflexivity.
Qed.

Lemma move_segment_unique (segs : list Segment) (id : Z) (pos : Point) :
  NoDup (segment_number <$> segs) ->
  move_segment segs id pos
  = map (fun s => if (segment_number s =? id)%Z
                  then set_center_point s pos else s) segs.
Proof.
  induction segs as [| s segs IH]; [reflexivity |].
  rewrite fmap_cons. intros Hnodup.
  apply NoDup_cons in Hnodup as [Hnot Hnodup].
  cbn [move_segment map].
  destruct (segment_number s =? id)%Z eqn:Hid.
  - f_equal. apply Z.eqb_eq in Hid. subst id.
    rewrite <- (move_segment_not_found segs (segment_number s) pos Hnot)
      at 1.
    apply IH. exact Hnodup.
  - f_equal. apply IH. exact Hnodup.
Qed.

Lemma last_position_cons (id : Z) (pos : Point) (updates : list (Z * Point))
    (segment_id : Z) :
  last_position ((id, pos) :: updates) segment_id
  = match last_position updates segment_id with
    | Some p => Some p
    | None => if (id =? segment_id)%Z then Some pos else None
    end.
Proof.
  unfold last_position. rewrite filter_cons. cbn [fst].
  destruct (decide (id = segment_id)) as [-> | Hne].
  - rewrite Z.eqb_refl, last_cons.
    destruct (last (filter _ updates)); reflexivity.
  - rewrite (proj2 (Z.eqb_neq _ _) Hne).
    destruct (last (filter _ updates)); reflexivity.
Qed.

Lemma move_segments_unique (updates : list (Z * Point))
    (segs : list Segment) :
  NoDup (segment_number <$> segs) ->
  move_segments segs updates
  = map (fun s => match last_position updates (segment_number s) with
                  | Some pos => set_center_point s pos
                  | None => s
                  end) segs.
Proof.
  revert segs. induction updates as [| [id pos] updates IH];
    intros segs Hnodup.
  - cbn. symmetry. apply map_id.
  - unfold move_segments in *. cbn [fold_left fst snd].
    rewrite IH by (rewrite numbers_move_segment; exact Hnodup).
    rewrite move_segment_unique by exact Hnodup.
    rewrite map_map. apply map_ext. intros s.
    rewrite last_position_cons.
    destruct (segment_number s =? id)%Z eqn:Hid.
    + cbn [segment_number set_center_point].
      apply Z.eqb_eq in Hid. rewrite <- Hid, Z.eqb_refl.
      destruct (last_position updates (segment_number s)); reflexivity.
    + rewrite Z.eqb_sym, Hid.
      destruct (last_position updates (segment_number s)); reflexivity.
Qed.

(** When the segments of a registered session carry distinct numbers, as
    the segmenter numbers them, [update_segments] moves every segment
    whose number is the ['id'] of some update of the request to the
    position of the last such update, and leaves every other segment as
    it is. *)
Theorem last_update_of_a_segment_wins
    (track_generators : gmap string HeatTrackGenerator) (session_id : string)
    (segments : list (Z * Point)) (generator : HeatTrackGenerator) :
  track_generators !! session_id = Some generator ->
  NoDup (segment_number <$> segment_divisions generator) ->
  exists generator',
    update_segments track_generators session_id segments
    = (success, <[session_id := generator']> track_generators) /\
    segment_divisions generator'
    = map (fun s => match last_position segments (segment_number s) with
                    | Some pos => set_center_point s pos
                    | None => s
                    end) (segment_divisions generator).
Proof.
  intros Hg Hnodup. unfold update_segments. rewrite Hg.
  eexists. split; [reflexivity |].
  cbn [segment_divisions with_segments].
  apply move_segments_unique. exact Hnodup.
Qed.

End AppMore.

(** Marking the segments 1 to 2 with the limit 4 and then the segments 2 to
    3 with the limit 5. *)
Lemma later_curve_mark_wins_witness :
  Float64Samples.sample_sessions !! "session_0"%string
  = Some Float64Samples.sample_generator /\
  exists generator',
    mark_curve
      (mark_curve Float64Samples.sample_sessions "session_0" 1 2
         (Some 4%Z)).2
      "session_0" 2 3 (Some 5%Z)
    = (success,
       <[ "session_0"%string := generator' ]> Float64Samples.sample_sessions).
Proof.
  assert (H : Float64Samples.sample_sessions !! "session_0"%string
              = Some Float64Samples.sample_generator)
    by apply lookup_singleton_eq.
  split; [exact H |].
  destruct (later_curve_mark_wins
              Float64Samples.sample_sessions "session_0" 1 2 2 3
              (Some 4%Z) (Some 5%Z) Float64Samples.sample_generator H)
    as (g' & Hrun & _).
  exists g'. exact Hrun.
Defined.

(** Dragging the second segment twice, and the third once, in one request. *)
Lemma last_update_of_a_segment_wins_witness :
  Float64Samples.sample_sessions !! "session_0"%string
  = Some Float64Samples.sample_generator /\
  NoDup (segment_number
           <$> segment_divisions Float64Samples.sample_generator) /\
  exists generator',
    update_segments Float64Samples.sample_sessions "session_0"
      [(2%Z, Float64Samples.dragged_position);
       (3%Z, Float64Samples.dragged_position);
       (2%Z, Float64Samples.dragged_position)]
    = (success,
       <[ "session_0"%string := generator' ]> Float64Samples.sample_sessions).
Proof.
  assert (H : Float64Samples.sample_sessions !! "session_0"%string
              = Some Float64Samples.sample_generator)
    by apply lookup_singleton_eq.
  assert (Hnodup : NoDup (segment_number
                            <$> segment_divisions
                                  Float64Samples.sample_generator)).
  { change (NoDup [1%Z; 2%Z; 3%Z]).
    repeat (apply NoDup_cons;
            split; [rewrite ?elem_of_cons, elem_of_nil; lia |]).
    apply NoDup_nil_2. }
  split; [exact H |]. split; [exact Hnodup |].
  destruct (last_update_of_a_segment_wins
              Float64Samples.sample_sessions "session_0"
              [(2%Z, Float64Samples.dragged_position);
               (3%Z, Float64Samples.dragged_position);
               (2%Z, Float64Samples.dragged_position)]
              Float64Samples.sample_generator H Hnodup)
    as (g' & Hrun & _).
  exists g'. exact Hrun.
Defined.

(** * The handler [generate_track] *)

Section HandlerProofs.
Context {num : Type} {arith : Arith num}.

Local Abbreviation Point := (Point num).
Local Abbreviation HeatTrackGenerator := (HeatTrackGenerator num).

Variable path : Type.
Variable svg2paths : string -> exn + list path.
Variable point : path -> num -> exn + Point.
Variable geometry : Type.
Variable LineString : list Point -> exn + geometry.
Variable parallel_offset : geometry -> num -> side -> exn + offset_geometry num.
Variable join : string -> string -> string.
Variable exists_ : string -> bool.






End HandlerProofs.

(** ** The handler in exact arithmetic *)

Section ExactHandler.
Local Open Scope R_scope.

Local Abbreviation Point := (Point R).
Local Abbreviation Segment := (Segment R).
Local Abbreviation HeatTrackGenerator := (HeatTrackGenerator R).

Variable path : Type.
Variable svg2paths : string -> exn + list path.
Variable point : path -> R -> exn + Point.
Variable geometry : Type.
Variable LineString : list Point -> exn + geometry.
Variable parallel_offset : geometry -> R -> side -> exn + offset_geometry R.
Variable join : string -> string -> string.
Variable exists_ : string -> bool.

Lemma parse_svg_centerline_exact (self : HeatTrackGenerator)
    (svg_file_path : string) (centerline_path : path) (others : list path) :
  svg2paths svg_file_path = inr (centerline_path :: others) ->
  (forall k, (0 <= k <= 1000)%Z ->
             exists q, point centerline_path (IZR k / 1000) = inr q) ->
  exists points,
    parse_svg_centerline svg2paths point self svg_file_path
    = ret (set_centerline_points self points) /\
    length points = 1001%nat.
Proof.
  intros Hpaths Hpoint.
  destruct (sample_loop_run path point centerline_path
              (range (num_samples + 1)) [])
    as (points & Hrun & Hpoints).
  { intros i Hi. apply Hpoint. unfold range, num_samples in Hi.
    apply elem_of_seqZ in Hi. lia. }
  exists points. split.
  - unfold parse_svg_centerline. rewrite try_except_reraise, Hpaths.
    change (lift (inr (centerline_path :: others)))
      with (ret (centerline_path :: others)).
    rewrite bind_ret, Hrun, bind_ret. reflexivity.
  - rewrite <- (Forall2_length _ _ _ Hpoints). unfold range, num_samples.
    rewrite length_seqZ. reflexivity.
Qed.

Lemma generate_track_borders_exact (self : HeatTrackGenerator)
    (centerline : geometry) :
  (2 <= length (centerline_points self))%nat ->
  LineString (centerline_points self) = inr centerline ->
  exists left_points right_points,
    generate_track_borders LineString parallel_offset self
    = ret (set_borders self left_points right_points).
Proof.
  intros Hlen HLS.
  pose proof (manual_offset_run exact_positive_nonzero self
                (track_width self / 2) Hlen) as Hfallback.
  cbv zeta in Hfallback.
  unfold generate_track_borders.
  destruct (centerline_points self) as [| p0 pts] eqn:Hpts;
    [simpl in Hlen; lia |].
  rewrite <- Hpts in *. rewrite HLS.
  change (lift (inr centerline)) with (ret centerline). rewrite bind_ret.
  change (div (track_width self) (of_Z 2)) with (track_width self / 2).
  destruct (parallel_offset centerline (track_width self / 2) side_left)
    as [e1 | l].
  - cbn [lift bind try_except]. rewrite Hfallback. eauto.
  - destruct (parallel_offset centerline (track_width self / 2) side_right)
      as [e2 | r].
    + cbn [lift bind try_except]. rewrite Hfallback. eauto.
    + cbn [lift bind try_except ret]. eauto.
Qed.

(** The whole pipeline of a request. In exact arithmetic, when the file of
    the request exists, [svg2paths] reads at least one path from it,
    [point] returns on the first path at the 1001 parameters, shapely's
    [LineString] accepts lists of 1001 points and the segment length is
    not zero, [generate_track] registers a generator: its centerline has
    1001 points and its segments are numbered 1, 2, ..., count. On the
    registry it leaves, [update_segments] succeeds for that session, and
    [mark_curve] from 1 to count makes every segment a curve of the given
    speed limit. *)
Theorem generate_track_runs_the_pipeline
    (track_generators : gmap string HeatTrackGenerator)
    (session_id name : string) (track_width_ segment_length_ : option R)
    (centerline_path : path) (others : list path) :
  name <> EmptyString ->
  exists_ (join UPLOAD_FOLDER name) = true ->
  svg2paths (join UPLOAD_FOLDER name) = inr (centerline_path :: others) ->
  (forall k, (0 <= k <= 1000)%Z ->
             exists q, point centerline_path (IZR k / 1000) = inr q) ->
  (forall points, length points = 1001%nat ->
                  exists centerline, LineString points = inr centerline) ->
  default 400 segment_length_ <> 0 ->
  exists generator track_data,
    generate_track svg2paths point LineString parallel_offset join exists_
      track_generators session_id (Some name) track_width_ segment_length_
    = (generated track_data session_id,
       <[session_id := generator]> track_generators) /\
    length (centerline_points generator) = 1001%nat /\
    segment_number <$> segment_divisions generator
    = seqZ 1 (Z.of_nat (length (segment_divisions generator))) /\
    TrackData.segments track_data = segment_divisions generator /\
    (forall segments,
       (update_segments (<[session_id := generator]> track_generators)
          session_id segments).1 = success) /\
    (forall limit,
       exists generator',
         mark_curve (<[session_id := generator]> track_generators)
           session_id 1 (Z.of_nat (length (segment_divisions generator)))
           limit
         = (success, <[session_id := generator']> track_generators) /\
         length (segment_divisions generator')
         = length (segment_divisions generator) /\
         Forall (fun s => is_curve s = Some true /\
                          speed_limit s = Some (default 3%Z limit))
           (segment_divisions generator')).
Proof.
  intros Hname Hexists Hpaths Hpoint HLS HS.
  set (generator0 := init (default 200 track_width_)
                       (default 400 segment_length_)).
  destruct (parse_svg_centerline_exact generator0 _ _ _ Hpaths Hpoint)
    as (points & Hparse & Hlen).
  set (generator1 := set_centerline_points generator0 points) in *.
  destruct (HLS points Hlen) as [centerline Hline].
  destruct (generate_track_borders_exact generator1 centerline)
    as (l & r & Hborders).
  { cbn [generator1 centerline_points set_centerline_points].
    rewrite Hlen. lia. }
  { exact Hline. }
  set (generator2 := set_borders generator1 l r) in *.
  assert (Hne : centerline_points generator2 <> []).
  { cbn [generator2 generator1 centerline_points set_borders
           set_centerline_points].
    intros ->. discriminate. }
  destruct (arc_table_total (centerline_points generator2)) as (L & HL & _).
  pose proof (divide_track_into_segments_exact generator2 L Hne HS HL)
    as Hdivide.
  cbv zeta in Hdivide.
  set (segs := renumber _) in Hdivide.
  set (generator3 := set_segment_divisions generator2 segs) in *.
  assert (Hnumbers : segment_number <$> segs
                     = seqZ 1 (Z.of_nat (length segs))).
  { subst segs. rewrite length_renumber. apply renumber_numbers. }
  exists generator3. eexists.
  split; [| split; [| split; [| split; [| split]]]].
  - unfold generate_track.
    rewrite (bool_decide_eq_false_2 _ Hname), Hexists. cbn [negb].
    unfold generate.
    change (of_Z 200) with 200. change (of_Z 400) with 400.
    fold generator0. rewrite Hparse, bind_ret.
    fold generator1. rewrite Hborders, bind_ret.
    fold generator2. rewrite Hdivide. cbn [outcome snd].
    reflexivity.
  - exact Hlen.
  - exact Hnumbers.
  - reflexivity.
  - intros segments. unfold update_segments.
    rewrite lookup_insert_eq. reflexivity.
  - intros limit. unfold mark_curve.
    rewrite lookup_insert_eq, insert_insert_eq.
    eexists. split; [reflexivity |].
    cbn [segment_divisions with_segments generator3 set_segment_divisions].
    split; [apply length_map |].
    apply Forall_forall. intros s' Hs'.
    apply list_elem_of_In, in_map_iff in Hs' as (s & <- & Hs).
    apply list_elem_of_In in Hs.
    assert (Hin : segment_number s ∈ segment_number <$> segs)
      by (apply list_elem_of_fmap; eauto).
    rewrite Hnumbers in Hin. apply elem_of_seqZ in Hin.
    unfold mark_segment.
    assert (Hlo : (1 <=? segment_number s)%Z = true)
      by (apply Z.leb_le; lia).
    assert (Hhi : (segment_number s <=? Z.of_nat (length segs))%Z = true)
      by (apply Z.leb_le; lia).
    rewrite Hlo, Hhi. split; reflexivity.
Qed.

End ExactHandler.

(** A request for the file [track.svg], whose one path is the diagonal
    [t |-> (t, t)]; shapely's offsets raise, so that the borders are the
    fallback's. *)
Lemma generate_track_runs_the_pipeline_witness :
  "track.svg"%string <> EmptyString /\
  (fun _ : string => true) (append UPLOAD_FOLDER "/track.svg") = true /\
  (1 : R) <> 0%R /\
  exists generator track_data,
    generate_track (fun _ : string => inr [tt])
      (fun (_ : unit) (t : R) => inr (t, t))
      (geometry := list (Point R)) inr
      (fun _ _ _ => inl (ShapelyError "offset failed"))
      (fun folder name => append folder (append "/" name))
      (fun _ : string => true)
      ∅ "session_0" (Some "track.svg"%string) None (Some 1%R)
    = (generated track_data "session_0",
       <[ "session_0"%string := generator ]> ∅) /\
    length (centerline_points generator) = 1001%nat.
Proof.
  assert (H1 : "track.svg"%string <> EmptyString) by discriminate.
  assert (H2 : (1 : R) <> 0%R) by lra.
  split; [exact H1 |]. split; [reflexivity |]. split; [exact H2 |].
  destruct (generate_track_runs_the_pipeline unit
              (fun _ : string => inr [tt])
              (fun (_ : unit) (t : R) => inr (t, t))
              (list (Point R)) inr
              (fun _ _ _ => inl (ShapelyError "offset failed"))
              (fun folder name => append folder (append "/" name))
              (fun _ : string => true)
              ∅ "session_0"%string "track.svg"%string None (Some 1%R)
              tt [] H1 eq_refl eq_refl
              (fun k _ => ex_intro _ (IZR k / 1000, IZR k / 1000)%R eq_refl)
              (fun points _ => ex_intro _ points eq_refl) H2)
    as (generator & track_data & Hrun & Hlen & _).
  exists generator, track_data. split; assumption.
Defined.

(** * The start line and the borders *)

Section StartLine.
Local Open Scope R_scope.

Local Abbreviation Point := (Point R).
Local Abbreviation Segment := (Segment R).
Local Abbreviation HeatTrackGenerator := (HeatTrackGenerator R).

(** The first segment of a centerline whose first two points differ. *)
Lemma first_segment_exact (self : HeatTrackGenerator) (p0 p1 : Point) :
  centerline_points self !! 0%nat = Some p0 ->
  centerline_points self !! 1%nat = Some p1 ->
  p0 <> p1 -> 0 < segment_length self ->
  let d := vsub p1 p0 in
  let perpendicular := (- (d.2 / norm d), d.1 / norm d) in
  exists (ws : list warning) (self' : HeatTrackGenerator),
    divide_track_into_segments self = (ws, inr self') /\
    left_border_points self' = left_border_points self /\
    right_border_points self' = right_border_points self /\
    segment_divisions self' !! 0%nat
    = Some (mkSegment 1 p0
              (vsub p0 (vmul perpendicular (track_width self / 2)))
              (vadd p0 (vmul perpendicular (track_width self / 2)))
              0 None None).
Proof.
  intros Hp0 Hp1 Hne HS d perpendicular.
  assert (Hlen : (2 <= length (centerline_points self))%nat).
  { pose proof (lookup_lt_Some _ _ _ Hp1). lia. }
  assert (Hnil : centerline_points self <> []).
  { intros H. rewrite H in Hlen. simpl in Hlen. lia. }
  destruct (arc_table_total (centerline_points self)) as (L & HL & HLpos).
  set (ds := arc_table (centerline_points self)) in *.
  assert (Hdlen : length ds = length (centerline_points self))
    by (apply length_arc_table; assumption).
  destruct (lookup_lt_is_Some_2 ds 1) as [d1 Hd1]; [lia |].
  pose proof (arc_table_first (centerline_points self)) as Hd0.
  fold ds in Hd0.
  pose proof (boundary_at_Some self ds 0 0 0 d1 p0 p1 Hd0 Hd1 Hp0 Hp1 Hne)
    as Hb. cbv zeta in Hb.
  assert (Hc : vadd p0 (smul ((IZR 0 * segment_length self - 0) / (d1 - 0))
                          (vsub p1 p0)) = p0).
  { destruct p0 as [x0 y0], p1 as [x1 y1]. unfold vadd, smul, vsub.
    cbn [fst snd add sub mul Exact.arith].
    replace ((IZR 0 * segment_length self - 0) / (d1 - 0)) with 0
      by (unfold Rdiv; ring).
    f_equal; ring. }
  rewrite Hc, Rmult_0_l in Hb.
  destruct (placed_at_first self Hlen) as [Hfirst _]. fold ds in Hfirst.
  rewrite Hb in Hfirst.
  set (n := Exact.Rtrunc (L / segment_length self)).
  assert (Hn : (0 <= n)%Z).
  { unfold n. rewrite Rtrunc_quotient by assumption.
    pose proof (base_Int_part (L / segment_length self)) as [_ H].
    assert (0 <= L / segment_length self).
    { apply Rmult_le_pos; [assumption |].
      apply Rlt_le, Rinv_0_lt_compat. assumption. }
    apply Z.lt_succ_r. apply lt_IZR. rewrite succ_IZR. lra. }
  assert (Hplaced : exists s0 rest,
             omap (placed_at self ds) (range (n + 1)) = s0 :: rest /\
             placed_at self ds 0 = Some s0).
  { unfold range. rewrite seqZ_cons by lia. rewrite omap_head, Hfirst.
    eauto. }
  destruct Hplaced as (s0 & rest & Hplaced & Hs0).
  destruct (trimmed_head self s0 rest) as (rest' & Htrim).
  rewrite <- Hplaced in Htrim.
  do 2 eexists.
  split; [apply (divide_track_into_segments_exact self L Hnil);
          [lra | exact HL] |].
  cbn [segment_divisions left_border_points right_border_points
         set_segment_divisions].
  split; [reflexivity |]. split; [reflexivity |].
  fold ds n. rewrite Htrim.
  rewrite Hfirst in Hs0. injection Hs0 as <-. reflexivity.
Qed.

(** The start line ends on the borders of the fallback. In exact
    arithmetic, for a centerline whose first two points differ and a
    positive segment length: when the borders are those of the fallback at
    half the track width, as [generate_track_borders] calls it, the first
    segment of the segmenter sits on the first centerline point, its
    [line_end] is the first point of the left border and its [line_start]
    the first point of the right border. *)
Theorem start_line_joins_the_fallback_borders (self : HeatTrackGenerator)
    (p0 p1 : Point) :
  centerline_points self !! 0%nat = Some p0 ->
  centerline_points self !! 1%nat = Some p1 ->
  p0 <> p1 -> 0 < segment_length self ->
  exists (bordered : HeatTrackGenerator) (ws : list warning)
         (self' : HeatTrackGenerator) (s : Segment),
    _manual_offset_calculation self (track_width self / 2) = ret bordered /\
    divide_track_into_segments bordered = (ws, inr self') /\
    segment_divisions self' !! 0%nat = Some s /\
    center_point s = p0 /\
    left_border_points self' !! 0%nat = Some (line_end s) /\
    right_border_points self' !! 0%nat = Some (line_start s).
Proof.
  intros Hp0 Hp1 Hne HS.
  assert (Hlen : (2 <= length (centerline_points self))%nat).
  { pose proof (lookup_lt_Some _ _ _ Hp1). lia. }
  destruct (manual_offset_exact self (track_width self / 2) Hlen)
    as (bordered & Hfallback & _ & _).
  assert (Hframe : centerline_points bordered = centerline_points self /\
                   segment_length bordered = segment_length self /\
                   track_width bordered = track_width self).
  { pose proof Hfallback as H.
    rewrite (manual_offset_run exact_positive_nonzero self _ Hlen) in H.
    injection H as <-. repeat split. }
  destruct Hframe as (Fc & Fs & Fw).
  assert (Hd : vsub p1 p0 <> (0, 0)).
  { intros H. apply Hne. symmetry. apply vsub_zero_iff. exact H. }
  assert (Ht : tangent (centerline_points self) 0 = Some (vsub p1 p0)).
  { unfold tangent. rewrite Hp0, Hp1. reflexivity. }
  assert (Hk : kept_indices (centerline_points self) !! 0%nat = Some 0%nat).
  { unfold kept_indices.
    pose proof (proj2 (proj2 (zero_tangent_exact _ _ _ Ht)) Hd) as Hz.
    destruct (length (centerline_points self)) as [| m]; [lia |].
    cbn [seq List.filter]. rewrite Hz. reflexivity. }
  destruct (manual_offset_lookup self bordered _ 0 0 Hlen Hfallback Hk)
    as (current & d & Hc & Ht' & _ & Hleft & Hright).
  rewrite Hp0 in Hc. injection Hc as <-.
  rewrite Ht in Ht'. injection Ht' as <-.
  destruct (first_segment_exact bordered p0 p1) as (ws & self' & Hrun & Hl & Hr & Hs).
  { rewrite Fc. exact Hp0. }
  { rewrite Fc. exact Hp1. }
  { exact Hne. }
  { rewrite Fs. exact HS. }
  exists bordered, ws, self'. eexists.
  split; [exact Hfallback |]. split; [exact Hrun |].
  split; [exact Hs |].
  cbn [center_point line_start line_end].
  split; [reflexivity |].
  rewrite Hl, Hr, Fw. split; assumption.
Qed.

(** The unit centerline. *)
Lemma start_line_joins_the_fallback_borders_witness :
  centerline_points ExactSamples.unit_track !! 0%nat = Some (0, 0) /\
  centerline_points ExactSamples.unit_track !! 1%nat = Some (1, 0) /\
  ((0, 0) : Point) <> (1, 0) /\
  0 < segment_length ExactSamples.unit_track /\
  exists (bordered : HeatTrackGenerator) (ws : list warning)
         (self' : HeatTrackGenerator),
    _manual_offset_calculation ExactSamples.unit_track
      (track_width ExactSamples.unit_track / 2) = ret bordered /\
    divide_track_into_segments bordered = (ws, inr self').
Proof.
  assert (H1 : centerline_points ExactSamples.unit_track !! 0%nat
               = Some ((0, 0) : Point)) by reflexivity.
  assert (H2 : centerline_points ExactSamples.unit_track !! 1%nat
               = Some ((1, 0) : Point)) by reflexivity.
  assert (H3 : ((0, 0) : Point) <> (1, 0)) by (intros [= H]; lra).
  assert (H4 : 0 < segment_length ExactSamples.unit_track) by (simpl; lra).
  split; [exact H1 |]. split; [exact H2 |]. split; [exact H3 |].
  split; [exact H4 |].
  destruct (start_line_joins_the_fallback_borders ExactSamples.unit_track
              (0, 0) (1, 0) H1 H2 H3 H4)
    as (bordered & ws & self' & s & Hfallback & Hrun & _).
  exists bordered, ws, self'. auto.
Defined.

End StartLine.
